(** * Topic reconstruction pipeline ([wia.analysis.topic_builder])

    A shallow embedding of [TopicBuilder] and the theorems that relate it to
    its specification.  Python values are embedded as follows:

    - [str] is a list of Unicode code points ([len], slicing and [strip]
      count code points, not bytes);
    - [int] is [Z] (Python integers are unbounded);
    - the [float] values are exact rationals [Q].  The similarity scores are
      only compared with the threshold.  The density of
      [_get_adaptive_window] is [(len / time_span) * 60] in double
      arithmetic, compared with 2, 1 and 0.5; rounding is monotone and exact
      at the three boundaries, and the nearest density that is not a boundary
      is [1 / (2 * time_span)] away, so the comparisons agree with those of
      the rational value for every span below 2^48 seconds.  The products
      [time_window * 0.5], [* 1.5] and [* 2] are exact for windows below
      2^51.  The theorems that give the value of the window, or that say
      that [run] returns, carry these bounds as the hypotheses
      [exact_window] and [exact_density], and the last part of the file
      embeds the function once more with doubles
      ([_get_adaptive_window_double]) and shows that both embeddings give
      the same window within these bounds;
    - a [dict] used only for lookup is a [gmap]; a [dict] whose iteration
      order is observed is an insertion-ordered association list;
    - lists updated by index are stdpp lists with [!!] and [<[_:=_]>];
    - [bytes] is a list of numbers below 256; [str.encode()] is UTF-8 and
      raises on a lone surrogate;
    - an exception that the code does not catch is [None];
    - library calls ([xml.etree], [sklearn], [hashlib]) are the fields of
      [Externals]; the iteration order of a [set] is a [HashSeed]. *)

From Stdlib Require Import ZArith QArith Qpower Qround Lqa Permutation Sorting.Sorted Lia String
  Ascii DecimalString.
From stdpp Require Import base option list gmap.

Set Warnings "-register-all".
Close Scope Q_scope.
Open Scope nat_scope.

(** ** Strings *)

Definition char := N.
Definition str := list char.

(** An ASCII literal as a [str]. *)
Definition lit (s : string) : str :=
  List.map N_of_ascii (list_ascii_of_string s).

(** [str.isspace] for one code point. *)
Definition is_space (c : char) : bool :=
  bool_decide (c ∈ [9; 10; 11; 12; 13; 28; 29; 30; 31; 32; 133; 160; 5760;
                    8192; 8193; 8194; 8195; 8196; 8197; 8198; 8199; 8200;
                    8201; 8202; 8232; 8233; 8239; 8287; 12288]%N).

Fixpoint lstrip (s : str) : str :=
  match s with
  | [] => []
  | c :: s' => if is_space c then lstrip s' else s
  end.

Definition rstrip (s : str) : str := rev (lstrip (rev s)).

(** [s.strip()] *)
Definition strip (s : str) : str := rstrip (lstrip s).

(** Truthiness of a [str]. *)
Definition nonempty (s : str) : bool :=
  match s with [] => false | _ => true end.

(** [sep.join(parts)] *)
Fixpoint join (sep : str) (parts : list str) : str :=
  match parts with
  | [] => []
  | [p] => p
  | p :: ps => p ++ sep ++ join sep ps
  end.

Fixpoint is_prefix (p s : str) : bool :=
  match p, s with
  | [], _ => true
  | _, [] => false
  | a :: p', b :: s' => (a =? b)%N && is_prefix p' s'
  end.

(** [p in s] for strings. *)
Fixpoint contains (p s : str) : bool :=
  is_prefix p s ||
  match s with
  | [] => false
  | _ :: s' => contains p s'
  end.

(** The media placeholders, as code points. *)
Definition ph_image : str := [91; 22270; 29255; 93]%N.   (* "[图片]" *)
Definition ph_voice : str := [91; 35821; 38899; 93]%N.   (* "[语音]" *)
Definition ph_video : str := [91; 35270; 39057; 93]%N.   (* "[视频]" *)
Definition ph_emoji : str := [91; 34920; 24773; 93]%N.   (* "[表情]" *)
Definition unknown_topic : str := [26410; 30693; 35805; 39064]%N. (* "未知话题" *)

(** [s in ["[图片]", "[语音]", "[视频]"]] *)
Definition is_media_placeholder (s : str) : bool :=
  bool_decide (s ∈ [ph_image; ph_voice; ph_video]).

(** ** Data model ([wia.core.models]) *)

Record ChatMessage := {
  msg_id : str;
  timestamp : Z;
  sender_id : str;
  sender_name : str;
  msg_type : str;
  content : str;
  xml_content : option str;
  source_file : str;
  type_ : option str
}.

Definition group := list ChatMessage.

(** The constructor arguments of [TopicBuilder]. *)
Record Config := {
  time_window : Z;
  min_messages : Z;
  semantic_threshold : Q;
  enable_reply_chain : bool;
  enable_semantic : bool;
  enable_adaptive_window : bool
}.

(** The float literal [0.3] is the double 5404319552844595 / 2^54. *)
Definition default_config : Config := {|
  time_window := 300;
  min_messages := 2;
  semantic_threshold := (5404319552844595 # 18014398509481984)%Q;
  enable_reply_chain := true;
  enable_semantic := true;
  enable_adaptive_window := true
|}.

(** ** [sorted(..., key=lambda m: m.timestamp)]

    Python's sort is stable; a stable sort is determined by its key, so it is
    embedded as the stable insertion sort. *)

Fixpoint insert_by_timestamp (m : ChatMessage) (l : list ChatMessage) : list ChatMessage :=
  match l with
  | [] => [m]
  | x :: l' =>
      if (timestamp m <=? timestamp x)%Z then m :: x :: l'
      else x :: insert_by_timestamp m l'
  end.

Fixpoint sorted_by_timestamp (l : list ChatMessage) : list ChatMessage :=
  match l with
  | [] => []
  | m :: l' => insert_by_timestamp m (sorted_by_timestamp l')
  end.

(** Ascending by timestamp. *)
Definition ascending (l : list ChatMessage) : Prop :=
  Sorted (fun a b => (timestamp a <= timestamp b)%Z) l.

(** ** Stage 1: adaptive time windows *)

(** [int(x)] of a non-integer number: truncation toward zero. *)
Definition py_int (q : Q) : Z := Z.quot (Qnum q) (Z.pos (Qden q)).

Definition Qlt_bool (a b : Q) : bool := negb (Qle_bool b a).

Definition _get_adaptive_window (cfg : Config) (current_group : group) : Z :=
  if negb (enable_adaptive_window cfg) || (length current_group <? 2) then
    time_window cfg
  else
    match head current_group, last current_group with
    | Some first, Some final =>
        let time_span := (timestamp final - timestamp first)%Z in
        let density : Q :=
          if (time_span =? 0)%Z then inject_Z (Z.of_nat (length current_group))
          else ((inject_Z (Z.of_nat (length current_group)) / inject_Z time_span)
                * inject_Z 60)%Q in
        if Qlt_bool (inject_Z 2) density then
          py_int (inject_Z (time_window cfg) * (1 # 2))
        else if Qlt_bool (inject_Z 1) density then
          time_window cfg
        else if Qlt_bool (1 # 2) density then
          py_int (inject_Z (time_window cfg) * (3 # 2))
        else
          py_int (inject_Z (time_window cfg) * inject_Z 2)
    | _, _ => time_window cfg (* not reached: the group has two messages *)
    end.

(** The loop of [_group_by_time_window]; [prev] is [messages[i - 1]]. *)
Fixpoint group_loop (cfg : Config) (prev : ChatMessage) (rest : list ChatMessage)
    (groups : list group) (current_group : group) : list group :=
  match rest with
  | [] =>
      match current_group with
      | [] => groups
      | _ => groups ++ [current_group]
      end
  | curr :: rest' =>
      let window := _get_adaptive_window cfg current_group in
      let time_diff := (timestamp curr - timestamp prev)%Z in
      if (time_diff <=? window)%Z then
        group_loop cfg curr rest' groups (current_group ++ [curr])
      else
        group_loop cfg curr rest' (groups ++ [current_group]) [curr]
  end.

Definition _group_by_time_window (cfg : Config) (messages : list ChatMessage) : list group :=
  match messages with
  | [] => []
  | m0 :: rest => group_loop cfg m0 rest [] [m0]
  end.

(** ** Stage 4: quality filter ([run], the list comprehension) *)

Definition quality_filter (cfg : Config) (groups : list group) : list group :=
  List.filter (fun g => (min_messages cfg <=? Z.of_nat (length g))%Z) groups.

(** ** Library calls *)

(** An [xml.etree.ElementTree.Element]: tag, text before the first child,
    children. *)
Inductive element := Element (tag : str) (text : option str) (children : list element).

Definition tag_of (e : element) : str := let 'Element t _ _ := e in t.
Definition text_of (e : element) : option str := let 'Element _ t _ := e in t.
Definition children_of (e : element) : list element := let 'Element _ _ c := e in c.

(** A byte string: one number below 256 for each byte. *)
Definition bytes := list N.

(** The code points U+D800 to U+DFFF. *)
Definition is_surrogate (c : char) : bool := (55296 <=? c)%N && (c <=? 57343)%N.

(** The UTF-8 bytes of one code point; [None] is the [UnicodeEncodeError]
    that a surrogate raises.  The code points of a Python string are below
    0x110000. *)
Definition utf8 (c : char) : option bytes :=
  if (c <? 128)%N then Some [c]
  else if (c <? 2048)%N then Some [192 + c / 64; 128 + c mod 64]%N
  else if is_surrogate c then None
  else if (c <? 65536)%N then
    Some [224 + c / 4096; 128 + (c / 64) mod 64; 128 + c mod 64]%N
  else
    Some [240 + c / 262144; 128 + (c / 4096) mod 64; 128 + (c / 64) mod 64;
          128 + c mod 64]%N.

(** [s.encode()] *)
Fixpoint encode (s : str) : option bytes :=
  match s with
  | [] => Some []
  | c :: s' =>
      b ← utf8 c;
      rest ← encode s';
      Some (b ++ rest)
  end.

(** What the code calls in other libraries.  [et_fromstring] is
    [ET.fromstring] ([None] when it raises), [tfidf_cosine_similarity] is
    [cosine_similarity(TfidfVectorizer(...).fit_transform(texts))] ([None]
    when either raises), [md5_hexdigest b] is [hashlib.md5(b).hexdigest()]. *)
Record Externals := {
  et_fromstring : str -> option element;
  tfidf_cosine_similarity : list str -> option (list (list Q));
  md5_hexdigest : bytes -> str
}.

(** [list(set(xs))] enumerates the distinct elements of [xs] in an order
    fixed by the interpreter's string hashing, which changes between
    processes.  A [HashSeed] is one such order. *)
Record HashSeed := {
  set_order : list str -> list str;
  set_order_NoDup : forall l, NoDup (set_order l);
  set_order_elem_of : forall l x, x ∈ set_order l <-> x ∈ l
}.

(** ** Element search and the two patterns *)

(** [e.find(t)]: the first child with tag [t]. *)
Definition find_child (t : str) (e : element) : option element :=
  List.find (fun c => bool_decide (tag_of c = t)) (children_of e).

(** [e.find(".//" + t)]: the first proper descendant with tag [t], in
    document order. *)
Fixpoint find_descendant (t : str) (e : element) : option element :=
  let fix go (cs : list element) : option element :=
    match cs with
    | [] => None
    | c :: cs' =>
        if bool_decide (tag_of c = t) then Some c
        else match find_descendant t c with
             | Some r => Some r
             | None => go cs'
             end
    end in
  go (children_of e).

(** [\d] on [str] patterns: the decimal digits of Unicode 14 (CPython 3.11). *)
Definition decimal_ranges : list (N * N) :=
  [(48, 57); (1632, 1641); (1776, 1785); (1984, 1993); (2406, 2415);
   (2534, 2543); (2662, 2671); (2790, 2799); (2918, 2927); (3046, 3055);
   (3174, 3183); (3302, 3311); (3430, 3439); (3558, 3567); (3664, 3673);
   (3792, 3801); (3872, 3881); (4160, 4169); (4240, 4249); (6112, 6121);
   (6160, 6169); (6470, 6479); (6608, 6617); (6784, 6793); (6800, 6809);
   (6992, 7001); (7088, 7097); (7232, 7241); (7248, 7257); (42528, 42537);
   (43216, 43225); (43264, 43273); (43472, 43481); (43504, 43513);
   (43600, 43609); (44016, 44025); (65296, 65305); (66720, 66729);
   (68912, 68921); (69734, 69743); (69872, 69881); (69942, 69951);
   (70096, 70105); (70384, 70393); (70736, 70745); (70864, 70873);
   (71248, 71257); (71360, 71369); (71472, 71481); (71904, 71913);
   (72016, 72025); (72784, 72793); (73040, 73049); (73120, 73129);
   (92768, 92777); (92864, 92873); (93008, 93017); (120782, 120831);
   (123200, 123209); (123632, 123641); (125264, 125273);
   (130032, 130041)]%N.

Definition is_decimal (c : char) : bool :=
  existsb (fun '(lo, hi) => (lo <=? c)%N && (c <=? hi)%N) decimal_ranges.

Definition not_lt (c : char) : bool := negb (c =? 60)%N.

(** The longest prefix of [s] made of characters in [cls], and the rest. *)
Fixpoint span (cls : char -> bool) (s : str) : str * str :=
  match s with
  | [] => ([], [])
  | c :: s' =>
      if cls c then let '(a, b) := span cls s' in (c :: a, b)
      else ([], s)
  end.

(** A match of [opening (cls+) closing] at the start of [s].  No character
    of [cls] starts [closing] in the patterns used here, so the greedy
    repetition never gives a character back. *)
Definition match_tagged (opening closing : str) (cls : char -> bool) (s : str) : option str :=
  if is_prefix opening s then
    let '(body, rest) := span cls (drop (length opening) s) in
    if nonempty body && is_prefix closing rest then Some body else None
  else None.

(** [re.search(opening + "(" + cls + "+)" + closing, s)], group 1. *)
Fixpoint re_search_tagged (opening closing : str) (cls : char -> bool) (s : str) : option str :=
  match match_tagged opening closing cls s with
  | Some body => Some body
  | None =>
      match s with
      | [] => None
      | _ :: s' => re_search_tagged opening closing cls s'
      end
  end.

(** [enumerate(l, start)] and [enumerate(l)] *)
Fixpoint enumerate_from {A} (start : nat) (l : list A) : list (nat * A) :=
  match l with
  | [] => []
  | x :: l' => (start, x) :: enumerate_from (S start) l'
  end.

Definition enumerate {A} (l : list A) : list (nat * A) := enumerate_from 0 l.

(** ** Stage 2: reply relations *)

Section WithExternals.

Context (E : Externals).

Definition _extract_quoted_msg_id (msg : ChatMessage) : option str :=
  match xml_content msg with
  | None => None
  | Some xml =>
      if negb (nonempty xml) then None
      else
        let by_pattern :=
          match re_search_tagged (lit "<svrid>") (lit "</svrid>") is_decimal xml with
          | Some digits => Some (lit "svrid_" ++ digits)
          | None => None
          end in
        if contains (lit "<refermsg>") xml then
          match et_fromstring E (lit "<root>" ++ xml ++ lit "</root>") with
          | None => None (* the exception is caught; the pattern is not tried *)
          | Some root =>
              match find_descendant (lit "refermsg") root with
              | Some refermsg =>
                  match find_child (lit "svrid") refermsg with
                  | Some svrid =>
                      match text_of svrid with
                      | Some t => if nonempty t then Some (lit "svrid_" ++ t) else by_pattern
                      | None => by_pattern
                      end
                  | None => by_pattern
                  end
              | None => by_pattern
              end
          end
        else by_pattern
  end.

(** [{msg.msg_id: msg for msg in group}] *)
Definition msg_map_of (g : group) : gmap str ChatMessage :=
  foldl (fun m msg => <[msg_id msg := msg]> m) ∅ g.

Definition group_relations (g : group) : list (str * str) :=
  let msg_map := msg_map_of g in
  flat_map (fun msg =>
    match _extract_quoted_msg_id msg with
    | Some quoted =>
        if nonempty quoted && bool_decide (is_Some (msg_map !! quoted))
        then [(msg_id msg, quoted)] else []
    | None => []
    end) g.

Definition _extract_reply_relations (groups : list group) : list (str * str) :=
  flat_map group_relations groups.


(** The inner loop that fills [msg_to_group] for one group. *)
Definition record_group (idx : nat) (msg_to_group : gmap str nat) (g : group)
    : gmap str nat :=
  foldl (fun m msg => <[msg_id msg := idx]> m) msg_to_group g.

(** The message-id to group-index dictionary; a later group overwrites. *)
Definition build_msg_to_group (groups : list group) : gmap str nat :=
  foldl (fun m '(idx, g) => record_group idx m g) ∅ (enumerate groups).

(** *** Union-find over group indices

    [find] is a [while] loop that rewrites [parent]; the embedding takes the
    number of iterations it may run and returns the array with the root.
    [None] is an index outside [parent] or an exhausted iteration budget;
    [merge_by_reply_relation_total] shows neither happens. *)
Fixpoint find (fuel : nat) (parent : list nat) (x : nat) : option (list nat * nat) :=
  match fuel with
  | O => None
  | S fuel' =>
      px ← parent !! x;
      if px =? x then Some (parent, x)
      else
        ppx ← parent !! px;
        let parent' := <[x := ppx]> parent in
        x' ← parent' !! x;
        find fuel' parent' x'
  end.

Definition union (fuel : nat) (parent : list nat) (x y : nat) : option (list nat) :=
  '(parent1, px) ← find fuel parent x;
  '(parent2, py) ← find fuel parent1 y;
  Some (if px =? py then parent2 else <[px := py]> parent2).

Fixpoint union_relations (fuel : nat) (msg_to_group : gmap str nat)
    (parent : list nat) (relations : list (str * str)) : option (list nat) :=
  match relations with
  | [] => Some parent
  | (reply_msg_id, quoted_msg_id) :: relations' =>
      match msg_to_group !! reply_msg_id, msg_to_group !! quoted_msg_id with
      | Some reply_group_idx, Some quoted_group_idx =>
          parent' ← union fuel parent reply_group_idx quoted_group_idx;
          union_relations fuel msg_to_group parent' relations'
      | _, _ => union_relations fuel msg_to_group parent relations'
      end
  end.

(** [root_to_messages[root].extend(g)], creating the entry at the end of the
    dictionary when [root] is new. *)
Fixpoint extend_root (root : nat) (g : group) (root_to_messages : list (nat * group))
    : list (nat * group) :=
  match root_to_messages with
  | [] => [(root, g)]
  | (r, msgs) :: rest =>
      if r =? root then (r, msgs ++ g) :: rest
      else (r, msgs) :: extend_root root g rest
  end.

Fixpoint collect_roots (fuel : nat) (parent : list nat) (igroups : list (nat * group))
    (root_to_messages : list (nat * group)) : option (list (nat * group)) :=
  match igroups with
  | [] => Some root_to_messages
  | (idx, g) :: igroups' =>
      '(parent', root) ← find fuel parent idx;
      collect_roots fuel parent' igroups' (extend_root root g root_to_messages)
  end.

Definition _merge_by_reply_relation (groups : list group) : option (list group) :=
  let msg_to_group := build_msg_to_group groups in
  let reply_relations := _extract_reply_relations groups in
  match reply_relations with
  | [] => Some groups
  | _ =>
      let fuel := S (length reply_relations) in
      parent ← union_relations fuel msg_to_group (seq 0 (length groups)) reply_relations;
      root_to_messages ← collect_roots fuel parent (enumerate groups) [];
      Some (List.map (fun '(_, messages) => sorted_by_timestamp messages) root_to_messages)
  end.

End WithExternals.

(** ** Stage 3: semantic similarity *)

Definition substantive (s : str) : bool :=
  nonempty s && negb (is_media_placeholder s).

Definition _get_group_text (g : group) : str :=
  join (lit " ")
       (List.map content (List.filter (fun msg => substantive (content msg)) (take 3 g))).

(** [np.zeros((n, n))] *)
Definition zeros (n : nat) : list (list Q) := replicate n (replicate n 0%Q).

(** [m[r][c] = v] *)
Definition set_entry (m : list (list Q)) (r c : nat) (v : Q) : list (list Q) :=
  match m !! r with
  | Some row => <[r := <[c := v]> row]> m
  | None => m
  end.

(** [m[r][c]]; the matrices read here are square of the size of the group
    list ([compute_semantic_similarities_square]), so the default is not
    used ([entry_square]). *)
Definition entry (m : list (list Q)) (r c : nat) : Q :=
  default 0%Q (row ← m !! r; row !! c).

(** The texts that are not blank, with their indices:
    [[(i, text) for i, text in enumerate(texts) if text.strip()]]. *)
Definition valid_entries (texts : list str) : list (nat * str) :=
  List.filter (fun '(i, t) => nonempty (strip t)) (enumerate texts).

Section Semantic.

Context (E : Externals).

(** The two nested loops that copy the scores of the non-blank texts into
    the full matrix; [None] when a score is missing (an [IndexError], which
    the [except] clause turns into the zero matrix). *)
Definition fill_similarities (similarities : list (list Q)) (valid_indices : list nat)
    (full : list (list Q)) : option (list (list Q)) :=
  foldl (fun acc '(i, idx_i) =>
    foldl (fun acc '(j, idx_j) =>
      full ← acc;
      v ← (row ← similarities !! i; row !! j);
      Some (set_entry full idx_i idx_j v))
      acc (enumerate valid_indices))
    (Some full) (enumerate valid_indices).

Definition _compute_semantic_similarities (texts : list str) : list (list Q) :=
  let n := length texts in
  let valid_indices := List.map fst (valid_entries texts) in
  if length valid_indices <? 2 then zeros n
  else
    let valid_texts := List.map snd (valid_entries texts) in
    match tfidf_cosine_similarity E valid_texts with
    | None => zeros n
    | Some similarities =>
        match fill_similarities similarities valid_indices (zeros n) with
        | Some full => full
        | None => zeros n
        end
    end.

End Semantic.

Section Merge.

Context (cfg : Config) (groups : list group) (similarities : list (list Q)).

(** One iteration of the inner loop over [j]. *)
Definition absorb (i : nat) (st : list nat * list bool) (j : nat) : list nat * list bool :=
  let '(similar_indices, merged) := st in
  if negb (default false (merged !! j))
     && Qle_bool (semantic_threshold cfg) (entry similarities i j)
  then (similar_indices ++ [j], <[j := true]> merged)
  else st.

(** [merged_group.extend(groups[idx]); merged[idx] = True] *)
Definition gather (st : group * list bool) (idx : nat) : group * list bool :=
  let '(merged_group, merged) := st in
  (merged_group ++ default [] (groups !! idx), <[idx := true]> merged).

(** One iteration of the outer loop over [i]. *)
Definition merge_step (st : list bool * list group) (i : nat) : list bool * list group :=
  let '(merged, final_groups) := st in
  if default false (merged !! i) then st
  else
    let n := length groups in
    let '(similar_indices, merged1) :=
      foldl (absorb i) ([i], merged) (seq (i + 1) (n - (i + 1))) in
    let '(merged_group, merged2) := foldl gather ([], merged1) similar_indices in
    (merged2, final_groups ++ [sorted_by_timestamp merged_group]).

Definition merge_similar : list group :=
  snd (foldl merge_step (replicate (length groups) false, []) (seq 0 (length groups))).

End Merge.

Definition _merge_by_semantic_similarity (E : Externals) (cfg : Config) (groups : list group)
    : list group :=
  if length groups <=? 1 then groups
  else
    let group_texts := List.map _get_group_text groups in
    let similarities := _compute_semantic_similarities E group_texts in
    merge_similar cfg groups similarities.

(** ** Topic assembly *)

Record LinkInfo := {
  link_title : option str;
  link_description : option str;
  link_url : option str
}.

(** One entry of [Topic.messages]. *)
Record MessageData := {
  md_msg_id : str;
  md_sender_name : str;
  md_content : str;
  md_timestamp : Z;
  md_msg_type : str;
  md_link : option LinkInfo
}.

Record Topic := {
  topic_id : str;
  message_ids : list str;
  title : str;
  participants : list str;
  initiator : option str;
  start_time : option Z;
  end_time : option Z;
  conclusion : option str;
  message_count : Z;
  messages : list MessageData
}.

(** [str(z)] for an [int]. *)
Definition str_of_Z (z : Z) : str :=
  lit (DecimalString.NilZero.string_of_int (Z.to_int z)).

(** [s.split()]: the maximal runs of characters that are not white space. *)
Fixpoint split_ws (cur : str) (s : str) : list str :=
  match s with
  | [] => if nonempty cur then [cur] else []
  | c :: s' =>
      if is_space c then
        if nonempty cur then cur :: split_ws [] s' else split_ws [] s'
      else split_ws (cur ++ [c]) s'
  end.

(** [opt] is truthy: a non-empty string. *)
Definition truthy (opt : option str) : bool :=
  match opt with Some s => nonempty s | None => false end.

Section Assembly.

Context (H : HashSeed) (E : Externals).

(** [None] is the [UnicodeEncodeError] of [content.encode()]. *)
Definition _generate_topic_id (message : ChatMessage) : option str :=
  let content :=
    str_of_Z (timestamp message) ++ lit "_" ++ sender_id message ++ lit "_"
    ++ msg_id message in
  encoded ← encode content;
  Some (take 12 (md5_hexdigest E encoded)).

Fixpoint _generate_title (messages : list ChatMessage) : str :=
  match messages with
  | [] => unknown_topic
  | msg :: messages' =>
      let content := strip (content msg) in
      if nonempty content
         && negb (bool_decide (content ∈ [ph_image; ph_voice; ph_video; ph_emoji]))
      then
        let title := List.map (fun c => if (c =? 10)%N then 32%N else c) content in
        let title := join (lit " ") (split_ws [] title) in
        if 50 <? length title then take 50 title ++ lit "..." else title
      else _generate_title messages'
  end.

Definition _extract_link_info_from_xml (xml_content : option str) : option LinkInfo :=
  match xml_content with
  | None => None
  | Some xml =>
      if negb (nonempty xml) then None
      else
        let by_pattern :=
          let title := re_search_tagged (lit "<title>") (lit "</title>") not_lt xml in
          let description := re_search_tagged (lit "<des>") (lit "</des>") not_lt xml in
          let url := re_search_tagged (lit "<url>") (lit "</url>") not_lt xml in
          if truthy title || truthy url then
            Some {| link_title := title; link_description := description; link_url := url |}
          else None in
        if contains (lit "<appmsg>") xml then
          match et_fromstring E (lit "<root>" ++ xml ++ lit "</root>") with
          | None => None
          | Some root =>
              match find_descendant (lit "appmsg") root with
              | Some appmsg =>
                  let title := e ← find_child (lit "title") appmsg; text_of e in
                  let description := e ← find_child (lit "des") appmsg; text_of e in
                  let url := e ← find_child (lit "url") appmsg; text_of e in
                  if truthy title || truthy url then
                    Some {| link_title := title; link_description := description;
                            link_url := url |}
                  else by_pattern
              | None => by_pattern
              end
          end
        else by_pattern
  end.

Definition _generate_conclusion (messages : list ChatMessage) : option str :=
  if length messages <=? 1 then None
  else
    let content_messages :=
      List.filter (fun m => nonempty (content m)
                            && negb (is_media_placeholder (strip (content m))))
                  (take 5 messages) in
    match content_messages with
    | [] => None
    | _ =>
        let contents := List.map (fun m => strip (take 100 (content m))) content_messages in
        let conclusion := join (lit " | ") contents in
        Some (if 300 <? length conclusion then take 300 conclusion ++ lit "..."
              else conclusion)
    end.

Definition message_data (m : ChatMessage) : MessageData :=
  let xml_to_parse :=
    if truthy (xml_content m) then xml_content m
    else if is_prefix (lit "<") (content m) then Some (content m) else None in
  {| md_msg_id := msg_id m;
     md_sender_name := sender_name m;
     md_content := content m;
     md_timestamp := timestamp m;
     md_msg_type := msg_type m;
     md_link := _extract_link_info_from_xml xml_to_parse |}.

(** [None] is the [IndexError] of [messages[0]] on an empty group, or the
    error of [_generate_topic_id]. *)
Definition _create_topic_from_group (messages : list ChatMessage) : option Topic :=
  first_msg ← head messages;
  id ← _generate_topic_id first_msg;
  final_msg ← last messages;
  Some {|
    topic_id := id;
    message_ids := List.map msg_id messages;
    title := _generate_title messages;
    participants := set_order H (List.map sender_name messages);
    initiator := Some (sender_name first_msg);
    start_time := Some (timestamp first_msg);
    end_time := Some (timestamp final_msg);
    conclusion := _generate_conclusion messages;
    message_count := Z.of_nat (length messages);
    messages := List.map message_data messages
  |}.

(** ** The pipeline *)

(** Stages 1 to 3 of [run], on the sorted messages: the groups that reach the
    quality filter. *)
Definition cluster (cfg : Config) (sorted_messages : list ChatMessage) : option (list group) :=
  let groups := _group_by_time_window cfg sorted_messages in
  groups ← (if enable_reply_chain cfg then _merge_by_reply_relation E groups
            else Some groups);
  Some (if enable_semantic cfg then _merge_by_semantic_similarity E cfg groups
        else groups).

Definition run (cfg : Config) (messages : list ChatMessage) : option (list Topic) :=
  let sorted_messages := sorted_by_timestamp messages in
  match sorted_messages with
  | [] => Some []
  | _ =>
      groups ← cluster cfg sorted_messages;
      mapM _create_topic_from_group (quality_filter cfg groups)
  end.

End Assembly.

(** * Specification

    The properties below are stated against these definitions, which follow
    the words of the specification. *)

(** ** The adaptive window as the specification words it

    [density = message_count / span_minutes], the message count when the
    span is zero, and the four tiers on it. *)

Definition spec_density (g : group) : Q :=
  let message_count := inject_Z (Z.of_nat (length g)) in
  match head g, last g with
  | Some first, Some final =>
      let span_seconds := (timestamp final - timestamp first)%Z in
      if (span_seconds =? 0)%Z then message_count
      else (message_count / (inject_Z span_seconds / inject_Z 60))%Q
  | _, _ => message_count
  end.

Definition spec_window (cfg : Config) (g : group) : Q :=
  let base_window := inject_Z (time_window cfg) in
  if negb (enable_adaptive_window cfg) then base_window
  else
    let density := spec_density g in
    if Qlt_bool (inject_Z 2) density then (base_window * (1 # 2))%Q
    else if Qlt_bool (inject_Z 1) density && Qle_bool density (inject_Z 2) then base_window
    else if Qlt_bool (1 # 2) density && Qle_bool density (inject_Z 1) then
      (base_window * (3 # 2))%Q
    else (base_window * inject_Z 2)%Q.

(** The claim read literally: the window of every group is the tier value. *)
Definition window_is_tier (cfg : Config) (g : group) : Prop :=
  (inject_Z (_get_adaptive_window cfg g) == spec_window cfg g)%Q.

(** The windows for which the products [time_window * 0.5], [* 1.5] and
    [* 2] are exact in double arithmetic. *)
Definition exact_window (cfg : Config) : Prop :=
  (Z.abs (time_window cfg) < 2 ^ 51)%Z.

(** The groups for which the density computed in double arithmetic falls on
    the same side of 2, 1 and 0.5 as the rational density: the span between
    the first and the last message is below 2^48 seconds. *)
Definition exact_density (g : group) : Prop :=
  forall first final, head g = Some first -> last g = Some final ->
    (Z.abs (timestamp final - timestamp first) < 2 ^ 48)%Z.

(** ** The conclusion as the specification words it *)

(** A message with content that is not a media placeholder. *)
Definition substantive_message (m : ChatMessage) : bool :=
  nonempty (content m) && negb (is_media_placeholder (strip (content m))).

(** [s] capped to [n] characters, with an ellipsis when it was longer. *)
Definition capped (n : nat) (s : str) : str :=
  if n <? length s then take n s ++ lit "..." else s.

(** The first five substantive messages of the group, each content cut to
    100 characters, joined, capped to 300 characters. *)
Definition spec_conclusion (messages : list ChatMessage) : option str :=
  if length messages <? 2 then None
  else
    match take 5 (List.filter substantive_message messages) with
    | [] => None
    | chosen =>
        Some (capped 300 (join (lit " | ") (List.map (fun m => take 100 (content m)) chosen)))
    end.

(** ** The greedy merge as the specification words it

    Indices are visited in order; a consumed index is skipped; an index that
    is not consumed takes every later index that is not consumed and whose
    similarity to it reaches the threshold, and all of them become
    consumed. *)

Fixpoint spec_greedy (similar : nat -> nat -> bool) (consumed : gset nat)
    (order : list nat) : list (list nat) :=
  match order with
  | [] => []
  | i :: later =>
      if decide (i ∈ consumed) then spec_greedy similar consumed later
      else
        let absorbed :=
          List.filter (fun j => bool_decide (j ∉ consumed) && similar i j) later in
        (i :: absorbed)
          :: spec_greedy similar (consumed ∪ list_to_set (i :: absorbed)) later
  end.

(** The messages of the groups at [indices], concatenated. *)
Definition gather_groups (groups : list group) (indices : list nat) : group :=
  concat (List.map (fun idx => default [] (groups !! idx)) indices).

Definition spec_merge (cfg : Config) (groups : list group) (similarities : list (list Q))
    : list group :=
  List.map (fun indices => sorted_by_timestamp (gather_groups groups indices))
    (spec_greedy (fun i j => Qle_bool (semantic_threshold cfg) (entry similarities i j))
                 ∅ (seq 0 (length groups))).

(** ** Failure of the vectorizer *)

(** Vectorization fails: fewer than two texts are not blank, or the text
    backend raises on them. *)
Definition vectorization_fails (E : Externals) (texts : list str) : Prop :=
  length (valid_entries texts) < 2
  \/ tfidf_cosine_similarity E (List.map snd (valid_entries texts)) = None.

(** ** Message ids *)

(** The message ids of a list of messages, and the invariant of the data
    model: ids are unique over the messages of one run. *)
Definition ids (messages : list ChatMessage) : list str := List.map msg_id messages.

Definition unique_ids (groups : list group) : Prop := NoDup (ids (concat groups)).

(** ** Consistency of a topic record *)




(** A string without surrogate code points: [encode] accepts it. *)
Definition encodable (s : str) : bool := forallb (fun c => negb (is_surrogate c)) s.

(** Messages whose sender ids and message ids can be encoded. *)
Definition encodable_ids (messages : list ChatMessage) : bool :=
  forallb (fun m => encodable (sender_id m) && encodable (msg_id m)) messages.


(** * Notions used in the proofs *)

(** [merged[j]], read as a flag. *)
Definition flag (merged : list bool) (j : nat) : bool := default false (merged !! j).

(** [merged] after [merged[j] = True] for every [j] of [indices]. *)
Definition mark (indices : list nat) (merged : list bool) : list bool :=
  foldl (fun m j => <[j := true]> m) merged indices.

(** The flag array of the code and the consumed set of the specification
    describe the same indices below [n]. *)
Definition flags_agree (n : nat) (merged : list bool) (consumed : gset nat) : Prop :=
  length merged = n /\ forall j, j < n -> (flag merged j = true <-> j ∈ consumed).

(** An [n] by [n] matrix. *)
Definition square (n : nat) (m : list (list Q)) : Prop :=
  length m = n /\ Forall (fun row => length row = n) m.

(** [parent] is a forest: every entry is an index of the array, and [rank]
    grows strictly from a node to its parent and stays below [bound]. *)
Definition uf_ok (rank : nat -> nat) (bound : nat) (parent : list nat) : Prop :=
  forall x px, parent !! x = Some px ->
    px < length parent /\ (px <> x -> rank x < rank px) /\ rank x <= bound.

(** All messages held by an association list of groups. *)
Definition all_messages {K} (entries : list (K * group)) : list ChatMessage :=
  concat (List.map snd entries).

(** * Concrete library behaviours, hash orders and messages, for evaluation *)

(** A library environment in which the XML parser is [parse], the vectorizer
    answers [similarities] and the digest is the byte string itself. *)
Definition fixed_externals (parse : str -> option element)
    (similarities : option (list (list Q))) : Externals := {|
  et_fromstring := parse;
  tfidf_cosine_similarity := fun _ => similarities;
  md5_hexdigest := fun s => s
|}.

(** A library environment where both the parser and the vectorizer raise. *)
Definition failing_externals : Externals := fixed_externals (fun _ => None) None.

(** The TF-IDF cosine similarities, to four decimals, of the texts
    "new build", "new build failed" and "build failed": the first is close
    to the second and the second to the third, the first and the third are
    not close. *)
Definition chain_similarities : list (list Q) :=
  [[1; 7520 # 10000; 2317 # 10000];
   [7520 # 10000; 1; 7520 # 10000];
   [2317 # 10000; 7520 # 10000; 1]]%Q.

(** The similarities of two texts without a common word. *)
Definition unrelated_similarities : list (list Q) := [[1; 0]; [0; 1]]%Q.

Definition unrelated_externals : Externals :=
  fixed_externals (fun _ => None) (Some unrelated_similarities).

Definition chain_externals : Externals :=
  fixed_externals (fun _ => None) (Some chain_similarities).

(** A quoting payload, and a parser that knows it. *)
Definition quote_payload : string :=
  "<msg><refermsg><svrid>100</svrid></refermsg></msg>".

Definition quote_tree : element :=
  Element (lit "root") None
    [Element (lit "msg") None
       [Element (lit "refermsg") None
          [Element (lit "svrid") (Some (lit "100")) []]]].

Definition quote_parser (s : str) : option element :=
  if bool_decide (s = lit "<root>" ++ lit quote_payload ++ lit "</root>")
  then Some quote_tree else None.

Definition quote_externals : Externals :=
  fixed_externals quote_parser (Some unrelated_similarities).

(** Two hash orders: first occurrences of the list, and of the reversed
    list. *)
Definition seed_forward : HashSeed := {|
  set_order := fun l => remove_dups l;
  set_order_NoDup := fun l => NoDup_remove_dups l;
  set_order_elem_of := fun l x => elem_of_remove_dups l x
|}.

Definition seed_backward : HashSeed := {|
  set_order := fun l => remove_dups (reverse l);
  set_order_NoDup := fun l => NoDup_remove_dups (reverse l);
  set_order_elem_of := fun l x =>
    iff_trans (elem_of_remove_dups (reverse l) x) (elem_of_reverse x l)
|}.

(** The default configuration with another threshold. *)
Definition with_threshold (threshold : Q) : Config := {|
  time_window := 300;
  min_messages := 2;
  semantic_threshold := threshold;
  enable_reply_chain := true;
  enable_semantic := true;
  enable_adaptive_window := true
|}.

(** A text message. *)
Definition text_message (id : string) (t : Z) (sender : string) (body : string)
    (xml : option string) : ChatMessage := {|
  msg_id := lit id;
  timestamp := t;
  sender_id := lit sender;
  sender_name := lit sender;
  msg_type := lit "1";
  content := lit body;
  xml_content := option_map lit xml;
  source_file := lit "chat.json";
  type_ := None
|}.

(** A message whose content is the image placeholder. *)
Definition image_message (id : string) (t : Z) (sender : string) : ChatMessage := {|
  msg_id := lit id;
  timestamp := t;
  sender_id := lit sender;
  sender_name := lit sender;
  msg_type := lit "3";
  content := ph_image;
  xml_content := None;
  source_file := lit "chat.json";
  type_ := None
|}.

(** Message A at t = 0; message D at t = 1000 quotes A; A2 and D2 follow
    each of them within seconds.  The texts of A, A2 and those of D, D2 have
    no word in common. *)
Definition message_A : ChatMessage :=
  text_message "svrid_100" 0 "alice" "shall we meet on friday" None.
Definition message_A2 : ChatMessage :=
  text_message "svrid_101" 10 "carol" "no idea" None.
Definition message_D : ChatMessage :=
  text_message "svrid_200" 1000 "bob" "sounds good" (Some quote_payload).
Definition message_D2 : ChatMessage :=
  text_message "svrid_201" 1010 "dave" "thanks" None.

(** A message that quotes [quoted] through the bare pattern, and a plain
    message. *)
Definition quoting (id : string) (t : Z) (quoted : string) : ChatMessage :=
  text_message id t "alice" "see above" (Some ("<svrid>" ++ quoted ++ "</svrid>")%string).

Definition plain (id : string) (t : Z) : ChatMessage :=
  text_message id t "bob" "noted" None.

(** Three groups in which the ids [svrid_2] and [svrid_4] occur twice. *)
Definition groups_with_repeated_ids : list group :=
  [[quoting "svrid_1" 0 "2"; quoting "svrid_3" 1 "4"; plain "svrid_4" 2];
   [plain "svrid_2" 1000; plain "svrid_4" 1001; plain "svrid_5" 1002];
   [plain "svrid_2" 2000]].

(** * Further notions for the properties of the stages *)

(** ** Groups cut by the window *)

(** Inside [g], each message follows its predecessor within the window of
    the messages placed before it. *)
Definition within_window (cfg : Config) (g : list ChatMessage) : Prop :=
  forall i a b, g !! i = Some a -> g !! S i = Some b ->
    (timestamp b - timestamp a <= _get_adaptive_window cfg (take (S i) g))%Z.

(** [g'] starts further from the end of [g] than the window of [g]. *)
Definition split_by_window (cfg : Config) (g g' : list ChatMessage) : Prop :=
  forall a b, last g = Some a -> head g' = Some b ->
    (_get_adaptive_window cfg g < timestamp b - timestamp a)%Z.

Definition window_partition (cfg : Config) (groups : list (list ChatMessage)) : Prop :=
  Forall (within_window cfg) groups
  /\ forall k g g', groups !! k = Some g -> groups !! S k = Some g' ->
       split_by_window cfg g g'.

(** ** Titles *)

(** A character of a single-line text: not white space, or the plain
    space. *)
Definition plain_char (c : char) : Prop := is_space c = false \/ c = 32%N.

(** [s.strip()] is empty or one of the four placeholders of
    [_generate_title]. *)
Definition untitled (m : ChatMessage) : Prop :=
  strip (content m) = []
  \/ strip (content m) ∈ [ph_image; ph_voice; ph_video; ph_emoji].

(** ** Link metadata *)

(** [field] was read by the pattern [<tag>([^<]+)</tag>] from [xml]. *)
Definition read_between (tag : string) (xml : str) (field : option str) : Prop :=
  forall t, field = Some t ->
    t <> [] /\ Forall (fun c => c <> 60%N) t
    /\ contains (lit ("<" ++ tag ++ ">") ++ t ++ lit ("</" ++ tag ++ ">")) xml = true.


(** ** Chronological groups *)




(** * The data cleaner ([wia.analysis.data_cleaner])

    [Pipeline.run] passes the loaded messages through [DataCleaner.run]
    before it hands them to [TopicBuilder.run]. *)

(** [s.endswith(suffix)] *)
Definition ends_with (suffix s : str) : bool :=
  is_prefix (rev suffix) (rev s).

Module DataCleaner.

(** The constructor arguments of [DataCleaner]. *)
Record Cleaner := {
  filter_system_messages : bool;
  filter_chatroom_messages : bool;
  filter_unsupported_messages : bool
}.

(** [DataCleaner()], as [Pipeline] constructs it. *)
Definition default_cleaner : Cleaner := {|
  filter_system_messages := true;
  filter_chatroom_messages := true;
  filter_unsupported_messages := true
|}.

Definition system_type : str := [31995; 32479; 28040; 24687]%N.   (* "系统消息" *)
Definition chatroom_suffix : str := lit "@chatroom".

Definition FILTER_XML_PATTERNS : list str := [
  [24403; 21069; 29256; 26412; 19981; 25903; 25345; 23637; 31034; 35813; 20869; 23481]%N;
                                                   (* "当前版本不支持展示该内容" *)
  [35831; 21319; 32423; 33267; 26368; 26032; 29256; 26412]%N;   (* "请升级至最新版本" *)
  [29256; 26412; 19981; 25903; 25345]%N                         (* "版本不支持" *)
].

Definition system_keywords : list str := [
  [36992; 35831; 20320; 21152; 20837; 20102; 32676; 32842]%N;   (* "邀请你加入了群聊" *)
  [25764; 22238; 20102; 19968; 26465; 28040; 24687]%N;          (* "撤回了一条消息" *)
  [20462; 25913; 32676; 21517; 20026]%N;                        (* "修改群名为" *)
  [36992; 35831]%N;                                             (* "邀请" *)
  [31227; 20986; 32676; 32842]%N                                (* "移出群聊" *)
].

(** The keys of the [filter_reasons] dict. *)
Inductive Reason :=
  | SystemMessage       (* "系统消息" *)
  | ChatroomMessage     (* "群聊消息" *)
  | UnsupportedContent  (* "不支持内容" *)
  | Kept.               (* "保留" *)

(** The [filter_reasons] dict: one counter per key. *)
Record Counts := {
  count_system : Z;
  count_chatroom : Z;
  count_unsupported : Z;
  count_kept : Z
}.

(** [filter_reasons[reason] += 1] *)
Definition bump (reason : Reason) (counts : Counts) : Counts :=
  match reason with
  | SystemMessage =>
      {| count_system := count_system counts + 1; count_chatroom := count_chatroom counts;
         count_unsupported := count_unsupported counts; count_kept := count_kept counts |}
  | ChatroomMessage =>
      {| count_system := count_system counts; count_chatroom := count_chatroom counts + 1;
         count_unsupported := count_unsupported counts; count_kept := count_kept counts |}
  | UnsupportedContent =>
      {| count_system := count_system counts; count_chatroom := count_chatroom counts;
         count_unsupported := count_unsupported counts + 1; count_kept := count_kept counts |}
  | Kept =>
      {| count_system := count_system counts; count_chatroom := count_chatroom counts;
         count_unsupported := count_unsupported counts; count_kept := count_kept counts + 1 |}
  end.

Section WithLower.

(** [str.lower], a library call. *)
Variable lower : str -> str.

Definition _is_system_message (msg : ChatMessage) : bool :=
  if bool_decide (type_ msg = Some system_type) then true
  else
    let content_lower := if nonempty (content msg) then lower (content msg) else [] in
    existsb (fun keyword => contains keyword content_lower) system_keywords.

Definition _is_chatroom_message (msg : ChatMessage) : bool :=
  let sender_id := if nonempty (sender_id msg) then sender_id msg else [] in
  if ends_with chatroom_suffix sender_id then true else false.

Definition _is_unsupported_content (msg : ChatMessage) : bool :=
  if nonempty (content msg)
     && existsb (fun pattern => contains pattern (content msg)) FILTER_XML_PATTERNS
  then true
  else
    match xml_content msg with
    | Some xml =>
        if nonempty xml && existsb (fun pattern => contains pattern xml) FILTER_XML_PATTERNS
        then true else false
    | None => false
    end.

Definition _should_filter (c : Cleaner) (msg : ChatMessage) : bool * Reason :=
  if filter_system_messages c && _is_system_message msg then (true, SystemMessage)
  else if filter_chatroom_messages c && _is_chatroom_message msg then (true, ChatroomMessage)
  else if filter_unsupported_messages c && _is_unsupported_content msg
       then (true, UnsupportedContent)
  else (false, Kept).

(** One turn of the loop of [run] over [cleaned] and [filter_reasons]. *)
Definition run_step (c : Cleaner) (st : list ChatMessage * Counts) (msg : ChatMessage)
    : list ChatMessage * Counts :=
  let '(cleaned, filter_reasons) := st in
  let '(should_filter, reason) := _should_filter c msg in
  if should_filter then (cleaned, bump reason filter_reasons)
  else (cleaned ++ [msg], bump Kept filter_reasons).

Definition run_loop (c : Cleaner) (messages_list : list ChatMessage)
    : list ChatMessage * Counts :=
  foldl (run_step c)
        ([], {| count_system := 0; count_chatroom := 0;
                count_unsupported := 0; count_kept := 0 |})
        messages_list.

(** [run]: the cleaning rate that the last log line formats is
    [(original_count - len(cleaned)) / original_count * 100], a division that
    raises [ZeroDivisionError] for an empty list; [None] stands for it. *)
Definition run (c : Cleaner) (messages : list ChatMessage) : option (list ChatMessage) :=
  let original_count := length messages in
  let '(cleaned, filter_reasons) := run_loop c messages in
  if original_count =? 0 then None else Some cleaned.

End WithLower.

End DataCleaner.

(** ** The cleaner in other words *)

(** The messages that the default cleaner removes: one keyword and one
    pattern of the lists are parts of longer ones. *)
Definition removed_by_default (lower : str -> str) (msg : ChatMessage) : bool :=
  bool_decide (type_ msg = Some DataCleaner.system_type)
  || existsb (fun keyword => contains keyword (lower (content msg)))
       [ [25764; 22238; 20102; 19968; 26465; 28040; 24687]%N;   (* "撤回了一条消息" *)
         [20462; 25913; 32676; 21517; 20026]%N;                 (* "修改群名为" *)
         [36992; 35831]%N;                                      (* "邀请" *)
         [31227; 20986; 32676; 32842]%N ]                       (* "移出群聊" *)
     && nonempty (content msg)
  || ends_with (lit "@chatroom") (sender_id msg)
  || existsb (fun text =>
        contains [35831; 21319; 32423; 33267; 26368; 26032; 29256; 26412]%N text
        || contains [29256; 26412; 19981; 25903; 25345]%N text)
       (content msg :: match xml_content msg with Some xml => [xml] | None => [] end).

(** A notice sent under the id of a chat room. *)
Definition chatroom_notice : ChatMessage :=
  text_message "svrid_300" 20 "12345@chatroom" "welcome" None.

(** * The user profiler ([wia.analysis.user_profiler])

    [Pipeline.run] hands the messages it gives to [TopicBuilder.run] to
    [UserProfiler.run] as well, with the scored link analyses. *)

(** [wia.core.models.LinkAnalysis] *)
Record LinkAnalysis := {
  analysis_url : str;
  analysis_title : str;
  summary : str;
  categories : list str;
  score : Z;
  reason : str;
  sender : option (list str);
  created_at : option Z;
  cover_style : option str
}.

(** [wia.core.models.UserProfile] *)
Record UserProfile := {
  user_id : str;
  user_name : str;
  msg_count : Z;
  high_value_links : Z;
  keyword_bias : list str
}.

Module UserProfiler.

(** [counts[key] += 1] on a [defaultdict(int)], which keeps its keys in the
    order of their insertion. *)
Fixpoint increment (key : str) (counts : list (str * Z)) : list (str * Z) :=
  match counts with
  | [] => [(key, 1%Z)]
  | (k, n) :: rest =>
      if decide (k = key) then (k, (n + 1)%Z) :: rest
      else (k, n) :: increment key rest
  end.

(** One turn of the loop over the messages. *)
Definition run_step (st : list (str * Z) * gmap str str) (msg : ChatMessage)
    : list (str * Z) * gmap str str :=
  let '(counts, name_map) := st in
  let counts := increment (sender_id msg) counts in
  match name_map !! sender_id msg with
  | None => (counts, <[sender_id msg := sender_name msg]> name_map)
  | Some _ => (counts, name_map)
  end.

Definition run (messages : list ChatMessage) (analyses : list LinkAnalysis)
    : list UserProfile :=
  let '(counts, name_map) := foldl run_step ([], ∅) messages in
  let high_value_links :=
    Z.of_nat (length (List.filter (fun item => (80 <=? score item)%Z) analyses)) in
  List.map (fun '(sender_id, msg_count) =>
              {| user_id := sender_id;
                 user_name := default sender_id (name_map !! sender_id);
                 msg_count := msg_count;
                 high_value_links := high_value_links;
                 keyword_bias := [] |})
           counts.

End UserProfiler.

(** ** The profiles in other words *)

(** The distinct elements of a list, in the order of their first
    occurrences. *)
Fixpoint first_occurrences (l : list str) : list str :=
  match l with
  | [] => []
  | x :: l' => x :: List.filter (fun y => negb (bool_decide (y = x))) (first_occurrences l')
  end.

(** The messages of one sender, in their order. *)
Definition messages_of (id : str) (messages : list ChatMessage) : list ChatMessage :=
  List.filter (fun msg => bool_decide (sender_id msg = id)) messages.

(** The count that the insertion-ordered [counts] holds for a key. *)
Fixpoint count_of (key : str) (counts : list (str * Z)) : Z :=
  match counts with
  | [] => 0%Z
  | (k, n) :: rest => if decide (k = key) then n else count_of key rest
  end.

(** The sum of a list of integers. *)
Definition total (l : list Z) : Z := foldr Z.add 0%Z l.

(** Two messages, ten seconds apart, the first with a lone high surrogate
    (U+D83D) in its message id. *)
Definition surrogate_id_messages : list ChatMessage :=
  [ {| msg_id := [55357]%N; timestamp := 0; sender_id := lit "alice";
       sender_name := lit "alice"; msg_type := lit "1"; content := lit "hello";
       xml_content := None; source_file := lit "chat.json"; type_ := None |};
    plain "svrid_2" 10 ].

(** * The adaptive window in double arithmetic

    [_get_adaptive_window] above computes with exact rationals.  Here the
    same function is embedded with the double arithmetic of the code, to
    state where the two agree. *)

Section DoubleArithmetic.

Local Open Scope Q_scope.

(** [2 ** k] *)
Definition pow2 (k : Z) : Q := (2 # 1) ^ k.

(** The exponent of a positive number: the [e] with [2^e <= q < 2^(e+1)]. *)
Definition exponent (q : Q) : Z :=
  let e := (Z.log2 (Qnum q) - Z.log2 (Z.pos (Qden q)))%Z in
  if Qlt_bool q (pow2 e) then (e - 1)%Z else e.

(** The nearest integer, the even one of two that are equally near. *)
Definition round_half_even (q : Q) : Z :=
  let f := Qfloor q in
  match (q - inject_Z f ?= 1 # 2)%Q with
  | Lt => f
  | Gt => (f + 1)%Z
  | Eq => if Z.even f then f else (f + 1)%Z
  end.

(** The nearest multiple of the unit in the last place of a positive number:
    53 bits of precision, exponents from -1022 (below, the subnormal
    numbers share the unit [2^-1074]). *)
Definition round_positive (q : Q) : Q :=
  let ulp := pow2 (Z.max (exponent q) (-1022) - 52) in
  inject_Z (round_half_even (q / ulp)) * ulp.

(** A double that is not a NaN. *)
Inductive float := finite (q : Q) | infinity (negative : bool).

(** The double nearest to a rational number, an infinity when the rounded
    number reaches [2^1024]; fractions are kept in lowest terms. *)
Definition round (q : Q) : float :=
  let q := Qred q in
  match (q ?= 0)%Q with
  | Eq => finite 0
  | Gt =>
      let r := round_positive q in
      if Qle_bool (pow2 1024) r then infinity false else finite (Qred r)
  | Lt =>
      let r := round_positive (- q) in
      if Qle_bool (pow2 1024) r then infinity true else finite (Qred (- r))
  end.

(** [a / b] for two integers: the double nearest to the quotient; [None] is
    the [OverflowError] of a quotient too large for a double. *)
Definition int_true_div (a b : Z) : option Q :=
  match round (inject_Z a / inject_Z b) with
  | finite q => Some q
  | infinity _ => None
  end.

(** The conversion of the integer in [z * 0.5]; [None] is the
    [OverflowError] of an integer too large for a double. *)
Definition float_of_int (z : Z) : option Q :=
  match round (inject_Z z) with
  | finite q => Some q
  | infinity _ => None
  end.

(** [x * y] for two finite doubles. *)
Definition float_mul (x y : Q) : float := round (x * y).

(** [x > c] for a double [x] and a number [c]. *)
Definition float_gt (x : float) (c : Q) : bool :=
  match x with
  | finite q => Qlt_bool c q
  | infinity negative => negb negative
  end.

(** [int(x)]; [None] is the [OverflowError] of an infinity. *)
Definition int_of_float (x : float) : option Z :=
  match x with
  | finite q => Some (py_int q)
  | infinity _ => None
  end.

(** [_get_adaptive_window] with the arithmetic of the code: the density is
    an integer when the span is zero, and otherwise the rounded product
    with 60 of the rounded quotient; [0.5] and [1.5] are doubles;
    [time_window * 2] is a product of integers. *)
Definition _get_adaptive_window_double (cfg : Config) (current_group : group) : option Z :=
  if negb (enable_adaptive_window cfg) || (length current_group <? 2)%nat then
    Some (time_window cfg)
  else
    match head current_group, last current_group with
    | Some first, Some final =>
        let time_span := (timestamp final - timestamp first)%Z in
        density ←
          (if (time_span =? 0)%Z then
             Some (finite (inject_Z (Z.of_nat (length current_group))))
           else
             quotient ← int_true_div (Z.of_nat (length current_group)) time_span;
             Some (float_mul quotient 60));
        if float_gt density 2 then
          window ← float_of_int (time_window cfg);
          int_of_float (float_mul window (1 # 2))
        else if float_gt density 1 then
          Some (time_window cfg)
        else if float_gt density (1 # 2) then
          window ← float_of_int (time_window cfg);
          int_of_float (float_mul window (3 # 2))
        else
          Some (time_window cfg * 2)%Z
    | _, _ => Some (time_window cfg)
    end.

End DoubleArithmetic.

(** The windows of the two counterexamples to exact products: [2^53 + 1]
    and [2^55 + 3]. *)
Definition with_time_window (w : Z) : Config := {|
  time_window := w;
  min_messages := 2;
  semantic_threshold := semantic_threshold default_config;
  enable_reply_chain := true;
  enable_semantic := true;
  enable_adaptive_window := true
|}.

(** * Properties *)

(** ** Sorting *)

Lemma insert_by_timestamp_perm m l : insert_by_timestamp m l ≡ₚ m :: l.
Proof.
  induction l as [|x l IH]; simpl; [done|].
  destruct (timestamp m <=? timestamp x)%Z; [done|].
  rewrite IH. apply Permutation_swap.
Qed.

Lemma sorted_by_timestamp_perm l : sorted_by_timestamp l ≡ₚ l.
Proof.
  induction l as [|m l IH]; simpl; [done|].
  by rewrite insert_by_timestamp_perm, IH.
Qed.

Lemma insert_by_timestamp_ascending m l :
  ascending l -> ascending (insert_by_timestamp m l).
Proof.
  unfold ascending. induction l as [|x l IH]; simpl; intros Hs.
  - repeat constructor.
  - destruct (Z.leb_spec (timestamp m) (timestamp x)).
    + constructor; [done|]. by constructor.
    + apply Sorted_inv in Hs as [Hs Hhd]. constructor; [by apply IH|].
      destruct l as [|y l]; simpl.
      * constructor. lia.
      * apply HdRel_inv in Hhd.
        destruct (timestamp m <=? timestamp y)%Z; constructor; lia.
Qed.

Lemma sorted_by_timestamp_ascending l : ascending (sorted_by_timestamp l).
Proof.
  induction l as [|m l IH]; simpl; [constructor|].
  by apply insert_by_timestamp_ascending.
Qed.

(** Sorting an ascending list leaves it as it is (also between messages of
    equal timestamp: the sort is stable). *)
Lemma sorted_by_timestamp_fixed l : ascending l -> sorted_by_timestamp l = l.
Proof.
  unfold ascending. induction l as [|m l IH]; simpl; intros Hs; [done|].
  apply Sorted_inv in Hs as [Hs Hhd]. rewrite IH by done.
  destruct l as [|x l]; simpl; [done|].
  apply HdRel_inv in Hhd.
  destruct (Z.leb_spec (timestamp m) (timestamp x)); [done|lia].
Qed.

Lemma sorted_by_timestamp_idem l :
  sorted_by_timestamp (sorted_by_timestamp l) = sorted_by_timestamp l.
Proof. apply sorted_by_timestamp_fixed, sorted_by_timestamp_ascending. Qed.

Lemma sorted_by_timestamp_nil_inv l : sorted_by_timestamp l = [] -> l = [].
Proof.
  intros Hl. apply Permutation_nil_r. rewrite <- Hl.
  symmetry. apply sorted_by_timestamp_perm.
Qed.

(** ** Rational comparisons *)

Lemma Qlt_bool_iff a b : Qlt_bool a b = true <-> (a < b)%Q.
Proof.
  unfold Qlt_bool. rewrite negb_true_iff, <- not_true_iff_false, Qle_bool_iff.
  split; [apply Qnot_le_lt | apply Qlt_not_le].
Qed.

Lemma Qlt_bool_proper a b b' : (b == b')%Q -> Qlt_bool a b = Qlt_bool a b'.
Proof.
  intros Hb. apply eq_true_iff_eq. rewrite !Qlt_bool_iff. by rewrite Hb.
Qed.

Lemma Qlt_bool_false_le a b : Qlt_bool a b = false -> Qle_bool b a = true.
Proof. unfold Qlt_bool. by rewrite negb_false_iff. Qed.

Lemma py_int_inject_Z z : py_int (inject_Z z) = z.
Proof. unfold py_int. simpl. apply Z.quot_1_r. Qed.

(** ** Stage 1: the adaptive window *)

Lemma spec_density_code (g : group) first final :
  head g = Some first -> last g = Some final ->
  (timestamp final - timestamp first)%Z <> 0%Z ->
  (spec_density g ==
   inject_Z (Z.of_nat (length g)) / inject_Z (timestamp final - timestamp first)
   * inject_Z 60)%Q.
Proof.
  intros Hh Hl Hspan. unfold spec_density. rewrite Hh, Hl.
  destruct (Z.eqb_spec (timestamp final - timestamp first) 0); [done|].
  field. unfold Qeq. simpl. lia.
Qed.

(** C3, as stated, fails on a current group of one message: its span is
    zero, so its density is its message count 1, and the tiers give
    1.5 * 300 = 450 where the code returns 300. *)
Lemma adaptive_window_single_message :
  let g := [text_message "m1" 0 "alice" "hello" None] in
  _get_adaptive_window default_config g = 300%Z
  /\ (spec_window default_config g == 450)%Q
  /\ ~ window_is_tier default_config g.
Proof.
  split; [reflexivity|]. split; [reflexivity|].
  unfold window_is_tier. vm_compute. discriminate.
Qed.

(** C3, amended: for a base window below 2^51 seconds and a current group
    that spans less than 2^48 seconds (the range in which the double
    arithmetic of the code gives the values of the rational arithmetic), with
    adaptive windowing on and a current group of at least two messages, the
    window is the tier value of the density (count per minute of span, the
    count itself when the span is zero) truncated to an integer; otherwise it
    is the base window. *)
Theorem adaptive_window_tiers (cfg : Config) (g : group) :
  exact_window cfg -> exact_density g ->
  _get_adaptive_window cfg g =
    if enable_adaptive_window cfg && (2 <=? length g)
    then py_int (spec_window cfg g)
    else time_window cfg.
Proof.
  intros _ _. unfold _get_adaptive_window, spec_window.
  destruct (enable_adaptive_window cfg); simpl; [|done].
  destruct g as [|m0 [|m1 g]]; [done | done |].
  replace (length (m0 :: m1 :: g) <? 2) with false by done.
  replace (2 <=? length (m0 :: m1 :: g)) with true by done.
  destruct (last (m0 :: m1 :: g)) as [final|] eqn:Hlast.
  2: { by rewrite last_cons_cons, last_None in Hlast; destruct g. }
  change (head (m0 :: m1 :: g)) with (Some m0). cbv iota beta zeta.
  set (n := inject_Z (Z.of_nat (length (m0 :: m1 :: g)))).
  set (span := (timestamp final - timestamp m0)%Z).
  set (d := if (span =? 0)%Z then n else (n / inject_Z span * inject_Z 60)%Q).
  assert (Hd : (spec_density (m0 :: m1 :: g) == d)%Q).
  { subst d. destruct (Z.eqb_spec span 0) as [Hz|Hz].
    - unfold spec_density. rewrite Hlast.
      change (head (m0 :: m1 :: g)) with (Some m0). cbv iota beta zeta.
      change (timestamp final - timestamp m0)%Z with span.
      by rewrite Hz.
    - by apply spec_density_code. }
  rewrite !(Qlt_bool_proper _ _ _ Hd).
  assert (Hle : forall a, Qle_bool (spec_density (m0 :: m1 :: g)) a = Qle_bool d a).
  { intros a. apply eq_true_iff_eq. rewrite !Qle_bool_iff. by rewrite Hd. }
  rewrite !Hle.
  cbn [length].
  destruct (Qlt_bool (inject_Z 2) d) eqn:H2; [done|].
  rewrite (Qlt_bool_false_le _ _ H2), andb_true_r.
  destruct (Qlt_bool (inject_Z 1) d) eqn:H1; [by rewrite py_int_inject_Z|].
  rewrite (Qlt_bool_false_le _ _ H1), andb_true_r.
  by destruct (Qlt_bool (1 # 2) d).
Qed.

(** The window after the first two messages of scenario C: two messages in
    ten seconds, twelve a minute, so half the base window. *)
Lemma adaptive_window_tiers_witness :
  _get_adaptive_window default_config [message_A; message_A2] =
    if enable_adaptive_window default_config && (2 <=? length [message_A; message_A2])
    then py_int (spec_window default_config [message_A; message_A2])
    else time_window default_config.
Proof.
  apply (adaptive_window_tiers default_config [message_A; message_A2]).
  - reflexivity.
  - intros first final [= <-] [= <-]. reflexivity.
Defined.

(** ** Stage 4: the quality filter *)

Lemma sublist_List_filter {A} (f : A -> bool) (l : list A) : sublist (List.filter f l) l.
Proof.
  induction l as [|x l IH]; cbn [List.filter]; [done|].
  destruct (f x); [by apply sublist_skip | by apply sublist_cons].
Qed.

Lemma quality_filter_split (cfg : Config) (groups : list group) :
  groups ≡ₚ quality_filter cfg groups
            ++ List.filter (fun g => negb (min_messages cfg <=? Z.of_nat (length g))%Z) groups.
Proof.
  unfold quality_filter. induction groups as [|g groups IH]; simpl; [done|].
  destruct (min_messages cfg <=? Z.of_nat (length g))%Z; simpl.
  - by rewrite <- IH.
  - by rewrite <- Permutation_middle, <- IH.
Qed.

(** C5: the quality filter keeps exactly the groups of at least
    [min_messages] messages.  The survivors are a subsequence of the input
    (nothing merged, nothing reordered), each has at least [min_messages]
    messages, and the input is the survivors together with dropped groups
    that all have fewer than [min_messages] messages. *)
Theorem quality_filter_correct (cfg : Config) (groups : list group) :
  sublist (quality_filter cfg groups) groups
  /\ Forall (fun g => (min_messages cfg <= Z.of_nat (length g))%Z) (quality_filter cfg groups)
  /\ (exists dropped,
        groups ≡ₚ quality_filter cfg groups ++ dropped
        /\ Forall (fun g => (Z.of_nat (length g) < min_messages cfg)%Z) dropped)
  /\ (forall g, g ∈ groups ->
        (g ∈ quality_filter cfg groups <-> (min_messages cfg <= Z.of_nat (length g))%Z)).
Proof.
  split; [|split; [|split]].
  - apply sublist_List_filter.
  - apply List.Forall_forall. intros g Hg.
    apply filter_In in Hg as [_ Hg]. lia.
  - eexists. split; [apply quality_filter_split|].
    apply List.Forall_forall. intros g Hg.
    apply filter_In in Hg as [_ Hg]. apply negb_true_iff in Hg. lia.
  - intros g Hg. unfold quality_filter.
    rewrite list_elem_of_In, filter_In, <- list_elem_of_In, Z.leb_le. tauto.
Qed.

(** ** The conclusion of a topic *)

Lemma length_lstrip s : length (lstrip s) <= length s.
Proof. induction s as [|c s IH]; simpl; [done|]. destruct (is_space c); simpl; lia. Qed.

Lemma length_strip s : length (strip s) <= length s.
Proof.
  unfold strip, rstrip. rewrite length_rev.
  etransitivity; [apply length_lstrip|]. rewrite length_rev. apply length_lstrip.
Qed.

Lemma length_capped n s : length (capped n s) <= n + 3.
Proof.
  unfold capped. destruct (Nat.ltb_spec n (length s)).
  - rewrite length_app, length_take. simpl. lia.
  - lia.
Qed.

(** C7, as stated, fails on a group of six messages that opens with an image
    placeholder: the first five substantive messages are messages 2 to 6,
    and the code joins messages 2 to 5 only. *)
Lemma conclusion_first_five_messages :
  let g := [image_message "m1" 0 "alice";
            text_message "m2" 1 "bob" "a" None;
            text_message "m3" 2 "alice" "b" None;
            text_message "m4" 3 "bob" "c" None;
            text_message "m5" 4 "alice" "d" None;
            text_message "m6" 5 "bob" "e" None] in
  _generate_conclusion g = Some (lit "a | b | c | d")
  /\ spec_conclusion g = Some (lit "a | b | c | d | e")
  /\ _generate_conclusion g <> spec_conclusion g.
Proof. split; [reflexivity|]. split; [reflexivity|]. discriminate. Qed.

(** C7, amended: for a group of more than one message the conclusion joins
    with [" | "] the contents of the substantive messages found among the
    first five messages of the group, each cut to 100 characters and then
    stripped of surrounding white space, and caps the result to 300
    characters plus an ellipsis; it is null when the group has fewer than two
    messages or none of its first five messages is substantive, in
    particular when no message of the group is. *)
Theorem generate_conclusion_correct (messages : list ChatMessage) :
  let chosen := List.filter substantive_message (take 5 messages) in
  let pieces := List.map (fun m => strip (take 100 (content m))) chosen in
  _generate_conclusion messages =
    (if (length messages <? 2) || bool_decide (chosen = []) then None
     else Some (capped 300 (join (lit " | ") pieces)))
  /\ sublist chosen messages
  /\ length pieces <= 5
  /\ Forall (fun p => length p <= 100) pieces
  /\ (Forall (fun m => substantive_message m = false) messages ->
      _generate_conclusion messages = None)
  /\ (forall c, _generate_conclusion messages = Some c -> length c <= 303).
Proof.
  intros chosen pieces.
  assert (Heq : _generate_conclusion messages =
    (if (length messages <? 2) || bool_decide (chosen = []) then None
     else Some (capped 300 (join (lit " | ") pieces)))).
  { unfold _generate_conclusion.
    change (List.filter _ (take 5 messages)) with chosen.
    replace (length messages <=? 1) with (length messages <? 2)
      by (apply eq_true_iff_eq; rewrite Nat.leb_le, Nat.ltb_lt; lia).
    destruct (length messages <? 2); [done|]. simpl.
    destruct chosen eqn:Hc; [done|]. by rewrite bool_decide_eq_false_2. }
  split; [done|]. split; [|split; [|split; [|split]]].
  - subst chosen. transitivity (take 5 messages); [|apply sublist_take].
    apply sublist_List_filter.
  - subst pieces chosen. rewrite length_map.
    etransitivity; [apply List.filter_length_le|]. rewrite length_take. lia.
  - subst pieces. apply List.Forall_forall. intros p Hp.
    apply in_map_iff in Hp as (m & <- & _).
    etransitivity; [apply length_strip|]. rewrite length_take. lia.
  - intros Hall. rewrite Heq.
    assert (chosen = []) as ->; [|by rewrite orb_true_r].
    subst chosen. apply (Forall_take _ 5) in Hall.
    clear Heq pieces.
    induction Hall as [|m l Hm _ IH]; cbn [List.filter]; [done|]. by rewrite Hm.
  - intros c. rewrite Heq.
    destruct (_ || _); [done|]. intros [= <-]. apply (length_capped 300).
Qed.

(** ** Stage 3: the merge loop refines the greedy merge *)

Lemma length_mark indices merged : length (mark indices merged) = length merged.
Proof.
  unfold mark. revert merged.
  induction indices as [|a l IH]; intros merged; simpl; [done|].
  by rewrite IH, length_insert.
Qed.

Lemma flag_insert_true merged a j :
  j < length merged ->
  flag (<[a := true]> merged) j = bool_decide (a = j) || flag merged j.
Proof.
  intros Hj. unfold flag. destruct (decide (a = j)) as [->|Hne].
  - by rewrite list_lookup_insert_eq, bool_decide_eq_true_2.
  - by rewrite list_lookup_insert_ne, bool_decide_eq_false_2.
Qed.

Lemma flag_mark indices merged j :
  j < length merged ->
  flag (mark indices merged) j = bool_decide (j ∈ indices) || flag merged j.
Proof.
  unfold mark. revert merged.
  induction indices as [|a l IH]; intros merged Hj; cbn [foldl].
  - by rewrite bool_decide_eq_false_2 by apply not_elem_of_nil.
  - rewrite IH by by rewrite length_insert.
    rewrite flag_insert_true by done.
    apply eq_true_iff_eq.
    rewrite !orb_true_iff, !bool_decide_eq_true, elem_of_cons.
    intuition congruence.
Qed.

Section MergeRefinement.

Context (cfg : Config) (groups : list group) (similarities : list (list Q)).

Let similar (i j : nat) : bool :=
  Qle_bool (semantic_threshold cfg) (entry similarities i j).

Lemma absorb_loop i js acc merged :
  NoDup js ->
  foldl (absorb cfg similarities i) (acc, merged) js =
    (acc ++ List.filter (fun j => negb (flag merged j) && similar i j) js,
     mark (List.filter (fun j => negb (flag merged j) && similar i j) js) merged).
Proof.
  revert acc merged. induction js as [|j js IH]; intros acc merged Hnd.
  - simpl. by rewrite app_nil_r.
  - apply NoDup_cons in Hnd as [Hj Hnd]. cbn [foldl List.filter].
    assert (Hext : forall m',
      (forall j', j' ≠ j -> flag m' j' = flag merged j') ->
      List.filter (fun j => negb (flag m' j) && similar i j) js
      = List.filter (fun j => negb (flag merged j) && similar i j) js).
    { intros m' Hm'. apply filter_ext_in. intros j' Hj'.
      rewrite Hm'; [done|]. intros ->. by apply Hj, list_elem_of_In. }
    unfold absorb at 2. fold (flag merged j). fold (similar i j).
    destruct (negb (flag merged j) && similar i j).
    + rewrite IH by done. rewrite Hext.
      * by rewrite <- app_assoc.
      * intros j' Hne. unfold flag. by rewrite list_lookup_insert_ne.
    + by rewrite IH.
Qed.

Lemma gather_loop indices acc merged :
  foldl (gather groups) (acc, merged) indices =
    (acc ++ gather_groups groups indices, mark indices merged).
Proof.
  revert acc merged. induction indices as [|a l IH]; intros acc merged.
  - simpl. by rewrite app_nil_r.
  - cbn [foldl]. unfold gather at 2. rewrite IH.
    unfold gather_groups. simpl. by rewrite <- app_assoc.
Qed.

Lemma merge_loop_greedy k : forall i merged consumed final,
  i + k = length groups ->
  flags_agree (length groups) merged consumed ->
  snd (foldl (merge_step cfg groups similarities) (merged, final) (seq i k)) =
    final ++ List.map (fun indices => sorted_by_timestamp (gather_groups groups indices))
                      (spec_greedy similar consumed (seq i k)).
Proof.
  induction k as [|k IH]; intros i merged consumed final Hik [Hlen Hag].
  - simpl. by rewrite app_nil_r.
  - cbn [seq foldl spec_greedy]. unfold merge_step at 2. fold (flag merged i).
    assert (Hi : i < length groups) by lia.
    destruct (decide (i ∈ consumed)) as [Hin|Hnin].
    + rewrite (proj2 (Hag i Hi) Hin). apply IH; [lia|done].
    + destruct (flag merged i) eqn:Hflag; [by apply Hag in Hflag|].
      replace (i + 1) with (S i) by lia.
      replace (length groups - S i) with k by lia.
      rewrite absorb_loop by apply NoDup_seq.
      set (picked := List.filter (fun j => negb (flag merged j) && similar i j) (seq (S i) k)).
      assert (Hpicked : picked =
        List.filter (fun j => bool_decide (j ∉ consumed) && similar i j) (seq (S i) k)).
      { apply filter_ext_in. intros j Hj. apply in_seq in Hj. f_equal.
        apply eq_true_iff_eq. rewrite negb_true_iff, bool_decide_eq_true.
        rewrite <- not_true_iff_false. by rewrite Hag by lia. }
      change ([i] ++ picked) with (i :: picked).
      rewrite gather_loop. cbn [app].
      rewrite (IH (S i) _ (consumed ∪ list_to_set (i :: picked))); [|lia|].
      * rewrite <- Hpicked. by rewrite <- app_assoc.
      * split; [by rewrite !length_mark|].
        intros j Hj. rewrite !flag_mark by (rewrite ?length_mark; lia).
        rewrite !orb_true_iff, !bool_decide_eq_true, Hag by done.
        rewrite elem_of_union, elem_of_list_to_set, !elem_of_cons. tauto.
Qed.

Lemma merge_similar_greedy :
  merge_similar cfg groups similarities = spec_merge cfg groups similarities.
Proof.
  unfold merge_similar, spec_merge.
  rewrite (merge_loop_greedy (length groups) 0 _ ∅ []); [done|lia|].
  split; [apply length_replicate|].
  intros j Hj. unfold flag. rewrite lookup_replicate_2 by done. simpl.
  split; [done|]. intros Hin. by apply not_elem_of_empty in Hin.
Qed.

End MergeRefinement.

(** C4: the semantic merger is the single-pass greedy merge of the
    specification, on every similarity matrix and behind the guard on fewer
    than two groups: a consumed index is skipped, an index that is not
    consumed absorbs every later index that is not consumed and whose
    similarity reaches the threshold, and the absorbed messages are
    concatenated and sorted by timestamp.  The merge is not transitive: on
    the chain of three groups, the first is similar to the second and the
    second to the third, and the third group stays apart from the first. *)
Theorem semantic_merge_greedy :
  (forall cfg groups similarities,
     merge_similar cfg groups similarities = spec_merge cfg groups similarities)
  /\ (forall E cfg groups,
        _merge_by_semantic_similarity E cfg groups =
          if length groups <=? 1 then groups
          else spec_merge cfg groups
                 (_compute_semantic_similarities E (List.map _get_group_text groups)))
  /\ (exists E cfg g0 g1 g2,
        let similarities :=
          _compute_semantic_similarities E (List.map _get_group_text [g0; g1; g2]) in
        let threshold := semantic_threshold cfg in
        (threshold <= entry similarities 0 1)%Q
        /\ (threshold <= entry similarities 1 2)%Q
        /\ (entry similarities 0 2 < threshold)%Q
        /\ _merge_by_semantic_similarity E cfg [g0; g1; g2] = [g0 ++ g1; g2]).
Proof.
  split; [|split].
  - apply merge_similar_greedy.
  - intros E cfg groups. unfold _merge_by_semantic_similarity.
    destruct (length groups <=? 1); [done|]. apply merge_similar_greedy.
  - exists chain_externals, default_config.
    exists [text_message "m1" 0 "alice" "new build" None].
    exists [text_message "m2" 5000 "bob" "new build failed" None].
    exists [text_message "m3" 10000 "carol" "build failed" None].
    vm_compute. repeat split; discriminate.
Qed.

(** ** Stage 3: the similarity matrix is square *)

Lemma zeros_square n : square n (zeros n).
Proof.
  unfold square, zeros. rewrite length_replicate. split; [done|].
  apply Forall_replicate, length_replicate.
Qed.

Lemma set_entry_square n m r c v : square n m -> square n (set_entry m r c v).
Proof.
  unfold square, set_entry. intros [Hlen Hrows].
  destruct (m !! r) as [row|] eqn:Hrow; [|done].
  rewrite length_insert. split; [done|].
  apply Forall_insert; [done|]. rewrite length_insert.
  by apply (Forall_lookup_1 _ _ _ _ Hrows Hrow).
Qed.

Lemma fill_similarities_square n similarities valid_indices full full' :
  square n full ->
  fill_similarities similarities valid_indices full = Some full' ->
  square n full'.
Proof.
  unfold fill_similarities. intros Hsq.
  set (good := fun acc : option (list (list Q)) => forall f, acc = Some f -> square n f).
  assert (Hinner : forall (i idx_i : nat) (l : list (nat * nat)) acc, good acc ->
    good (foldl (fun acc '(j, idx_j) =>
            full ← acc;
            v ← (row ← similarities !! i; row !! j);
            Some (set_entry full idx_i idx_j v)) acc l)).
  { intros i idx_i l. induction l as [|[j idx_j] l IH]; intros acc Hacc; cbn [foldl]; [done|].
    apply IH. intros f Hf. destruct acc as [full0|]; [|done]. cbn in Hf.
    destruct (row ← similarities !! i; row !! j) as [v|]; [|done]. cbn in Hf.
    injection Hf as <-. by apply set_entry_square, Hacc. }
  assert (Houter : forall (l : list (nat * nat)) acc, good acc ->
    good (foldl (fun acc '(i, idx_i) =>
            foldl (fun acc '(j, idx_j) =>
              full ← acc;
              v ← (row ← similarities !! i; row !! j);
              Some (set_entry full idx_i idx_j v)) acc (enumerate valid_indices)) acc l)).
  { induction l as [|[i idx_i] l IH]; intros acc Hacc; cbn [foldl]; [done|].
    by apply IH, Hinner. }
  intros Hfill. apply (Houter (enumerate valid_indices) (Some full)); [|done].
  by intros f [= <-].
Qed.

Lemma compute_semantic_similarities_square E texts :
  square (length texts) (_compute_semantic_similarities E texts).
Proof.
  unfold _compute_semantic_similarities.
  destruct (_ <? 2); [apply zeros_square|].
  destruct (tfidf_cosine_similarity E _) as [similarities|]; [|apply zeros_square].
  destruct (fill_similarities _ _ _) as [full|] eqn:Hfill; [|apply zeros_square].
  eapply fill_similarities_square; [apply zeros_square|done].
Qed.

(** Inside a square matrix [entry] reads an element of the matrix. *)
Lemma entry_square n m i j :
  square n m -> i < n -> j < n ->
  exists row, m !! i = Some row /\ row !! j = Some (entry m i j).
Proof.
  intros [Hlen Hrows] Hi Hj.
  destruct (lookup_lt_is_Some_2 m i) as [row Hrow]; [lia|].
  pose proof (Forall_lookup_1 _ _ _ _ Hrows Hrow) as Hlr. cbn beta in Hlr.
  destruct (lookup_lt_is_Some_2 row j) as [v Hv]; [lia|].
  exists row. split; [done|]. unfold entry. rewrite Hrow. cbn. by rewrite Hv.
Qed.

(** ** Stage 3: the zero matrix *)

Lemma entry_zeros n i j : entry (zeros n) i j = 0%Q.
Proof.
  unfold entry, zeros.
  destruct (replicate n (replicate n 0%Q) !! i) as [row|] eqn:Hrow; simpl; [|done].
  apply lookup_replicate in Hrow as [-> _].
  destruct (replicate n 0%Q !! j) as [v|] eqn:Hv; simpl; [|done].
  by apply lookup_replicate in Hv as [-> _].
Qed.

Lemma compute_semantic_similarities_fails E texts :
  vectorization_fails E texts ->
  _compute_semantic_similarities E texts = zeros (length texts).
Proof.
  intros [Hfew|Hraise]; unfold _compute_semantic_similarities.
  - rewrite length_map. by rewrite (proj2 (Nat.ltb_lt _ _) Hfew).
  - rewrite Hraise. by destruct (_ <? _).
Qed.

Lemma spec_greedy_dissimilar similar consumed order :
  (forall i j, similar i j = false) ->
  NoDup order ->
  spec_greedy similar consumed order =
    List.map (fun i => [i]) (List.filter (fun i => bool_decide (i ∉ consumed)) order).
Proof.
  intros Hsim. revert consumed.
  induction order as [|i later IH]; intros consumed Hnd; cbn [spec_greedy List.filter]; [done|].
  apply NoDup_cons in Hnd as [Hi Hnd].
  destruct (decide (i ∈ consumed)) as [Hin|Hnin].
  - rewrite bool_decide_eq_false_2 by auto. by apply IH.
  - rewrite bool_decide_eq_true_2 by done.
    assert (Hnone : List.filter (fun j => bool_decide (j ∉ consumed) && similar i j) later = []).
    { clear -Hsim. induction later as [|j l IHl]; cbn [List.filter]; [done|].
      by rewrite Hsim, andb_false_r. }
    rewrite Hnone. cbn [List.map]. f_equal. rewrite IH by done. f_equal.
    apply filter_ext_in. intros j Hj. apply bool_decide_ext.
    rewrite elem_of_union, elem_of_list_to_set, list_elem_of_singleton.
    split; [tauto|]. intros Hjc [Hjc'| ->]; [done|]. by apply Hi, list_elem_of_In.
Qed.

Lemma map_lookup_seq {B} (f : group -> B) (groups : list group) :
  List.map (fun i => f (default [] (groups !! i))) (seq 0 (length groups)) = List.map f groups.
Proof.
  induction groups as [|g groups IH]; [done|].
  cbn [length seq List.map]. f_equal.
  rewrite <- seq_shift, List.map_map. apply IH.
Qed.

Lemma spec_merge_dissimilar cfg groups similarities :
  (forall i j, Qle_bool (semantic_threshold cfg) (entry similarities i j) = false) ->
  spec_merge cfg groups similarities = List.map sorted_by_timestamp groups.
Proof.
  intros Hsim. unfold spec_merge.
  rewrite spec_greedy_dissimilar by (done || apply NoDup_seq).
  rewrite (filter_ext_in _ (fun _ => true)), filter_true.
  2: { intros i _. apply bool_decide_eq_true_2, not_elem_of_empty. }
  rewrite List.map_map. rewrite <- map_lookup_seq.
  apply map_ext. intros i. unfold gather_groups. simpl. by rewrite app_nil_r.
Qed.

Lemma map_sorted_fixed (groups : list group) :
  Forall ascending groups -> List.map sorted_by_timestamp groups = groups.
Proof.
  induction 1 as [|g groups Hg _ IH]; simpl; [done|].
  by rewrite IH, sorted_by_timestamp_fixed.
Qed.

(** Fewer than two non-empty texts is a failure of the vectorizer: a text
    that is not blank is not empty. *)
Lemma few_nonempty_texts_fail (E : Externals) (texts : list str) :
  length (List.filter nonempty texts) < 2 -> vectorization_fails E texts.
Proof.
  assert (Hle : forall i,
    length (List.filter (fun '(_, t) => nonempty (strip t)) (enumerate_from i texts))
    <= length (List.filter nonempty texts)).
  { induction texts as [|t texts IH]; intros i; cbn [enumerate_from List.filter]; [done|].
    specialize (IH (S i)).
    destruct (nonempty (strip t)) eqn:Hs.
    - assert (nonempty t = true) as -> by (by destruct t). cbn [length]. lia.
    - destruct (nonempty t); cbn [length]; lia. }
  intros Hfew. left. unfold valid_entries, enumerate. specialize (Hle 0). lia.
Qed.

(** C8, as stated, fails for a threshold of zero: every entry of the zero
    matrix reaches it, and the two groups below (image placeholders only,
    so both texts are empty) are merged into one. *)
Lemma zero_matrix_zero_threshold :
  let groups := [[image_message "m1" 0 "alice"]; [image_message "m2" 5000 "bob"]] in
  vectorization_fails failing_externals (List.map _get_group_text groups)
  /\ _compute_semantic_similarities failing_externals (List.map _get_group_text groups) = zeros 2
  /\ _merge_by_semantic_similarity failing_externals (with_threshold 0) groups
     = [[image_message "m1" 0 "alice"; image_message "m2" 5000 "bob"]]
  /\ _merge_by_semantic_similarity failing_externals (with_threshold 0) groups <> groups.
Proof.
  split; [left; vm_compute; lia|]. split; [reflexivity|]. split; [reflexivity|].
  vm_compute. discriminate.
Qed.

(** C8, amended: with a positive threshold, when vectorization fails the
    similarity matrix is all zero and no two groups are merged: the merger
    returns every group on its own, sorted by timestamp, which is the group
    list unchanged when the groups are ascending, as they are in [run]. *)
Theorem semantic_fallback_no_merge (E : Externals) (cfg : Config) (groups : list group) :
  (0 < semantic_threshold cfg)%Q ->
  vectorization_fails E (List.map _get_group_text groups) ->
  _compute_semantic_similarities E (List.map _get_group_text groups) = zeros (length groups)
  /\ _merge_by_semantic_similarity E cfg groups =
       (if length groups <=? 1 then groups else List.map sorted_by_timestamp groups)
  /\ (Forall ascending groups -> _merge_by_semantic_similarity E cfg groups = groups).
Proof.
  intros Hthr Hfail.
  pose proof (compute_semantic_similarities_fails _ _ Hfail) as Hz.
  rewrite length_map in Hz.
  assert (Hmerge : _merge_by_semantic_similarity E cfg groups =
            if length groups <=? 1 then groups else List.map sorted_by_timestamp groups).
  { unfold _merge_by_semantic_similarity. destruct (length groups <=? 1); [done|].
    cbv zeta. rewrite Hz, merge_similar_greedy. apply spec_merge_dissimilar.
    intros i j. rewrite entry_zeros. apply not_true_iff_false.
    rewrite Qle_bool_iff. by apply Qlt_not_le. }
  split; [done|]. split; [done|].
  intros Hasc. rewrite Hmerge. destruct (length groups <=? 1); [done|].
  by apply map_sorted_fixed.
Qed.

(** The fallback on two groups of image placeholders, default threshold. *)
Lemma semantic_fallback_no_merge_witness :
  let groups := [[image_message "m1" 0 "alice"]; [image_message "m2" 5000 "bob"]] in
  _merge_by_semantic_similarity failing_externals default_config groups = groups.
Proof.
  intros groups.
  apply (semantic_fallback_no_merge failing_externals default_config groups).
  - reflexivity.
  - left. vm_compute. lia.
  - repeat constructor.
Defined.

(** ** Stage 2: the union-find loops terminate *)

Lemma find_ok rank bound fuel : forall parent x,
  uf_ok rank bound parent -> x < length parent -> bound - rank x < fuel ->
  exists parent' root,
    find fuel parent x = Some (parent', root)
    /\ uf_ok rank bound parent'
    /\ length parent' = length parent
    /\ parent' !! root = Some root.
Proof.
  induction fuel as [|fuel IH]; intros parent x Hok Hx Hfuel; [lia|].
  destruct (lookup_lt_is_Some_2 parent x Hx) as [px Hpx].
  destruct (Hok x px Hpx) as (Hpxlt & Hrank & Hbound).
  cbn [find]. rewrite Hpx. cbn [mbind option_bind].
  destruct (Nat.eqb_spec px x) as [->|Hne].
  { by exists parent, x. }
  destruct (lookup_lt_is_Some_2 parent px Hpxlt) as [ppx Hppx].
  destruct (Hok px ppx Hppx) as (Hppxlt & Hrank' & Hbound').
  rewrite Hppx. cbn [mbind option_bind].
  rewrite list_lookup_insert_eq by done. cbn [mbind option_bind].
  assert (Hle : rank px <= rank ppx).
  { destruct (decide (ppx = px)) as [->|Hd]; [done|]. specialize (Hrank' Hd). lia. }
  specialize (Hrank Hne).
  destruct (IH (<[x := ppx]> parent) ppx) as (parent' & root & Hfind & Hok' & Hlen & Hroot).
  - intros y py Hy. rewrite length_insert.
    destruct (decide (x = y)) as [<-|Hxy].
    + rewrite list_lookup_insert_eq in Hy by done. injection Hy as <-.
      split; [done|]. split; [intros _|]; lia.
    + rewrite list_lookup_insert_ne in Hy by done. by apply Hok.
  - by rewrite length_insert.
  - lia.
  - exists parent', root. rewrite length_insert in Hlen. by rewrite Hfind.
Qed.

Lemma union_ok rank bound fuel parent x y :
  uf_ok rank bound parent -> x < length parent -> y < length parent -> bound < fuel ->
  exists parent' rank',
    union fuel parent x y = Some parent'
    /\ uf_ok rank' (S bound) parent'
    /\ length parent' = length parent.
Proof.
  intros Hok Hx Hy Hfuel. unfold union.
  destruct (find_ok rank bound fuel parent x) as (p1 & px & -> & Hok1 & Hlen1 & Hpx);
    [done|done|lia|].
  cbn [mbind option_bind].
  destruct (find_ok rank bound fuel p1 y) as (p2 & py & -> & Hok2 & Hlen2 & Hpy);
    [done|lia|lia|].
  cbn [mbind option_bind].
  destruct (Nat.eqb_spec px py) as [->|Hne].
  { exists p2, rank. split; [done|]. split; [|lia].
    intros z pz Hz. destruct (Hok2 z pz Hz) as (? & ? & ?). auto. }
  exists (<[px := py]> p2),
         (fun z => if decide (z = py) then Nat.max (rank py) (S (rank px)) else rank z).
  split; [done|]. split; [|rewrite length_insert; lia].
  assert (Hpxlt : px < length p2).
  { rewrite Hlen2. by apply lookup_lt_Some in Hpx. }
  destruct (lookup_lt_is_Some_2 p2 px Hpxlt) as [ppx Hppx].
  destruct (Hok2 px ppx Hppx) as (_ & _ & Hbpx).
  destruct (Hok2 py py Hpy) as (Hpylt & _ & Hbpy).
  intros z pz Hz. rewrite length_insert.
  destruct (decide (px = z)) as [<-|Hpz].
  - rewrite list_lookup_insert_eq in Hz by done. injection Hz as <-.
    split; [done|]. rewrite (decide_False (P := px = py)) by done.
    rewrite (decide_True (P := py = py)) by done.
    pose proof (Nat.le_max_r (rank py) (S (rank px))).
    split; [intros _|]; lia.
  - rewrite list_lookup_insert_ne in Hz by done.
    destruct (Hok2 z pz Hz) as (Hlt & Hr & Hb). split; [done|].
    destruct (decide (z = py)) as [->|Hzy].
    + assert (pz = py) as -> by congruence. split; [done|].
      apply Nat.max_lub; lia.
    + split; [|lia]. intros Hd. specialize (Hr Hd).
      case_decide; [subst pz|done]. lia.
Qed.

Lemma union_relations_ok (fuel : nat) (msg_to_group : gmap str nat)
    (relations : list (str * str)) :
  forall rank bound parent,
  uf_ok rank bound parent ->
  bound + length relations < fuel ->
  (forall id idx, msg_to_group !! id = Some idx -> idx < length parent) ->
  exists parent' rank' bound',
    union_relations fuel msg_to_group parent relations = Some parent'
    /\ uf_ok rank' bound' parent'
    /\ bound' < fuel
    /\ length parent' = length parent.
Proof.
  induction relations as [|[r q] relations IH]; intros rank bound parent Hok Hfuel Hidx.
  - exists parent, rank, bound. simpl in Hfuel. split; [done|]. split; [done|]. lia.
  - cbn [union_relations length] in *.
    destruct (msg_to_group !! r) as [gr|] eqn:Hr;
      [destruct (msg_to_group !! q) as [gq|] eqn:Hq|].
    + destruct (union_ok rank bound fuel parent gr gq) as (p1 & rank1 & -> & Hok1 & Hlen1);
        [done|by eapply Hidx|by eapply Hidx|lia|].
      cbn [mbind option_bind].
      destruct (IH rank1 (S bound) p1) as (p2 & rank2 & bound2 & -> & ? & ? & ?);
        [done|lia|by rewrite Hlen1|].
      exists p2, rank2, bound2.
      split; [done|]. split; [done|]. split; [done|congruence].
    + apply (IH rank bound parent); [done|lia|done].
    + apply (IH rank bound parent); [done|lia|done].
Qed.

Lemma seq_uf_ok n : uf_ok (fun _ => 0) 0 (seq 0 n).
Proof.
  intros x px Hx. apply lookup_seq in Hx as [-> Hlt].
  rewrite length_seq. split; [done|]. split; [done|lia].
Qed.

(** ** Stage 2: collecting the groups by root keeps every message *)

Lemma extend_root_messages root g root_to_messages :
  all_messages (extend_root root g root_to_messages) ≡ₚ all_messages root_to_messages ++ g.
Proof.
  unfold all_messages.
  induction root_to_messages as [|[r msgs] rest IH]; cbn [extend_root].
  - simpl. by rewrite app_nil_r.
  - destruct (r =? root); cbn [List.map snd concat].
    + rewrite <- !app_assoc. apply Permutation_app_head, Permutation_app_comm.
    + by rewrite IH, app_assoc.
Qed.

Lemma extend_root_nonempty root g root_to_messages :
  g <> [] ->
  Forall (fun e => snd e <> []) root_to_messages ->
  Forall (fun e => snd e <> []) (extend_root root g root_to_messages).
Proof.
  intros Hg. induction 1 as [|[r msgs] rest Hm Hrest IH]; cbn [extend_root].
  - by repeat constructor.
  - destruct (r =? root); constructor; try done.
    simpl in *. by destruct msgs.
Qed.

Lemma collect_roots_ok rank bound fuel igroups :
  forall parent root_to_messages,
  uf_ok rank bound parent -> bound < fuel ->
  Forall (fun e => fst e < length parent) igroups ->
  exists collected,
    collect_roots fuel parent igroups root_to_messages = Some collected
    /\ all_messages collected ≡ₚ all_messages root_to_messages ++ all_messages igroups
    /\ (Forall (fun e => snd e <> []) igroups ->
        Forall (fun e => snd e <> []) root_to_messages ->
        Forall (fun e => snd e <> []) collected).
Proof.
  induction igroups as [|[idx g] igroups IH]; intros parent rtm Hok Hfuel Hidx.
  - exists rtm. split; [done|]. split; [|done].
    unfold all_messages at 3. simpl. by rewrite app_nil_r.
  - apply Forall_cons in Hidx as [Hi Hidx]. simpl in Hi.
    cbn [collect_roots].
    destruct (find_ok rank bound fuel parent idx) as (p1 & root & -> & Hok1 & Hlen1 & _);
      [done|done|lia|].
    cbn [mbind option_bind].
    destruct (IH p1 (extend_root root g rtm)) as (collected & -> & Hperm & Hne);
      [done|done|by rewrite Hlen1|].
    exists collected. split; [done|]. split.
    + rewrite Hperm, extend_root_messages. unfold all_messages at 4.
      cbn [List.map snd concat]. by rewrite <- app_assoc.
    + intros Hig Hrtm. apply Forall_cons in Hig as [Hg Hig].
      apply Hne; [done|]. by apply extend_root_nonempty.
Qed.

(** ** Stage 2: the linker always returns, and keeps every message *)

Lemma all_messages_enumerate_from i (groups : list group) :
  all_messages (enumerate_from i groups) = concat groups.
Proof.
  unfold all_messages. revert i.
  induction groups as [|g groups IH]; intros i; simpl; [done|]. by rewrite IH.
Qed.

Lemma enumerate_from_bound i (groups : list group) :
  Forall (fun e => fst e < i + length groups) (enumerate_from i groups).
Proof.
  revert i. induction groups as [|g groups IH]; intros i; simpl; constructor.
  - simpl. lia.
  - eapply Forall_impl; [apply (IH (S i))|]. simpl. intros; lia.
Qed.

Lemma enumerate_from_nonempty i (groups : list group) :
  Forall (fun g => g <> []) groups ->
  Forall (fun e => snd e <> []) (enumerate_from i groups).
Proof.
  intros Hne. revert i. induction Hne as [|g groups Hg _ IH]; intros i; simpl;
    by constructor.
Qed.

Lemma record_group_lookup (idx : nat) (m : gmap str nat) (g : group) (id : str) :
  record_group idx m g !! id = if bool_decide (id ∈ ids g) then Some idx else m !! id.
Proof.
  unfold record_group, ids. revert m.
  induction g as [|a g IH]; intros m; cbn [foldl List.map].
  - by rewrite bool_decide_eq_false_2 by apply not_elem_of_nil.
  - rewrite IH. destruct (decide (id ∈ List.map msg_id g)) as [Hin|Hnin].
    + rewrite !bool_decide_eq_true_2; [done| |done]. by apply list_elem_of_further.
    + rewrite (bool_decide_eq_false_2 _ Hnin).
      destruct (decide (msg_id a = id)) as [Heq|Hne].
      * rewrite bool_decide_eq_true_2 by (rewrite Heq; apply list_elem_of_here).
        rewrite <- Heq. apply lookup_insert_eq.
      * rewrite bool_decide_eq_false_2.
        -- by apply lookup_insert_ne.
        -- rewrite elem_of_cons. intros [?|?]; congruence.
Qed.

Lemma msg_to_group_bound (groups : list group) :
  forall (i : nat) (m : gmap str nat) (bound : nat),
  (forall (id : str) (v : nat), m !! id = Some v -> v < bound) ->
  i + length groups <= bound ->
  forall (id : str) (v : nat),
    foldl (fun m '(idx, g) => record_group idx m g) m (enumerate_from i groups) !! id = Some v ->
    v < bound.
Proof.
  induction groups as [|g groups IH]; intros i m bound Hm Hb id v; cbn [foldl enumerate_from].
  - apply Hm.
  - simpl in Hb. apply (IH (S i)); [|lia].
    intros id' v'. rewrite record_group_lookup.
    case_bool_decide; [intros [= <-]; lia | apply Hm].
Qed.

Lemma build_msg_to_group_bound (groups : list group) (id : str) (idx : nat) :
  build_msg_to_group groups !! id = Some idx -> idx < length groups.
Proof.
  apply (msg_to_group_bound groups 0 ∅ (length groups)); [|done].
  intros id' v. by rewrite lookup_empty.
Qed.

Lemma map_sorted_ascending (groups : list group) :
  Forall ascending (List.map sorted_by_timestamp groups).
Proof.
  apply List.Forall_forall. intros g Hg. apply in_map_iff in Hg as (g' & <- & _).
  apply sorted_by_timestamp_ascending.
Qed.

Lemma concat_map_sorted (groups : list group) :
  concat (List.map sorted_by_timestamp groups) ≡ₚ concat groups.
Proof.
  induction groups as [|g groups IH]; simpl; [done|].
  by rewrite IH, sorted_by_timestamp_perm.
Qed.

(** The reply linker returns on every group list; its output holds the
    messages of its input, has no empty group when the input has none, and
    is made of ascending groups when the input is. *)
Lemma merge_by_reply_relation_total (E : Externals) (groups : list group) :
  exists merged,
    _merge_by_reply_relation E groups = Some merged
    /\ concat merged ≡ₚ concat groups
    /\ (Forall (fun g => g <> []) groups -> Forall (fun g => g <> []) merged)
    /\ (Forall ascending groups -> Forall ascending merged).
Proof.
  unfold _merge_by_reply_relation.
  destruct (_extract_reply_relations E groups) as [|rel relations] eqn:Hrel.
  { by exists groups. }
  set (rels := rel :: relations).
  destruct (union_relations_ok (S (length rels)) (build_msg_to_group groups) rels
              (fun _ => 0) 0 (seq 0 (length groups)))
    as (parent & rank & bound & -> & Hok & Hbound & Hlen).
  - apply seq_uf_ok.
  - lia.
  - intros id idx Hid. rewrite length_seq. by eapply build_msg_to_group_bound.
  - cbn [mbind option_bind].
    destruct (collect_roots_ok rank bound (S (length rels)) (enumerate groups) parent [])
      as (collected & -> & Hperm & Hne).
    + done.
    + done.
    + rewrite Hlen, length_seq. apply (enumerate_from_bound 0).
    + cbn [mbind option_bind]. eexists. split; [done|].
      unfold enumerate in *. rewrite all_messages_enumerate_from in Hperm.
      split; [|split].
      * rewrite <- Hperm. unfold all_messages. clear.
        induction collected as [|[r msgs] rest IH]; simpl; [done|].
        by rewrite IH, sorted_by_timestamp_perm.
      * intros Hg. specialize (Hne (enumerate_from_nonempty 0 _ Hg) (Forall_nil_2 _)).
        clear -Hne. induction Hne as [|[r msgs] rest Hm _ IH]; simpl; constructor; [|done].
        simpl in Hm. intros Hs. by apply sorted_by_timestamp_nil_inv in Hs.
      * intros _. clear. induction collected as [|[r msgs] rest IH]; simpl; constructor;
          [apply sorted_by_timestamp_ascending|done].
Qed.

(** ** Stage 1: the grouper cuts the message list into segments *)






(** ** Stage 3: the merge keeps every message *)










(** ** The groups that reach the quality filter *)



(** ** Stage 2 when message ids are unique

    A relation is recorded only when the quoted id belongs to the group of
    the quoting message, so both ends of every relation map to one group
    index, every [union] is of an index with itself, and [parent] stays the
    identity. *)

Lemma msg_map_of_lookup (g : group) (m : gmap str ChatMessage) (q : str) :
  is_Some (foldl (fun m msg => <[msg_id msg := msg]> m) m g !! q) ->
  q ∈ ids g \/ is_Some (m !! q).
Proof.
  revert m. induction g as [|a g IH]; intros m; cbn [foldl]; [by right|].
  intros Hq. destruct (IH _ Hq) as [Hin|Hs].
  - left. by apply list_elem_of_further.
  - destruct (decide (msg_id a = q)) as [<-|Hne].
    + left. apply list_elem_of_here.
    + right. by rewrite lookup_insert_ne in Hs.
Qed.

Lemma group_relations_same_group E (g : group) (r q : str) :
  (r, q) ∈ group_relations E g -> r ∈ ids g /\ q ∈ ids g.
Proof.
  unfold group_relations. rewrite list_elem_of_In, in_flat_map.
  intros (msg & Hmsg & Hrel).
  destruct (_extract_quoted_msg_id E msg) as [quoted|]; [|done].
  destruct (nonempty quoted && _) eqn:Hc; [|done].
  destruct Hrel as [[= <- <-]|[]].
  apply andb_true_iff in Hc as [_ Hc]. apply bool_decide_eq_true in Hc.
  split.
  - apply list_elem_of_In, in_map, Hmsg.
  - destruct (msg_map_of_lookup g ∅ quoted Hc) as [?|Habs]; [done|].
    rewrite lookup_empty in Habs. by destruct Habs.
Qed.

Lemma msg_to_group_other (groups : list group) :
  forall (i : nat) (m : gmap str nat) (id : str),
  id ∉ ids (concat groups) ->
  foldl (fun m '(idx, g) => record_group idx m g) m (enumerate_from i groups) !! id = m !! id.
Proof.
  induction groups as [|g groups IH]; intros i m id Hid; cbn [foldl enumerate_from]; [done|].
  unfold ids in Hid. simpl in Hid. rewrite List.map_app, elem_of_app in Hid.
  rewrite IH by tauto. rewrite record_group_lookup.
  rewrite bool_decide_eq_false_2; [done|]. unfold ids. tauto.
Qed.

Lemma msg_to_group_unique (groups : list group) :
  forall (i : nat) (m : gmap str nat) (k : nat) (g : group) (id : str),
  unique_ids groups ->
  groups !! k = Some g ->
  id ∈ ids g ->
  foldl (fun m '(idx, g) => record_group idx m g) m (enumerate_from i groups) !! id
  = Some (i + k).
Proof.
  unfold unique_ids.
  induction groups as [|g0 groups IH]; intros i m k g id Hnd Hk Hid; [done|].
  cbn [foldl enumerate_from]. unfold ids in Hnd. simpl in Hnd.
  rewrite List.map_app in Hnd. apply NoDup_app in Hnd as (_ & Hdisj & Hnd).
  destruct k as [|k].
  - injection Hk as ->. rewrite msg_to_group_other by (by apply Hdisj).
    rewrite record_group_lookup, bool_decide_eq_true_2 by done. f_equal. lia.
  - rewrite (IH (S i) _ k g id); [f_equal; lia|done|done|done].
Qed.

Lemma find_identity fuel n k :
  k < n -> find (S fuel) (seq 0 n) k = Some (seq 0 n, k).
Proof.
  intros Hk. cbn [find]. rewrite lookup_seq_lt by done. cbn [mbind option_bind].
  by rewrite Nat.eqb_refl.
Qed.

Lemma union_relations_identity (fuel : nat) (m : gmap str nat) (n : nat)
    (relations : list (str * str)) :
  (forall r q, (r, q) ∈ relations -> exists k, k < n /\ m !! r = Some k /\ m !! q = Some k) ->
  union_relations (S fuel) m (seq 0 n) relations = Some (seq 0 n).
Proof.
  induction relations as [|[r q] relations IH]; intros Hrel; [done|].
  cbn [union_relations].
  destruct (Hrel r q) as (k & Hk & -> & ->); [apply list_elem_of_here|].
  unfold union. rewrite find_identity by done. cbn [mbind option_bind].
  rewrite find_identity by done. cbn [mbind option_bind].
  rewrite Nat.eqb_refl. apply IH.
  intros r' q' Hin. apply Hrel. by apply list_elem_of_further.
Qed.

Lemma extend_root_fresh root g (root_to_messages : list (nat * group)) :
  Forall (fun e => fst e <> root) root_to_messages ->
  extend_root root g root_to_messages = root_to_messages ++ [(root, g)].
Proof.
  induction 1 as [|[r msgs] rest Hr _ IH]; cbn [extend_root]; [done|].
  simpl in Hr. rewrite (proj2 (Nat.eqb_neq r root)) by done. by rewrite IH.
Qed.

Lemma collect_roots_identity fuel n (groups : list group) :
  forall (i : nat) (root_to_messages : list (nat * group)),
  i + length groups <= n ->
  Forall (fun e => fst e < i) root_to_messages ->
  collect_roots (S fuel) (seq 0 n) (enumerate_from i groups) root_to_messages
  = Some (root_to_messages ++ enumerate_from i groups).
Proof.
  induction groups as [|g groups IH]; intros i rtm Hn Hkeys; cbn [collect_roots enumerate_from].
  - by rewrite app_nil_r.
  - simpl in Hn. rewrite find_identity by lia. cbn [mbind option_bind].
    rewrite extend_root_fresh.
    + rewrite IH; [by rewrite <- app_assoc|lia|].
      apply Forall_app. split.
      * eapply Forall_impl; [done|]. simpl. intros; lia.
      * repeat constructor.
    + eapply Forall_impl; [done|]. simpl. intros; lia.
Qed.

Lemma map_sorted_enumerate (groups : list group) (i : nat) :
  List.map (fun '(_, messages) => sorted_by_timestamp messages) (enumerate_from i groups)
  = List.map sorted_by_timestamp groups.
Proof.
  revert i. induction groups as [|g groups IH]; intros i; simpl; [done|]. by rewrite IH.
Qed.

(** With unique ids the linker merges nothing: it returns the groups it was
    given, each sorted by timestamp when some relation was recorded. *)
Lemma merge_by_reply_relation_unique (E : Externals) (groups : list group) :
  unique_ids groups ->
  _merge_by_reply_relation E groups =
    Some (match _extract_reply_relations E groups with
          | [] => groups
          | _ => List.map sorted_by_timestamp groups
          end).
Proof.
  intros Huniq. unfold _merge_by_reply_relation.
  destruct (_extract_reply_relations E groups) as [|rel relations] eqn:Hrel; [done|].
  rewrite <- Hrel. clear rel relations Hrel.
  rewrite union_relations_identity.
  - cbn [mbind option_bind]. unfold enumerate.
    rewrite collect_roots_identity by (done || lia). cbn [mbind option_bind app].
    by rewrite map_sorted_enumerate.
  - intros r q Hin. unfold _extract_reply_relations in Hin.
    apply list_elem_of_In, in_flat_map in Hin as (g & Hg & Hin).
    apply list_elem_of_In, list_elem_of_lookup in Hg as (k & Hk).
    apply list_elem_of_In, group_relations_same_group in Hin as [Hr Hq].
    exists k. split; [by apply lookup_lt_Some in Hk|].
    unfold build_msg_to_group, enumerate.
    by rewrite !(msg_to_group_unique groups 0 ∅ k g).
Qed.

(** C1 at scenario C: D quotes A, the reference is extracted, and the two
    groups stay apart.  The relation is dropped because the quoted id is
    looked up among the messages of D's own group only; with two messages
    per group the run ends with two topics. *)
Theorem reply_chain_scenario_C :
  _extract_quoted_msg_id quote_externals message_D = Some (msg_id message_A)
  /\ _group_by_time_window default_config [message_A; message_D]
     = [[message_A]; [message_D]]
  /\ _extract_reply_relations quote_externals [[message_A]; [message_D]] = []
  /\ _merge_by_reply_relation quote_externals [[message_A]; [message_D]]
     = Some [[message_A]; [message_D]]
  /\ cluster quote_externals default_config [message_A; message_A2; message_D; message_D2]
     = Some [[message_A; message_A2]; [message_D; message_D2]]
  /\ option_map (List.map message_ids)
       (run seed_forward quote_externals default_config
            [message_A; message_A2; message_D; message_D2])
     = Some [[msg_id message_A; msg_id message_A2]; [msg_id message_D; msg_id message_D2]].
Proof. repeat split; vm_compute; reflexivity. Qed.

(** C9, amended: on a group list in which no message id occurs twice (the
    invariant of the data model) the reply linker is idempotent: it returns,
    and applied to its own output it returns that output again. *)
Theorem reply_linking_idempotent (E : Externals) (groups : list group) :
  unique_ids groups ->
  exists linked,
    _merge_by_reply_relation E groups = Some linked
    /\ _merge_by_reply_relation E linked = Some linked.
Proof.
  intros Huniq. rewrite merge_by_reply_relation_unique by done.
  destruct (_extract_reply_relations E groups) as [|rel relations] eqn:Hrel.
  - exists groups. split; [done|].
    by rewrite merge_by_reply_relation_unique, Hrel.
  - exists (List.map sorted_by_timestamp groups). split; [done|].
    rewrite merge_by_reply_relation_unique.
    + rewrite (map_sorted_fixed _ (map_sorted_ascending groups)).
      by destruct (_extract_reply_relations E (List.map sorted_by_timestamp groups)).
    + unfold unique_ids in *. unfold ids. by rewrite concat_map_sorted.
Qed.

(** Idempotence on a group list where D quotes A inside one group. *)
Lemma reply_linking_idempotent_witness :
  unique_ids [[message_D; message_A]; [message_D2]]
  /\ exists linked,
       _merge_by_reply_relation quote_externals [[message_D; message_A]; [message_D2]]
       = Some linked
       /\ _merge_by_reply_relation quote_externals linked = Some linked.
Proof.
  assert (Hu : unique_ids [[message_D; message_A]; [message_D2]]).
  { unfold unique_ids, ids. apply (bool_decide_unpack _). vm_compute. exact I. }
  split; [exact Hu|].
  exact (reply_linking_idempotent quote_externals _ Hu).
Defined.

(** ** Topic assembly *)



(** *** Encoding *)







Lemma encodable_ids_Forall (messages : list ChatMessage) :
  encodable_ids messages = true
  <-> Forall (fun m => encodable (sender_id m) && encodable (msg_id m) = true) messages.
Proof. unfold encodable_ids. by rewrite forallb_forall, List.Forall_forall. Qed.


Lemma encodable_ids_sublist (l k : list ChatMessage) :
  sublist l k -> encodable_ids k = true -> encodable_ids l = true.
Proof.
  rewrite !encodable_ids_Forall. intros Hsub Hk.
  induction Hsub as [|x l k _ IH|x l k _ IH]; [done| |].
  - apply Forall_cons in Hk as [? ?]. constructor; auto.
  - apply Forall_cons in Hk as [_ ?]. auto.
Qed.


(** *** One topic *)






(** *** All topics *)













(** The order of the participants is what may differ between two runs. *)
Example participants_depend_on_seed :
  option_map (List.map participants)
    (run seed_forward failing_externals default_config [message_A; message_A2])
  = Some [[lit "alice"; lit "carol"]]
  /\ option_map (List.map participants)
       (run seed_backward failing_externals default_config [message_A; message_A2])
     = Some [[lit "carol"; lit "alice"]].
Proof. split; vm_compute; reflexivity. Qed.

(** C9, as stated for every group list, fails when an id occurs in two
    groups: [msg_to_group] keeps the later group, a relation found inside
    one group can join it to another, and the merged group exposes relations
    that a second pass then follows.  On three such groups the first pass
    returns two groups and the second pass merges them into one. *)
Example reply_linking_repeated_ids :
  exists linked relinked,
    _merge_by_reply_relation failing_externals groups_with_repeated_ids = Some linked
    /\ _merge_by_reply_relation failing_externals linked = Some relinked
    /\ List.map (List.map timestamp) linked = [[0; 1; 2; 1000; 1001; 1002]; [2000]]%Z
    /\ List.map (List.map timestamp) relinked = [[0; 1; 2; 1000; 1001; 1002; 2000]]%Z
    /\ length relinked < length linked
    /\ List.map ids relinked <> List.map ids linked.
Proof.
  eexists _, _. split; [vm_compute; reflexivity|]. split; [vm_compute; reflexivity|].
  split; [reflexivity|]. split; [reflexivity|]. split; [cbn; lia|]. discriminate.
Qed.

(** ** The scenarios of the specification *)

(** Scenario A: three messages at t = 0, 5, 9 form one group. *)
Example scenario_A :
  _group_by_time_window default_config [plain "a" 0; plain "b" 5; plain "c" 9]
  = [[plain "a" 0; plain "b" 5; plain "c" 9]].
Proof. reflexivity. Qed.

(** Scenario B: two messages 1200 seconds apart stay in two groups, and
    yield no topic since each group has one message. *)
Example scenario_B :
  let a := text_message "a" 0 "alice" "lunch today" None in
  let b := text_message "b" 1200 "bob" "compiler error" None in
  cluster unrelated_externals default_config [a; b] = Some [[a]; [b]]
  /\ run seed_forward unrelated_externals default_config [a; b] = Some [].
Proof. split; vm_compute; reflexivity. Qed.

(** Scenario E: a single message yields no topic. *)
Example scenario_E :
  run seed_forward failing_externals default_config [plain "a" 0] = Some [].
Proof. vm_compute. reflexivity. Qed.

(** * Further properties of the stages *)

(** ** Stage 1: every cut and every join follows the window *)

Lemma within_window_snoc cfg (g : list ChatMessage) (prev curr : ChatMessage) :
  last g = Some prev ->
  within_window cfg g ->
  (timestamp curr - timestamp prev <= _get_adaptive_window cfg g)%Z ->
  within_window cfg (g ++ [curr]).
Proof.
  intros Hlast Hin Hgap i a b Ha Hb.
  assert (Hlen : S i < length (g ++ [curr])) by (by apply lookup_lt_Some in Hb).
  rewrite length_app in Hlen. cbn in Hlen.
  destruct (decide (S i < length g)) as [Hlt|Hge].
  - rewrite lookup_app_l in Ha, Hb by lia. rewrite take_app_le by lia. by apply Hin.
  - assert (S i = length g) as Hi by lia.
    rewrite Hi, take_app_length.
    rewrite lookup_app_l in Ha by lia.
    rewrite last_lookup, <- Hi in Hlast. cbn in Hlast.
    assert (a = prev) as -> by congruence.
    rewrite lookup_app_r, Hi, Nat.sub_diag in Hb by lia. cbn in Hb.
    by injection Hb as <-.
Qed.

Lemma group_loop_window cfg rest : forall prev groups current_group,
  last current_group = Some prev ->
  window_partition cfg (groups ++ [current_group]) ->
  window_partition cfg (group_loop cfg prev rest groups current_group).
Proof.
  unfold group.
  induction rest as [|curr rest IH]; intros prev groups cur Hlast [Hin Hcut];
    cbn [group_loop].
  - by destruct cur.
  - cbv zeta. unfold group in *. apply Forall_app in Hin as [Hgroups Hcur].
    apply Forall_inv in Hcur.
    destruct (Z.leb_spec (timestamp curr - timestamp prev) (_get_adaptive_window cfg cur))
      as [Hle|Hgt].
    + apply IH; [apply last_snoc|]. split.
      * apply Forall_app. split; [done|]. apply Forall_singleton.
        by apply (within_window_snoc cfg cur prev curr).
      * intros k g g' Hg Hg'.
        assert (Hk : S k < length (groups ++ [cur ++ [curr]]))
          by (by apply lookup_lt_Some in Hg').
        rewrite length_app in Hk. cbn in Hk.
        destruct (decide (S k < length groups)) as [Hlt|Hge].
        -- rewrite lookup_app_l in Hg, Hg' by lia.
           apply (Hcut k); by apply lookup_app_l_Some.
        -- rewrite lookup_app_l in Hg by lia.
           rewrite lookup_app_r in Hg' by lia.
           replace (S k - length groups) with 0 in Hg' by lia. injection Hg' as <-.
           intros a b Ha Hb. apply (Hcut k g cur); [by apply lookup_app_l_Some| |done|].
           ++ rewrite lookup_app_r by lia. by replace (S k - length groups) with 0 by lia.
           ++ destruct cur; [done|]. exact Hb.
    + apply IH; [done|]. split.
      * repeat (apply Forall_app; split); try done; apply Forall_singleton; [done|].
        intros i a b Ha Hb. by destruct i.
      * intros k g g' Hg Hg'.
        assert (Hk : S k < length ((groups ++ [cur]) ++ [[curr]]))
          by (by apply lookup_lt_Some in Hg').
        rewrite !length_app in Hk. cbn in Hk.
        destruct (decide (S k < length (groups ++ [cur]))) as [Hlt|Hge].
        -- rewrite lookup_app_l in Hg' by done.
           rewrite lookup_app_l in Hg by (unfold group in *; lia). by apply (Hcut k).
        -- rewrite length_app in Hge. cbn in Hge.
           rewrite lookup_app_r in Hg' by (rewrite length_app; cbn; lia).
           rewrite length_app in Hg'. cbn in Hg'.
           replace (S k - (length groups + 1)) with 0 in Hg' by lia. injection Hg' as <-.
           rewrite lookup_app_l in Hg by (rewrite length_app; cbn; lia).
           rewrite lookup_app_r in Hg by lia.
           replace (k - length groups) with 0 in Hg by lia. injection Hg as <-.
           intros a b Ha Hb. injection Hb as <-.
           assert (a = prev) as -> by congruence. lia.
Qed.

Lemma group_by_time_window_window_partition (cfg : Config) (messages : list ChatMessage) :
  window_partition cfg (_group_by_time_window cfg messages).
Proof.
  destruct messages as [|m0 rest]; cbn [_group_by_time_window].
  - split; [constructor|]. intros k g g' Hg. by rewrite lookup_nil in Hg.
  - apply group_loop_window; [done|]. split.
    + apply Forall_singleton. intros i a b Ha Hb. by destruct i.
    + intros k g g' Hg Hg'. by destruct k.
Qed.

(** X1: in the groups of the time-window grouper, every message follows its
    predecessor within the window computed from the messages placed before
    it in the group, and every group starts further from the end of the
    previous group than the window of that whole group. *)
Theorem group_by_time_window_windows (cfg : Config) (messages : list ChatMessage) :
  window_partition cfg (_group_by_time_window cfg messages).
Proof. apply group_by_time_window_window_partition. Qed.

Lemma get_adaptive_window_bounds (cfg : Config) (g : group) :
  (0 <= time_window cfg)%Z ->
  (time_window cfg ÷ 2 <= _get_adaptive_window cfg g <= 2 * time_window cfg)%Z.
Proof.
  intros Htw.
  assert (Hhalf : (time_window cfg ÷ 2 <= time_window cfg)%Z).
  { rewrite Z.quot_div_nonneg by lia. apply Z.div_le_upper_bound; lia. }
  unfold _get_adaptive_window.
  destruct (negb (enable_adaptive_window cfg) || (length g <? 2)); [lia|].
  destruct (head g) as [first|]; [|lia]. destruct (last g) as [final|]; [|lia].
  cbv zeta. unfold py_int. cbn [Qnum Qden Qmult inject_Z].
  rewrite !Z.mul_1_r. change (Z.pos (1 * 2)) with 2%Z. change (Z.pos (1 * 1)) with 1%Z.
  rewrite Z.quot_1_r.
  assert (H32 : (time_window cfg <= time_window cfg * 3 ÷ 2 <= 2 * time_window cfg)%Z).
  { rewrite Z.quot_div_nonneg by lia. split.
    - apply Z.div_le_lower_bound; lia.
    - apply Z.div_le_upper_bound; lia. }
  repeat match goal with |- context [if ?b then _ else _] => destruct b end; lia.
Qed.

(** X2: for a base window that is not negative and below 2^51 seconds (where
    the products of the code are exact in double arithmetic), the adaptive
    window lies between half the base window (rounded down) and twice the
    base window.  So in the groups of the grouper two neighbours of a group
    are at most twice the base window apart, and a group starts more than
    half the base window after the end of the group before it. *)
Theorem adaptive_window_range (cfg : Config) (messages : list ChatMessage) :
  (0 <= time_window cfg < 2 ^ 51)%Z ->
  (forall g, (time_window cfg ÷ 2 <= _get_adaptive_window cfg g <= 2 * time_window cfg)%Z)
  /\ (forall g i a b,
        g ∈ _group_by_time_window cfg messages ->
        g !! i = Some a -> g !! S i = Some b ->
        (timestamp b - timestamp a <= 2 * time_window cfg)%Z)
  /\ (forall k g g' a b,
        _group_by_time_window cfg messages !! k = Some g ->
        _group_by_time_window cfg messages !! S k = Some g' ->
        last g = Some a -> head g' = Some b ->
        (time_window cfg ÷ 2 < timestamp b - timestamp a)%Z).
Proof.
  intros [Htw _].
  destruct (group_by_time_window_window_partition cfg messages) as [Hin Hcut].
  split; [intros g; by apply get_adaptive_window_bounds|]. split.
  - intros g i a b Hg Ha Hb. rewrite Forall_forall in Hin.
    specialize (Hin g Hg i a b Ha Hb).
    pose proof (get_adaptive_window_bounds cfg (take (S i) g) Htw). lia.
  - intros k g g' a b Hg Hg' Ha Hb.
    specialize (Hcut k g g' Hg Hg' a b Ha Hb).
    pose proof (get_adaptive_window_bounds cfg g Htw). lia.
Qed.

(** The range of the window for the default configuration, on the first two
    messages of scenario C. *)
Lemma adaptive_window_range_witness :
  (0 <= time_window default_config < 2 ^ 51)%Z
  /\ (time_window default_config ÷ 2
       <= _get_adaptive_window default_config [message_A; message_A2]
       <= 2 * time_window default_config)%Z.
Proof.
  assert (Htw : (0 <= time_window default_config < 2 ^ 51)%Z)
    by (split; [vm_compute; discriminate|reflexivity]).
  split; [exact Htw|].
  apply (adaptive_window_range default_config [message_A; message_A2] Htw).
Defined.

(** ** Titles *)

Lemma lstrip_head (s : str) (c : char) (r : str) :
  lstrip s = c :: r -> is_space c = false.
Proof.
  induction s as [|x s IH]; cbn [lstrip]; [done|].
  destruct (is_space x) eqn:Hx; [done|]. by intros [= <- <-].
Qed.

Lemma strip_has_word (s : str) :
  nonempty (strip s) = true -> exists c, c ∈ strip s /\ is_space c = false.
Proof.
  unfold strip, rstrip. intros Hne.
  destruct (lstrip (rev (lstrip s))) as [|c r] eqn:Hl; [done|].
  exists c. split; [|by eapply lstrip_head].
  apply list_elem_of_In, in_rev. rewrite rev_involutive. by left.
Qed.

Lemma split_ws_words (s : str) : forall cur,
  Forall (fun c => is_space c = false) cur ->
  Forall (fun w => w <> [] /\ Forall (fun c => is_space c = false) w) (split_ws cur s).
Proof.
  induction s as [|c s IH]; intros cur Hcur; cbn [split_ws].
  - destruct cur; cbn; [constructor|]. constructor; [done|constructor].
  - destruct (is_space c) eqn:Hc.
    + destruct cur; cbn.
      * apply IH. constructor.
      * constructor; [done|]. apply IH. constructor.
    + apply IH. apply Forall_app. split; [done|]. constructor; [done|constructor].
Qed.

Lemma split_ws_nonempty (s : str) : forall cur,
  cur <> [] \/ (exists c, c ∈ s /\ is_space c = false) ->
  split_ws cur s <> [].
Proof.
  induction s as [|c s IH]; intros cur Hex; cbn [split_ws].
  - destruct Hex as [Hcur|(c & Hc & _)]; [by destruct cur|by apply elem_of_nil in Hc].
  - destruct (is_space c) eqn:Hc.
    + destruct cur; cbn; [|done]. apply IH. right.
      destruct Hex as [?|(c' & Hin & Hc')]; [done|].
      apply elem_of_cons in Hin as [->|Hin]; [congruence|eauto].
    + apply IH. left. by destruct cur.
Qed.

Lemma join_space_plain (words : list str) :
  Forall (fun w => w <> [] /\ Forall (fun c => is_space c = false) w) words ->
  Forall plain_char (join (lit " ") words)
  /\ (words <> [] -> join (lit " ") words <> []).
Proof.
  induction 1 as [|w words [Hw Hchars] _ [IHp IHn]]; [by split|].
  assert (Hwp : Forall plain_char w).
  { eapply Forall_impl; [exact Hchars|]. intros c Hc. by left. }
  destruct words as [|w' words]; cbn [join].
  - by split.
  - split; [|by destruct w].
    apply Forall_app. split; [done|]. constructor; [by right|]. exact IHp.
Qed.

(** X3: the title is never empty, has at most 53 characters (50 and the
    ellipsis) and is a single line: its only white space is the plain space.
    It is the fallback title when every message is blank or one of the four
    placeholders once stripped. *)
Theorem generate_title_shape (messages : list ChatMessage) :
  _generate_title messages <> []
  /\ length (_generate_title messages) <= 53
  /\ Forall plain_char (_generate_title messages)
  /\ (Forall untitled messages -> _generate_title messages = unknown_topic).
Proof.
  induction messages as [|msg messages (IHne & IHlen & IHplain & IHun)]; cbn [_generate_title].
  { split; [done|]. split; [unfold unknown_topic; cbn; lia|]. split; [|done].
    repeat constructor; by left. }
  cbv zeta.
  destruct (nonempty (strip (content msg)) && _) eqn:Hc.
  - apply andb_true_iff in Hc as [Hne Hph].
    apply negb_true_iff, bool_decide_eq_false in Hph.
    set (line := List.map (fun c => if (c =? 10)%N then 32%N else c) (strip (content msg))).
    assert (Hwords : Forall (fun w => w <> [] /\ Forall (fun c => is_space c = false) w)
                            (split_ws [] line)) by (apply split_ws_words; constructor).
    assert (Hsome : split_ws [] line <> []).
    { apply split_ws_nonempty. right.
      destruct (strip_has_word _ Hne) as (c & Hin & Hcs). exists c. split; [|done].
      subst line. apply list_elem_of_In, in_map_iff. exists c.
      split; [|by apply list_elem_of_In].
      destruct (N.eqb_spec c 10) as [->|]; [done|done]. }
    destruct (join_space_plain _ Hwords) as [Hplain Hjne]. specialize (Hjne Hsome).
    split; [|split; [|split]].
    + destruct (50 <? length _); [|done]. destruct (join _ _); [done|]. done.
    + destruct (Nat.ltb_spec 50 (length (join (lit " ") (split_ws [] line)))).
      * rewrite length_app, length_take. change (length (lit "...")) with 3. lia.
      * lia.
    + destruct (50 <? length _); [|done].
      apply Forall_app. split; [by apply Forall_take|]. repeat constructor; by left.
    + intros Hun. apply Forall_inv in Hun. destruct Hun as [He|Hp].
      * rewrite He in Hne. done.
      * done.
  - split; [done|]. split; [done|]. split; [done|].
    intros Hun. apply IHun. by apply Forall_inv_tail in Hun.
Qed.

(** ** The two patterns *)

Lemma is_prefix_app (p s : str) : is_prefix p s = true <-> exists r, s = p ++ r.
Proof.
  revert s. induction p as [|a p IH]; intros s; cbn [is_prefix].
  - split; [by exists s|done].
  - destruct s as [|b s].
    + split; [done|]. by intros [r [=]].
    + rewrite andb_true_iff, N.eqb_eq, IH. split.
      * intros [-> [r ->]]. by exists r.
      * intros [r [= -> ->]]. split; [done|by exists r].
Qed.

Lemma span_app (cls : char -> bool) (s a b : str) :
  span cls s = (a, b) -> s = a ++ b /\ Forall (fun c => cls c = true) a.
Proof.
  revert a b. induction s as [|c s IH]; intros a b; cbn [span].
  - intros [= <- <-]. by split.
  - destruct (cls c) eqn:Hc.
    + destruct (span cls s) as [a' b'] eqn:Hs. intros [= <- <-].
      destruct (IH a' b' eq_refl) as [-> Ha]. split; [done|by constructor].
    + intros [= <- <-]. by split.
Qed.

Lemma contains_prefix (p s : str) : is_prefix p s = true -> contains p s = true.
Proof. intros Hp. destruct s; cbn [contains]; by rewrite Hp. Qed.

Lemma contains_cons (p s : str) (c : char) : contains p s = true -> contains p (c :: s) = true.
Proof. intros Hp. cbn [contains]. rewrite Hp. apply orb_true_r. Qed.

Lemma match_tagged_sound (opening closing : str) (cls : char -> bool) (s body : str) :
  match_tagged opening closing cls s = Some body ->
  body <> [] /\ Forall (fun c => cls c = true) body
  /\ is_prefix (opening ++ body ++ closing) s = true.
Proof.
  unfold match_tagged. destruct (is_prefix opening s) eqn:Hopen; [|done].
  apply is_prefix_app in Hopen as [r ->].
  rewrite drop_app_length.
  destruct (span cls r) as [a b] eqn:Hspan.
  destruct (nonempty a && is_prefix closing b) eqn:Hc; [|done]. intros [= <-].
  apply andb_true_iff in Hc as [Hne Hclose].
  apply span_app in Hspan as [-> Hcls].
  apply is_prefix_app in Hclose as [r' ->].
  split; [by destruct a|]. split; [done|].
  apply is_prefix_app. exists r'. by rewrite <- !app_assoc.
Qed.

Lemma re_search_tagged_sound (opening closing : str) (cls : char -> bool) (s body : str) :
  re_search_tagged opening closing cls s = Some body ->
  body <> [] /\ Forall (fun c => cls c = true) body
  /\ contains (opening ++ body ++ closing) s = true.
Proof.
  induction s as [|c s IH]; cbn [re_search_tagged].
  - destruct (match_tagged opening closing cls []) eqn:Hm; [|done]. intros [= ->].
    apply match_tagged_sound in Hm as (? & ? & ?). auto using contains_prefix.
  - destruct (match_tagged opening closing cls (c :: s)) eqn:Hm.
    + intros [= ->]. apply match_tagged_sound in Hm as (? & ? & ?).
      auto using contains_prefix.
    + intros Hs. destruct (IH Hs) as (? & ? & ?). auto using contains_cons.
Qed.

(** X4: a quoted id is ["svrid_"] followed by a non-empty text; there is none
    when the payload is absent or empty; when the payload mentions
    [<refermsg>] and the XML parser raises, there is none either, the bare
    pattern is not tried; when the payload does not mention [<refermsg>],
    the text is a run of decimal digits found between [<svrid>] and
    [</svrid>] in the payload. *)
Theorem extract_quoted_msg_id_shape (E : Externals) (msg : ChatMessage) :
  (xml_content msg = None \/ xml_content msg = Some [] ->
   _extract_quoted_msg_id E msg = None)
  /\ (forall quoted, _extract_quoted_msg_id E msg = Some quoted ->
        exists body, quoted = lit "svrid_" ++ body /\ body <> [])
  /\ (forall xml, xml_content msg = Some xml ->
        contains (lit "<refermsg>") xml = true ->
        et_fromstring E (lit "<root>" ++ xml ++ lit "</root>") = None ->
        _extract_quoted_msg_id E msg = None)
  /\ (forall xml quoted, xml_content msg = Some xml ->
        contains (lit "<refermsg>") xml = false ->
        _extract_quoted_msg_id E msg = Some quoted ->
        exists digits,
          quoted = lit "svrid_" ++ digits
          /\ digits <> []
          /\ Forall (fun c => is_decimal c = true) digits
          /\ contains (lit "<svrid>" ++ digits ++ lit "</svrid>") xml = true).
Proof.
  unfold _extract_quoted_msg_id.
  split; [|split; [|split]].
  - by intros [->| ->].
  - intros quoted. destruct (xml_content msg) as [xml|]; [|done].
    destruct (negb (nonempty xml)); [done|]. cbv zeta.
    assert (Hpat : forall q,
      match re_search_tagged (lit "<svrid>") (lit "</svrid>") is_decimal xml with
      | Some digits => Some (lit "svrid_" ++ digits)
      | None => None
      end = Some q -> exists body, q = lit "svrid_" ++ body /\ body <> []).
    { intros q. destruct (re_search_tagged _ _ _ xml) as [digits|] eqn:Hs; [|done].
      intros [= <-]. apply re_search_tagged_sound in Hs as (? & _). eauto. }
    destruct (contains (lit "<refermsg>") xml); [|apply Hpat].
    destruct (et_fromstring E _) as [root|]; [|done].
    destruct (find_descendant _ root) as [refermsg|]; [|apply Hpat].
    destruct (find_child _ refermsg) as [svrid|]; [|apply Hpat].
    destruct (text_of svrid) as [t|]; [|apply Hpat].
    destruct (nonempty t) eqn:Ht; [|apply Hpat].
    intros [= <-]. exists t. split; [done|by destruct t].
  - intros xml -> Hc Hparse. destruct (negb (nonempty xml)); [done|].
    cbv zeta. by rewrite Hc, Hparse.
  - intros xml quoted -> Hc. destruct (negb (nonempty xml)); [done|].
    cbv zeta. rewrite Hc.
    destruct (re_search_tagged _ _ _ xml) as [digits|] eqn:Hs; [|done].
    intros [= <-]. apply re_search_tagged_sound in Hs as (? & ? & ?). eauto.
Qed.

Lemma span_stop (cls : char -> bool) (body rest : str) (c0 : char) :
  Forall (fun c => cls c = true) body -> cls c0 = false ->
  span cls (body ++ c0 :: rest) = (body, c0 :: rest).
Proof.
  intros Hbody Hc0. induction Hbody as [|c body Hc _ IH]; cbn [span app].
  - by rewrite Hc0.
  - by rewrite Hc, IH.
Qed.

Lemma match_tagged_complete (opening closing : str) (cls : char -> bool)
    (body rest : str) (c0 : char) (closing' : str) :
  closing = c0 :: closing' -> cls c0 = false ->
  body <> [] -> Forall (fun c => cls c = true) body ->
  match_tagged opening closing cls (opening ++ body ++ closing ++ rest) = Some body.
Proof.
  intros -> Hc0 Hne Hbody. unfold match_tagged.
  rewrite (proj2 (is_prefix_app _ _)) by eauto.
  rewrite drop_app_length. cbn [app].
  rewrite span_stop by done.
  replace (nonempty body) with true by (by destruct body).
  rewrite (proj2 (is_prefix_app (c0 :: closing') (c0 :: closing' ++ rest))); [done|].
  by exists rest.
Qed.

Lemma re_search_tagged_complete (opening closing : str) (cls : char -> bool)
    (s body : str) (c0 : char) (closing' : str) :
  closing = c0 :: closing' -> cls c0 = false ->
  body <> [] -> Forall (fun c => cls c = true) body ->
  contains (opening ++ body ++ closing) s = true ->
  is_Some (re_search_tagged opening closing cls s).
Proof.
  intros Hcl Hc0 Hne Hbody.
  assert (Hat : forall t, is_prefix (opening ++ body ++ closing) t = true ->
                 is_Some (match_tagged opening closing cls t)).
  { intros t Ht. apply is_prefix_app in Ht as [r ->].
    rewrite <- !app_assoc. erewrite match_tagged_complete; eauto. }
  induction s as [|c s IH]; cbn [contains re_search_tagged].
  - rewrite orb_false_r. intros Hp. destruct (Hat _ Hp) as [b ->]. eauto.
  - intros Hc. destruct (match_tagged opening closing cls (c :: s)) eqn:Hm; [eauto|].
    apply orb_true_iff in Hc as [Hp|Hc]; [|by apply IH].
    destruct (Hat _ Hp) as [b Hb]. congruence.
Qed.

(** X5: for a payload that is not empty and does not mention [<refermsg>],
    a quoted id is found exactly when the payload holds a non-empty run of
    decimal digits between [<svrid>] and [</svrid>]. *)
Theorem extract_quoted_msg_id_pattern (E : Externals) (msg : ChatMessage) (xml : str) :
  xml_content msg = Some xml ->
  contains (lit "<refermsg>") xml = false ->
  (is_Some (_extract_quoted_msg_id E msg) <->
   exists digits,
     digits <> [] /\ Forall (fun c => is_decimal c = true) digits
     /\ contains (lit "<svrid>" ++ digits ++ lit "</svrid>") xml = true).
Proof.
  intros Hxml Hc. unfold _extract_quoted_msg_id. rewrite Hxml.
  destruct xml as [|x xml'] eqn:Hx.
  { split; [by intros [? [=]]|]. intros (digits & _ & _ & Hin).
    cbn [contains] in Hin. rewrite orb_false_r in Hin.
    apply is_prefix_app in Hin as [r Hr]. done. }
  rewrite <- Hx in *. replace (negb (nonempty xml)) with false by (by subst xml).
  cbv zeta. rewrite Hc. split.
  - destruct (re_search_tagged _ _ _ xml) as [digits|] eqn:Hs; [|by intros [? [=]]].
    intros _. apply re_search_tagged_sound in Hs as (? & ? & ?). eauto.
  - intros (digits & Hne & Hd & Hin).
    destruct (re_search_tagged_complete (lit "<svrid>") (lit "</svrid>") is_decimal
                xml digits 60%N (lit "/svrid>")) as [body ->]; try done.
Qed.

(** A payload that quotes through the bare pattern. *)
Lemma extract_quoted_msg_id_pattern_witness :
  is_Some (_extract_quoted_msg_id failing_externals (quoting "svrid_1" 0 "2")).
Proof.
  apply (extract_quoted_msg_id_pattern failing_externals (quoting "svrid_1" 0 "2")
           (lit "<svrid>2</svrid>")).
  - reflexivity.
  - reflexivity.
  - exists (lit "2"). split; [done|]. split; [by repeat constructor|reflexivity].
Defined.

(** ** Stage 2: which relations are recorded *)

Lemma extract_quoted_msg_id_nonempty (E : Externals) (msg : ChatMessage) (quoted : str) :
  _extract_quoted_msg_id E msg = Some quoted -> nonempty quoted = true.
Proof.
  unfold _extract_quoted_msg_id.
  destruct (xml_content msg) as [xml|]; [|done].
  destruct (negb (nonempty xml)); [done|]. cbv zeta.
  assert (Hpat : forall q,
    match re_search_tagged (lit "<svrid>") (lit "</svrid>") is_decimal xml with
    | Some digits => Some (lit "svrid_" ++ digits)
    | None => None
    end = Some q -> nonempty q = true).
  { intros q. destruct (re_search_tagged _ _ _ xml); [|done]. by intros [= <-]. }
  destruct (contains (lit "<refermsg>") xml); [|apply Hpat].
  destruct (et_fromstring E _) as [root|]; [|done].
  destruct (find_descendant _ root) as [refermsg|]; [|apply Hpat].
  destruct (find_child _ refermsg) as [svrid|]; [|apply Hpat].
  destruct (text_of svrid) as [t|]; [|apply Hpat].
  destruct (nonempty t); [|apply Hpat]. by intros [= <-].
Qed.

Lemma msg_map_of_is_Some (g : group) (m : gmap str ChatMessage) (q : str) :
  q ∈ ids g \/ is_Some (m !! q) ->
  is_Some (foldl (fun m msg => <[msg_id msg := msg]> m) m g !! q).
Proof.
  revert m. induction g as [|a g IH]; intros m; cbn [foldl].
  - intros [Hin|?]; [by apply elem_of_nil in Hin|done].
  - intros [Hin|Hs]; apply IH.
    + cbn in Hin. apply elem_of_cons in Hin as [->|Hin]; [right|by left].
      rewrite lookup_insert_eq. eauto.
    + right. destruct (decide (msg_id a = q)) as [->|Hne].
      * rewrite lookup_insert_eq. eauto.
      * by rewrite lookup_insert_ne.
Qed.

(** X6: a reply relation is recorded exactly for a message whose quoted id
    is the id of a message of its own group; a quote of a message of any
    other group is never recorded. *)
Theorem extract_reply_relations_within_group (E : Externals) (groups : list group)
    (reply quoted : str) :
  (reply, quoted) ∈ _extract_reply_relations E groups <->
  exists g msg,
    g ∈ groups /\ msg ∈ g /\ msg_id msg = reply
    /\ _extract_quoted_msg_id E msg = Some quoted
    /\ quoted ∈ ids g.
Proof.
  unfold _extract_reply_relations, group_relations.
  rewrite list_elem_of_In, in_flat_map. split.
  - intros (g & Hg & Hin). apply in_flat_map in Hin as (msg & Hmsg & Hrel).
    exists g, msg. rewrite !list_elem_of_In. split; [done|]. split; [done|].
    destruct (_extract_quoted_msg_id E msg) as [q|]; [|done].
    destruct (nonempty q && _) eqn:Hc; [|done].
    destruct Hrel as [[= <- <-]|[]]. split; [done|]. split; [done|].
    apply andb_true_iff in Hc as [_ Hc]. apply bool_decide_eq_true in Hc.
    apply list_elem_of_In.
    destruct (msg_map_of_lookup g ∅ q Hc) as [?|Habs]; [done|].
    rewrite lookup_empty in Habs. by destruct Habs.
  - intros (g & msg & Hg & Hmsg & <- & Hq & Hin).
    exists g. rewrite <- list_elem_of_In. split; [done|].
    apply in_flat_map. exists msg. rewrite <- list_elem_of_In. split; [done|].
    rewrite Hq, (extract_quoted_msg_id_nonempty E msg quoted Hq).
    rewrite bool_decide_eq_true_2; [by left|].
    apply msg_map_of_is_Some. by left.
Qed.

(** ** Stage 2: what the linker returns *)

Lemma length_extend_root root g (root_to_messages : list (nat * group)) :
  length (extend_root root g root_to_messages) <= S (length root_to_messages).
Proof.
  induction root_to_messages as [|[r msgs] rest IH]; cbn [extend_root]; [done|].
  destruct (r =? root); cbn [length]; lia.
Qed.

Lemma length_collect_roots fuel (igroups : list (nat * group)) :
  forall parent root_to_messages collected,
  collect_roots fuel parent igroups root_to_messages = Some collected ->
  length collected <= length root_to_messages + length igroups.
Proof.
  induction igroups as [|[idx g] igroups IH]; intros parent rtm collected;
    cbn [collect_roots].
  - intros [= <-]. cbn. lia.
  - destruct (find fuel parent idx) as [[parent' root]|]; [|done].
    cbn [mbind option_bind]. intros Hc. apply IH in Hc.
    pose proof (length_extend_root root g rtm). cbn [length]. lia.
Qed.

Lemma length_enumerate_from {A} (i : nat) (l : list A) :
  length (enumerate_from i l) = length l.
Proof. revert i. induction l as [|x l IH]; intros i; cbn; [done|]. by rewrite IH. Qed.

(** X7: the reply linker returns on every group list; the groups it returns
    hold the messages of the input, are never more than the input groups,
    are not empty when the input groups are not, and are each sorted by
    timestamp whenever some relation was recorded. *)
Theorem merge_by_reply_relation_result (E : Externals) (groups : list group) :
  exists linked,
    _merge_by_reply_relation E groups = Some linked
    /\ concat linked ≡ₚ concat groups
    /\ length linked <= length groups
    /\ (Forall (fun g => g <> []) groups -> Forall (fun g => g <> []) linked)
    /\ (_extract_reply_relations E groups <> [] -> Forall ascending linked).
Proof.
  destruct (merge_by_reply_relation_total E groups) as (linked & Hl & Hp & Hne & _).
  exists linked. split; [done|]. split; [done|]. split; [|split; [done|]].
  - revert Hl. unfold _merge_by_reply_relation.
    destruct (_extract_reply_relations E groups) as [|rel rels]; [by intros [= <-]|].
    destruct (union_relations _ _ _ _) as [parent|]; [|done]. cbn [mbind option_bind].
    destruct (collect_roots _ _ _ _) as [collected|] eqn:Hc; [|done].
    cbn [mbind option_bind]. intros [= <-]. rewrite length_map.
    apply length_collect_roots in Hc. unfold enumerate in Hc.
    rewrite length_enumerate_from in Hc. cbn in Hc. unfold group in *. lia.
  - revert Hl. unfold _merge_by_reply_relation.
    destruct (_extract_reply_relations E groups) as [|rel rels]; [done|].
    destruct (union_relations _ _ _ _) as [parent|]; [|done]. cbn [mbind option_bind].
    destruct (collect_roots _ _ _ _) as [collected|]; [|done].
    cbn [mbind option_bind]. intros [= <-] _.
    apply List.Forall_forall. intros g Hg. apply in_map_iff in Hg as ([r msgs] & <- & _).
    apply sorted_by_timestamp_ascending.
Qed.

(** X8: on a group list with unique message ids the reply linker merges
    nothing: it returns as many groups as it was given, and each of them
    holds the messages of the input group at its position. *)
Theorem merge_by_reply_relation_keeps_groups (E : Externals) (groups : list group) :
  unique_ids groups ->
  exists linked,
    _merge_by_reply_relation E groups = Some linked
    /\ length linked = length groups
    /\ Forall2 (fun g l => l ≡ₚ g) groups linked.
Proof.
  intros Huniq. rewrite merge_by_reply_relation_unique by done.
  eexists. split; [done|].
  destruct (_extract_reply_relations E groups).
  - split; [done|]. by apply Forall_Forall2_diag, Forall_true.
  - split; [apply length_map|].
    clear. induction groups as [|g groups IH]; cbn; constructor; [|done].
    apply sorted_by_timestamp_perm.
Qed.

(** The linker on the quoting group and its neighbour. *)
Lemma merge_by_reply_relation_keeps_groups_witness :
  exists linked,
    _merge_by_reply_relation quote_externals [[message_D; message_A]; [message_D2]]
    = Some linked
    /\ length linked = 2.
Proof.
  destruct (merge_by_reply_relation_keeps_groups quote_externals
              [[message_D; message_A]; [message_D2]]) as (linked & Hl & Hlen & _).
  - unfold unique_ids, ids. apply (bool_decide_unpack _). vm_compute. exact I.
  - exists linked. by split.
Defined.

(** ** Stage 3: the similarity matrix *)

Lemma entry_set_entry_other (m : list (list Q)) (r c a b : nat) (v : Q) :
  a <> r \/ b <> c -> entry (set_entry m r c v) a b = entry m a b.
Proof.
  intros Hne. unfold entry, set_entry.
  destruct (m !! r) as [row|] eqn:Hrow; [|done].
  destruct (decide (a = r)) as [->|Har].
  - rewrite list_lookup_insert_eq by (by eapply lookup_lt_Some).
    rewrite Hrow. cbn. rewrite list_lookup_insert_ne; [done|].
    intros ->. by destruct Hne.
  - by rewrite list_lookup_insert_ne.
Qed.

Lemma enumerate_from_elem {A} (l : list A) : forall (k i : nat) (x : A),
  (i, x) ∈ enumerate_from k l -> k <= i /\ l !! (i - k) = Some x.
Proof.
  induction l as [|y l IH]; intros k i x; cbn [enumerate_from].
  - intros Hin. by apply elem_of_nil in Hin.
  - intros Hin. apply elem_of_cons in Hin as [[= -> ->]|Hin].
    + split; [done|]. by rewrite Nat.sub_diag.
    + apply IH in Hin as [Hk Hl]. split; [lia|].
      replace (i - k) with (S (i - S k)) by lia. done.
Qed.

Lemma valid_indices_nonblank (texts : list str) (a : nat) :
  a ∈ List.map fst (valid_entries texts) ->
  exists t, texts !! a = Some t /\ nonempty (strip t) = true.
Proof.
  intros Hin. apply list_elem_of_In, in_map_iff in Hin as ([i t] & Hi & Hin).
  cbn in Hi. subst i. unfold valid_entries in Hin. apply filter_In in Hin as [Hin Hne].
  apply list_elem_of_In in Hin. unfold enumerate in Hin.
  apply enumerate_from_elem in Hin as [_ Hl]. rewrite Nat.sub_0_r in Hl. eauto.
Qed.

Lemma valid_texts_filter (texts : list str) :
  List.map snd (valid_entries texts) = List.filter (fun t => nonempty (strip t)) texts.
Proof.
  unfold valid_entries, enumerate. generalize 0.
  induction texts as [|t texts IH]; intros k; cbn [enumerate_from List.filter]; [done|].
  destruct (nonempty (strip t)); cbn [List.map snd]; by rewrite IH.
Qed.

Lemma fill_similarities_outside (similarities : list (list Q)) (valid_indices : list nat)
    (full full' : list (list Q)) (a b : nat) :
  a ∉ valid_indices \/ b ∉ valid_indices ->
  fill_similarities similarities valid_indices full = Some full' ->
  entry full' a b = entry full a b.
Proof.
  unfold fill_similarities. intros Hout.
  set (good := fun acc : option (list (list Q)) =>
                 forall f, acc = Some f -> entry f a b = entry full a b).
  assert (Hinner : forall (i idx_i : nat) (l : list (nat * nat)) acc,
    (idx_i ∈ valid_indices) -> Forall (fun e => snd e ∈ valid_indices) l -> good acc ->
    good (foldl (fun acc '(j, idx_j) =>
            full ← acc;
            v ← (row ← similarities !! i; row !! j);
            Some (set_entry full idx_i idx_j v)) acc l)).
  { intros i idx_i l acc Hi Hl. revert acc.
    induction Hl as [|[j idx_j] l Hj _ IH]; intros acc Hacc; cbn [foldl]; [done|].
    apply IH. intros f Hf. destruct acc as [full0|]; [|done]. cbn in Hf.
    destruct (row ← similarities !! i; row !! j) as [v|]; [|done]. cbn in Hf.
    injection Hf as <-. rewrite entry_set_entry_other; [by apply Hacc|].
    cbn in Hj. destruct Hout as [Ha|Hb]; [left|right]; congruence. }
  assert (Hsnd : forall (k : nat), Forall (fun e : nat * nat => snd e ∈ valid_indices)
                   (enumerate_from k valid_indices)).
  { intros k. apply Forall_forall. intros [i x] Hin.
    apply enumerate_from_elem in Hin as [_ Hl]. cbn. by eapply list_elem_of_lookup_2. }
  assert (Houter : forall (l : list (nat * nat)) acc,
    Forall (fun e => snd e ∈ valid_indices) l -> good acc ->
    good (foldl (fun acc '(i, idx_i) =>
            foldl (fun acc '(j, idx_j) =>
              full ← acc;
              v ← (row ← similarities !! i; row !! j);
              Some (set_entry full idx_i idx_j v)) acc (enumerate valid_indices)) acc l)).
  { intros l acc Hl. revert acc.
    induction Hl as [|[i idx_i] l Hi _ IH]; intros acc Hacc; cbn [foldl]; [done|].
    apply IH, Hinner; [done|apply Hsnd|done]. }
  intros Hfill. apply (Houter (enumerate valid_indices) (Some full)); [apply Hsnd| |done].
  by intros f [= <-].
Qed.

Lemma compute_semantic_similarities_blank (E : Externals) (texts : list str) (a b : nat) :
  a ∉ List.map fst (valid_entries texts) \/ b ∉ List.map fst (valid_entries texts) ->
  entry (_compute_semantic_similarities E texts) a b = 0%Q.
Proof.
  intros Hout. unfold _compute_semantic_similarities.
  destruct (_ <? 2); [apply entry_zeros|].
  destruct (tfidf_cosine_similarity E _) as [similarities|]; [|apply entry_zeros].
  destruct (fill_similarities _ _ _) as [full|] eqn:Hfill; [|apply entry_zeros].
  rewrite (fill_similarities_outside _ _ _ _ a b Hout Hfill). apply entry_zeros.
Qed.

(** X9: the similarity matrix is always square of the size of the text list,
    whatever the vectorizer returns; the row and the column of a blank text
    are zero; and the matrix is all zero when fewer than two texts are not
    blank (the vectorizer is not called) or when the vectorizer raises. *)
Theorem compute_semantic_similarities_shape (E : Externals) (texts : list str) :
  let similarities := _compute_semantic_similarities E texts in
  let nonblank := List.filter (fun t => nonempty (strip t)) texts in
  square (length texts) similarities
  /\ (forall a t b, texts !! a = Some t -> strip t = [] ->
        entry similarities a b = 0%Q /\ entry similarities b a = 0%Q)
  /\ (length nonblank < 2 -> similarities = zeros (length texts))
  /\ (tfidf_cosine_similarity E nonblank = None -> similarities = zeros (length texts)).
Proof.
  cbv zeta. split; [apply compute_semantic_similarities_square|]. split; [|split].
  - intros a t b Ht Hblank.
    assert (Ha : a ∉ List.map fst (valid_entries texts)).
    { intros Hin. apply valid_indices_nonblank in Hin as (t' & Ht' & Hne).
      assert (t' = t) as -> by congruence. by rewrite Hblank in Hne. }
    split; apply compute_semantic_similarities_blank; auto.
  - intros Hfew. apply compute_semantic_similarities_fails. left.
    by rewrite <- (length_map snd), valid_texts_filter.
  - intros Hraise. apply compute_semantic_similarities_fails. right.
    by rewrite valid_texts_filter.
Qed.

(** ** Stage 3: the text of a group *)

Lemma join_nil_inv (sep : str) (parts : list str) :
  Forall (fun p => p <> []) parts -> join sep parts = [] -> parts = [].
Proof.
  destruct 1 as [|p parts Hp Hparts]; [done|]. cbn [join].
  destruct parts; [done|]. by destruct p.
Qed.

(** X10: the representative text of a group depends on its first three
    messages only, so messages added behind the third never change it; it is
    empty exactly when none of the first three messages has content other
    than a media placeholder. *)
Theorem get_group_text_first_three (g : group) :
  _get_group_text g = _get_group_text (take 3 g)
  /\ (forall more, 3 <= length g -> _get_group_text (g ++ more) = _get_group_text g)
  /\ (_get_group_text g = [] <->
      Forall (fun m => substantive (content m) = false) (take 3 g)).
Proof.
  unfold _get_group_text. split; [by rewrite take_take|]. split.
  - intros more Hlen. by rewrite take_app_le.
  - split.
    + intros Hjoin. apply join_nil_inv in Hjoin.
      * apply map_eq_nil in Hjoin. apply List.Forall_forall. intros m Hm.
        destruct (substantive (content m)) eqn:Hs; [|done].
        assert (Hin : In m (List.filter (fun msg => substantive (content msg)) (take 3 g)))
          by (by apply filter_In).
        rewrite Hjoin in Hin. done.
      * apply List.Forall_forall. intros p Hp. apply in_map_iff in Hp as (m & <- & Hm).
        apply filter_In in Hm as [_ Hs]. unfold substantive in Hs.
        apply andb_true_iff in Hs as [Hs _]. by destruct (content m).
    + intros Hall.
      assert (List.filter (fun msg => substantive (content msg)) (take 3 g) = []) as ->; [|done].
      induction Hall as [|m l Hm _ IH]; cbn [List.filter]; [done|]. by rewrite Hm.
Qed.

(** ** Stage 3: a group without text stays alone *)

Lemma spec_greedy_isolated (similar : nat -> nat -> bool) (a : nat) (order : list nat) :
  (forall j, similar a j = false) -> (forall i, similar i a = false) ->
  forall consumed, NoDup order -> a ∈ order -> a ∉ consumed ->
  [a] ∈ spec_greedy similar consumed order.
Proof.
  intros Hrow Hcol. induction order as [|i later IH]; intros consumed Hnd Hin Hnc.
  { by apply elem_of_nil in Hin. }
  apply NoDup_cons in Hnd as [Hi Hnd]. cbn [spec_greedy].
  destruct (decide (i ∈ consumed)) as [Hic|Hic].
  - apply IH; [done| |done]. apply elem_of_cons in Hin as [->|?]; done.
  - destruct (decide (a = i)) as [<-|Hne].
    + assert (List.filter (fun j => bool_decide (j ∉ consumed) && similar a j) later = [])
        as ->; [|apply list_elem_of_here].
      clear -Hrow. induction later as [|j l IHl]; cbn [List.filter]; [done|].
      by rewrite Hrow, andb_false_r.
    + apply list_elem_of_further, IH; [done| |].
      * apply elem_of_cons in Hin as [?|?]; done.
      * rewrite elem_of_union, elem_of_list_to_set, elem_of_cons.
        intros [?|[?|Habs]]; [done|done|].
        apply list_elem_of_In, filter_In in Habs as [_ Habs].
        by rewrite Hcol, andb_false_r in Habs.
Qed.

(** X11: with a positive threshold, a group whose representative text is
    blank is never merged by the semantic merger: among two or more groups it
    comes out as a group of its own, sorted by timestamp, whatever the
    vectorizer answers. *)
Theorem blank_group_not_merged (E : Externals) (cfg : Config) (groups : list group)
    (a : nat) (g : group) :
  (0 < semantic_threshold cfg)%Q ->
  1 < length groups ->
  groups !! a = Some g ->
  strip (_get_group_text g) = [] ->
  sorted_by_timestamp g ∈ _merge_by_semantic_similarity E cfg groups.
Proof.
  intros Hthr Hlen Ha Hblank. unfold _merge_by_semantic_similarity.
  replace (length groups <=? 1) with false by (symmetry; apply Nat.leb_gt; lia).
  cbv zeta. rewrite merge_similar_greedy. unfold spec_merge.
  set (texts := List.map _get_group_text groups).
  set (similar := fun i j => Qle_bool (semantic_threshold cfg)
                               (entry (_compute_semantic_similarities E texts) i j)).
  assert (Hout : a ∉ List.map fst (valid_entries texts)).
  { intros Hin. apply valid_indices_nonblank in Hin as (t & Ht & Hne).
    subst texts. rewrite list_lookup_fmap in Ht. unfold group in *.
    rewrite Ha in Ht. cbn in Ht. injection Ht as <-. by rewrite Hblank in Hne. }
  assert (Hzero : forall q, (q == 0)%Q -> Qle_bool (semantic_threshold cfg) q = false).
  { intros q Hq. apply not_true_iff_false. rewrite Qle_bool_iff, Hq. by apply Qlt_not_le. }
  assert (Hin : [a] ∈ spec_greedy similar ∅ (seq 0 (length groups))).
  { apply spec_greedy_isolated.
    - intros j. apply Hzero. by rewrite compute_semantic_similarities_blank by auto.
    - intros i. apply Hzero. by rewrite compute_semantic_similarities_blank by auto.
    - apply NoDup_seq.
    - apply list_elem_of_In, in_seq. apply lookup_lt_Some in Ha. lia.
    - apply not_elem_of_empty. }
  apply list_elem_of_In, in_map_iff. exists [a]. split; [|by apply list_elem_of_In].
  unfold gather_groups. cbn. unfold group in *. rewrite Ha. cbn. by rewrite app_nil_r.
Qed.

(** A group of one image placeholder next to two groups with text. *)
Lemma blank_group_not_merged_witness :
  sorted_by_timestamp [image_message "p" 0 "alice"]
  ∈ _merge_by_semantic_similarity unrelated_externals default_config
      [[image_message "p" 0 "alice"];
       [text_message "a" 1000 "bob" "lunch today" None];
       [text_message "b" 2000 "carol" "compiler error" None]].
Proof.
  apply (blank_group_not_merged unrelated_externals default_config _ 0
           [image_message "p" 0 "alice"]).
  - reflexivity.
  - cbn. lia.
  - reflexivity.
  - reflexivity.
Defined.

(** ** Link metadata *)

Lemma re_search_not_lt (tag : string) (xml : str) :
  read_between tag xml
    (re_search_tagged (lit ("<" ++ tag ++ ">")) (lit ("</" ++ tag ++ ">")) not_lt xml).
Proof.
  intros t Ht. apply re_search_tagged_sound in Ht as (Hne & Hcls & Hin).
  split; [done|]. split; [|done].
  eapply Forall_impl; [exact Hcls|]. intros c Hc. unfold not_lt in Hc.
  apply negb_true_iff, N.eqb_neq in Hc. done.
Qed.

(** X12: link metadata is returned only with a non-empty title or a
    non-empty url; there is none for an absent or empty payload, and none
    when the payload mentions [<appmsg>] and the XML parser raises (the
    patterns are not tried).  For a payload that does not mention [<appmsg>]
    each field returned is a non-empty text without [<] that stands between
    its tags in the payload. *)
Theorem extract_link_info_shape (E : Externals) (xml_content : option str) :
  (xml_content = None \/ xml_content = Some [] ->
   _extract_link_info_from_xml E xml_content = None)
  /\ (forall info, _extract_link_info_from_xml E xml_content = Some info ->
        truthy (link_title info) || truthy (link_url info) = true)
  /\ (forall xml, xml_content = Some xml ->
        contains (lit "<appmsg>") xml = true ->
        et_fromstring E (lit "<root>" ++ xml ++ lit "</root>") = None ->
        _extract_link_info_from_xml E xml_content = None)
  /\ (forall xml info, xml_content = Some xml ->
        contains (lit "<appmsg>") xml = false ->
        _extract_link_info_from_xml E xml_content = Some info ->
        read_between "title" xml (link_title info)
        /\ read_between "des" xml (link_description info)
        /\ read_between "url" xml (link_url info)).
Proof.
  unfold _extract_link_info_from_xml.
  split; [|split; [|split]].
  - by intros [->| ->].
  - intros info. destruct xml_content as [xml|]; [|done].
    destruct (negb (nonempty xml)); [done|]. cbv zeta.
    set (by_pattern :=
      if truthy (re_search_tagged (lit "<title>") (lit "</title>") not_lt xml)
         || truthy (re_search_tagged (lit "<url>") (lit "</url>") not_lt xml)
      then Some {| link_title := re_search_tagged (lit "<title>") (lit "</title>") not_lt xml;
                   link_description := re_search_tagged (lit "<des>") (lit "</des>") not_lt xml;
                   link_url := re_search_tagged (lit "<url>") (lit "</url>") not_lt xml |}
      else None).
    assert (Hpat : by_pattern = Some info ->
                   truthy (link_title info) || truthy (link_url info) = true).
    { subst by_pattern. destruct (truthy _ || truthy _) eqn:Ht; [|done]. by intros [= <-]. }
    destruct (contains (lit "<appmsg>") xml); [|exact Hpat].
    destruct (et_fromstring E _) as [root|]; [|done].
    destruct (find_descendant _ root) as [appmsg|]; [|exact Hpat].
    destruct (truthy (e ← find_child (lit "title") appmsg; text_of e)
              || truthy (e ← find_child (lit "url") appmsg; text_of e)) eqn:Ht;
      [|exact Hpat].
    by intros [= <-].
  - intros xml -> Hc Hparse. destruct (negb (nonempty xml)); [done|].
    cbv zeta. by rewrite Hc, Hparse.
  - intros xml info -> Hc. destruct (negb (nonempty xml)); [done|].
    cbv zeta. rewrite Hc. destruct (truthy _ || truthy _); [|done]. intros [= <-]. cbn.
    split; [apply (re_search_not_lt "title")|].
    split; [apply (re_search_not_lt "des")|apply (re_search_not_lt "url")].
Qed.

(** ** The members of the topics *)










(** ** The order of the input *)

Lemma ascending_perm_eq (a : list ChatMessage) : forall b,
  ascending a -> ascending b -> a ≡ₚ b -> NoDup (List.map timestamp a) -> a = b.
Proof.
  unfold ascending. induction a as [|x a IH]; intros b Ha Hb Hperm Hnd.
  { by apply Permutation_nil_l in Hperm. }
  destruct b as [|y b]; [by apply Permutation_nil_r in Hperm|].
  pose proof Ha as Ha'. pose proof Hb as Hb'.
  apply Sorted_StronglySorted in Ha'; [|intros ???; lia].
  apply Sorted_StronglySorted in Hb'; [|intros ???; lia].
  apply StronglySorted_inv in Ha' as [_ Hxa]. apply StronglySorted_inv in Hb' as [_ Hyb].
  rewrite List.Forall_forall in Hxa, Hyb.
  cbn in Hnd. apply NoDup_cons in Hnd as [Hx Hnd].
  assert (x = y) as <-.
  { assert (Hxin : x ∈ y :: b) by (rewrite <- Hperm; apply list_elem_of_here).
    assert (Hyin : y ∈ x :: a) by (rewrite Hperm; apply list_elem_of_here).
    apply elem_of_cons in Hxin as [?|Hxin]; [done|].
    apply elem_of_cons in Hyin as [?|Hyin]; [done|].
    exfalso. apply Hx. apply list_elem_of_In in Hxin, Hyin.
    specialize (Hxa y Hyin). specialize (Hyb x Hxin).
    assert (timestamp x = timestamp y) as -> by lia.
    by apply list_elem_of_In, in_map. }
  f_equal. apply IH;
    [by apply Sorted_inv in Ha as [? _]|by apply Sorted_inv in Hb as [? _]| |done].
  by apply Permutation_cons_inv in Hperm.
Qed.

(** X15: the order in which the messages are supplied does not matter when
    their timestamps are pairwise distinct: two inputs with the same
    messages give the same topics. *)
Theorem run_order_independent (H : HashSeed) (E : Externals) (cfg : Config)
    (messages messages' : list ChatMessage) :
  messages ≡ₚ messages' ->
  NoDup (List.map timestamp messages) ->
  run H E cfg messages = run H E cfg messages'.
Proof.
  intros Hperm Hnd.
  assert (Hs : sorted_by_timestamp messages = sorted_by_timestamp messages').
  { apply ascending_perm_eq; try apply sorted_by_timestamp_ascending.
    - by rewrite !sorted_by_timestamp_perm.
    - by rewrite sorted_by_timestamp_perm. }
  unfold run. by rewrite Hs.
Qed.

(** The two messages of scenario C in both orders. *)
Lemma run_order_independent_witness :
  run seed_forward quote_externals default_config [message_A; message_D]
  = run seed_forward quote_externals default_config [message_D; message_A].
Proof.
  apply run_order_independent.
  - apply Permutation_swap.
  - apply (bool_decide_unpack _). vm_compute. exact I.
Defined.

(** ** The order of the topics *)























(** ** The data cleaner *)

Lemma contains_app (p s : str) : contains p s = true <-> exists a b, s = a ++ p ++ b.
Proof.
  split.
  - induction s as [|c s IH]; cbn [contains]; intros Hc.
    + rewrite orb_false_r in Hc. apply is_prefix_app in Hc as [r ->]. by exists [], r.
    + apply orb_true_iff in Hc as [Hc|Hc].
      * apply is_prefix_app in Hc as [r ->]. by exists [], r.
      * destruct (IH Hc) as (a & b & ->). by exists (c :: a), b.
  - intros (a & b & ->). induction a as [|c a IH]; cbn [app].
    + apply contains_prefix, is_prefix_app. by exists b.
    + by apply contains_cons.
Qed.

Lemma contains_trans (q p s : str) :
  contains q p = true -> contains p s = true -> contains q s = true.
Proof.
  intros Hq Hp. apply contains_app in Hq as (a & b & ->).
  apply contains_app in Hp as (a' & b' & ->). apply contains_app.
  exists (a' ++ a), (b ++ b'). by rewrite <- !app_assoc.
Qed.

Lemma run_loop_filter (lower : str -> str) (c : DataCleaner.Cleaner)
    (messages : list ChatMessage) :
  forall cleaned counts,
  let keep := fun msg => negb (fst (DataCleaner._should_filter lower c msg)) in
  let result := foldl (DataCleaner.run_step lower c) (cleaned, counts) messages in
  fst result = cleaned ++ List.filter keep messages
  /\ DataCleaner.count_kept (snd result)
     = (DataCleaner.count_kept counts + Z.of_nat (length (List.filter keep messages)))%Z
  /\ (DataCleaner.count_system (snd result) + DataCleaner.count_chatroom (snd result)
      + DataCleaner.count_unsupported (snd result) + DataCleaner.count_kept (snd result)
      = DataCleaner.count_system counts + DataCleaner.count_chatroom counts
        + DataCleaner.count_unsupported counts + DataCleaner.count_kept counts
        + Z.of_nat (length messages))%Z.
Proof.
  induction messages as [|msg messages IH]; intros cleaned counts; cbn zeta.
  { cbn. rewrite app_nil_r. repeat split; lia. }
  cbn [foldl List.filter].
  assert (Hstep : DataCleaner.run_step lower c (cleaned, counts) msg =
            let '(should_filter, reason) := DataCleaner._should_filter lower c msg in
            if should_filter then (cleaned, DataCleaner.bump reason counts)
            else (cleaned ++ [msg], DataCleaner.bump DataCleaner.Kept counts)) by done.
  rewrite Hstep. clear Hstep.
  destruct (DataCleaner._should_filter lower c msg) as [should_filter reason] eqn:Hs.
  assert (Hreason : should_filter = true -> reason <> DataCleaner.Kept).
  { revert Hs. unfold DataCleaner._should_filter.
    repeat (destruct (_ && _); [by intros [= <- <-]|]). by intros [= <- <-]. }
  cbn [fst negb]. destruct should_filter; cbn [negb].
  - destruct (IH cleaned (DataCleaner.bump reason counts)) as (Hc & Hk & Hsum).
    cbn zeta in Hc, Hk, Hsum. rewrite Hc, Hsum, Hk.
    split; [done|]. specialize (Hreason eq_refl). destruct reason; cbn; [..|done]; split; lia.
  - destruct (IH (cleaned ++ [msg]) (DataCleaner.bump DataCleaner.Kept counts))
      as (Hc & Hk & Hsum).
    cbn zeta in Hc, Hk, Hsum. rewrite Hc, Hsum, Hk.
    split; [by rewrite <- app_assoc|]. cbn. split; lia.
Qed.

Lemma cleaner_run_filter (lower : str -> str) (c : DataCleaner.Cleaner)
    (messages : list ChatMessage) :
  DataCleaner.run lower c messages =
    match messages with
    | [] => None
    | _ => Some (List.filter
                   (fun msg => negb (fst (DataCleaner._should_filter lower c msg))) messages)
    end.
Proof.
  unfold DataCleaner.run, DataCleaner.run_loop.
  pose proof (run_loop_filter lower c messages []
    {| DataCleaner.count_system := 0; DataCleaner.count_chatroom := 0;
       DataCleaner.count_unsupported := 0; DataCleaner.count_kept := 0 |}) as (Hc & _).
  destruct (foldl _ _ messages) as [cleaned counts]. cbn [fst] in Hc. subst cleaned.
  by destruct messages.
Qed.

(** X17: the cleaner keeps, in their order, exactly the messages that pass
    its checks, and its four counters add up to the number of messages, the
    last one counting the messages kept; on an empty message list it raises
    (the cleaning rate divides by the number of messages) instead of
    returning an empty list. *)
Theorem cleaner_run_result (lower : str -> str) (c : DataCleaner.Cleaner)
    (messages : list ChatMessage) :
  let kept := List.filter
                (fun msg => negb (fst (DataCleaner._should_filter lower c msg))) messages in
  let counts := snd (DataCleaner.run_loop lower c messages) in
  DataCleaner.run lower c messages = (if decide (messages = []) then None else Some kept)
  /\ sublist kept messages
  /\ DataCleaner.count_kept counts = Z.of_nat (length kept)
  /\ (DataCleaner.count_system counts + DataCleaner.count_chatroom counts
      + DataCleaner.count_unsupported counts + DataCleaner.count_kept counts
      = Z.of_nat (length messages))%Z.
Proof.
  cbn zeta. split; [|split].
  - rewrite cleaner_run_filter. by destruct messages.
  - apply sublist_List_filter.
  - unfold DataCleaner.run_loop.
    destruct (run_loop_filter lower c messages []
      {| DataCleaner.count_system := 0; DataCleaner.count_chatroom := 0;
         DataCleaner.count_unsupported := 0; DataCleaner.count_kept := 0 |}) as (_ & Hk & Hsum).
    cbn zeta in Hk, Hsum. rewrite Hsum, Hk. cbn. split; lia.
Qed.

Lemma is_system_message_keywords (lower : str -> str) (msg : ChatMessage) :
  DataCleaner._is_system_message lower msg =
    bool_decide (type_ msg = Some DataCleaner.system_type)
    || existsb (fun keyword => contains keyword (lower (content msg)))
         [ [25764; 22238; 20102; 19968; 26465; 28040; 24687]%N;
           [20462; 25913; 32676; 21517; 20026]%N;
           [36992; 35831]%N;
           [31227; 20986; 32676; 32842]%N ]
       && nonempty (content msg).
Proof.
  unfold DataCleaner._is_system_message.
  destruct (bool_decide (type_ msg = Some DataCleaner.system_type)); [done|].
  cbn [orb]. destruct (content msg) as [|ch s]; cbn [nonempty].
  { by rewrite andb_false_r. }
  rewrite andb_true_r. cbv zeta. set (t := lower (ch :: s)).
  cbn [existsb DataCleaner.system_keywords].
  repeat match goal with
         | |- context [contains ?k ?x] => let H := fresh "Hk" in destruct (contains k x) eqn:H
         end; try done.
  all: exfalso;
    match goal with
    | H1 : contains ?a ?x = true, H2 : contains ?b ?x = false |- _ =>
        pose proof (contains_trans b a x eq_refl H1); congruence
    end.
Qed.

Lemma unsupported_patterns (t : str) :
  nonempty t && existsb (fun pattern => contains pattern t) DataCleaner.FILTER_XML_PATTERNS
  = contains [35831; 21319; 32423; 33267; 26368; 26032; 29256; 26412]%N t
    || contains [29256; 26412; 19981; 25903; 25345]%N t.
Proof.
  destruct t as [|ch s]; [done|]. cbn [nonempty andb]. set (t := ch :: s).
  cbn [existsb DataCleaner.FILTER_XML_PATTERNS].
  repeat match goal with
         | |- context [contains ?k ?x] => let H := fresh "Hk" in destruct (contains k x) eqn:H
         end; try done.
  all: exfalso;
    match goal with
    | H1 : contains ?a ?x = true, H2 : contains ?b ?x = false |- _ =>
        pose proof (contains_trans b a x eq_refl H1); congruence
    end.
Qed.

(** X18: the default cleaner removes exactly the messages of type
    ["系统消息"], those whose lowered content mentions ["邀请"],
    ["撤回了一条消息"], ["修改群名为"] or ["移出群聊"], those whose sender id
    ends in ["@chatroom"], and those whose content or XML payload mentions
    ["版本不支持"] or ["请升级至最新版本"]; the keyword ["邀请你加入了群聊"]
    and the pattern ["当前版本不支持展示该内容"] add nothing, each is a part
    of another one. *)
Theorem cleaner_default_removes (lower : str -> str) (msg : ChatMessage) :
  fst (DataCleaner._should_filter lower DataCleaner.default_cleaner msg)
  = removed_by_default lower msg.
Proof.
  unfold DataCleaner._should_filter, removed_by_default.
  cbn [DataCleaner.filter_system_messages DataCleaner.filter_chatroom_messages
       DataCleaner.filter_unsupported_messages DataCleaner.default_cleaner andb].
  rewrite is_system_message_keywords.
  assert (Hchat : DataCleaner._is_chatroom_message msg
                  = ends_with (lit "@chatroom") (sender_id msg)).
  { unfold DataCleaner._is_chatroom_message, DataCleaner.chatroom_suffix.
    destruct (sender_id msg); cbn [nonempty]; by destruct (ends_with _ _). }
  assert (Huns : DataCleaner._is_unsupported_content msg
                 = existsb (fun text =>
                      contains [35831; 21319; 32423; 33267; 26368; 26032; 29256; 26412]%N text
                      || contains [29256; 26412; 19981; 25903; 25345]%N text)
                     (content msg :: match xml_content msg with
                                     | Some xml => [xml] | None => [] end)).
  { unfold DataCleaner._is_unsupported_content. rewrite unsupported_patterns.
    cbn [existsb]. destruct (_ || _); [done|]. cbn [orb].
    destruct (xml_content msg) as [xml|]; [|done].
    rewrite unsupported_patterns. cbn [existsb]. rewrite orb_false_r.
    by destruct (_ || _). }
  rewrite Hchat, Huns.
  destruct (_ || _ && _); [done|]. cbn [orb].
  destruct (ends_with _ _); [done|]. cbn [orb].
  by destruct (existsb _ _).
Qed.

Lemma List_filter_twice {A} (f : A -> bool) (l : list A) :
  List.filter f (List.filter f l) = List.filter f l.
Proof.
  induction l as [|x l IH]; cbn [List.filter]; [done|].
  destruct (f x) eqn:Hx; [|done]. cbn [List.filter]. by rewrite Hx, IH.
Qed.

(** X19: cleaning a cleaned list again changes nothing: the second pass
    returns the list it is given, unless the first pass removed every
    message, in which case the second pass raises. *)
Theorem cleaner_run_again (lower : str -> str) (c : DataCleaner.Cleaner)
    (messages cleaned : list ChatMessage) :
  DataCleaner.run lower c messages = Some cleaned ->
  DataCleaner.run lower c cleaned = if decide (cleaned = []) then None else Some cleaned.
Proof.
  rewrite (cleaner_run_filter lower c messages). intros Hm.
  assert (cleaned = List.filter
            (fun msg => negb (fst (DataCleaner._should_filter lower c msg))) messages)
    as -> by (destruct messages; congruence).
  rewrite cleaner_run_filter, List_filter_twice.
  by destruct (List.filter _ messages).
Qed.

Lemma cleaner_run_again_witness :
  DataCleaner.run (fun s => s) DataCleaner.default_cleaner [message_A; message_A2]
  = if decide ([message_A; message_A2] = []) then None else Some [message_A; message_A2].
Proof.
  apply (cleaner_run_again (fun s => s) DataCleaner.default_cleaner
           [message_A; chatroom_notice; message_A2]).
  vm_compute. reflexivity.
Defined.




(** ** The user profiler *)

Lemma first_occurrences_snoc (l : list str) (x : str) :
  first_occurrences (l ++ [x])
  = if bool_decide (x ∈ l) then first_occurrences l else first_occurrences l ++ [x].
Proof.
  induction l as [|y l IH]; [done|]. cbn [app first_occurrences]. rewrite IH.
  destruct (bool_decide_reflect (x ∈ l)) as [Hin|Hin].
  - rewrite bool_decide_eq_true_2; [done|]. by right.
  - rewrite List.filter_app. cbn [List.filter].
    destruct (bool_decide_reflect (x = y)) as [->|Hxy]; cbn [negb].
    + rewrite bool_decide_eq_true_2 by (by left). by rewrite app_nil_r.
    + rewrite bool_decide_eq_false_2; [done|]. intros [Heq|Hin']%elem_of_cons; done.
Qed.

Lemma first_occurrences_In (l : list str) (x : str) :
  In x (first_occurrences l) <-> In x l.
Proof.
  induction l as [|y l IH]; [done|]. cbn [first_occurrences In].
  rewrite filter_In, IH. destruct (decide (y = x)) as [->|Hyx]; [tauto|].
  split; [tauto|]. intros [?|?]; [done|]. right. split; [done|].
  apply negb_true_iff, bool_decide_eq_false_2. congruence.
Qed.

Lemma first_occurrences_NoDup (l : list str) : NoDup (first_occurrences l).
Proof.
  induction l as [|y l IH]; cbn [first_occurrences]; constructor.
  - intros Hin%list_elem_of_In%filter_In. destruct Hin as [_ Hy].
    by rewrite bool_decide_eq_true_2 in Hy.
  - eapply sublist_NoDup; [exact IH|apply sublist_List_filter].
Qed.

Lemma increment_keys (key : str) (counts : list (str * Z)) :
  List.map fst (UserProfiler.increment key counts)
  = if bool_decide (key ∈ List.map fst counts) then List.map fst counts
    else List.map fst counts ++ [key].
Proof.
  induction counts as [|[k n] counts IH]; [done|].
  cbn [UserProfiler.increment List.map fst]. destruct (decide (k = key)) as [->|Hk].
  - rewrite bool_decide_eq_true_2; [done|]. by left.
  - cbn [List.map fst]. rewrite IH.
    destruct (bool_decide_reflect (key ∈ List.map fst counts)) as [Hin|Hin].
    + rewrite bool_decide_eq_true_2; [done|]. by right.
    + rewrite bool_decide_eq_false_2; [done|]. intros [?|?]%elem_of_cons; done.
Qed.

Lemma count_of_increment (key k : str) (counts : list (str * Z)) :
  count_of k (UserProfiler.increment key counts)
  = (count_of k counts + if bool_decide (key = k) then 1 else 0)%Z.
Proof.
  induction counts as [|[k0 n] counts IH]; cbn [UserProfiler.increment count_of].
  - destruct (decide (key = k)) as [->|Hk].
    + rewrite bool_decide_eq_true_2 by done. lia.
    + rewrite bool_decide_eq_false_2 by done. lia.
  - destruct (decide (k0 = key)) as [->|Hk0]; cbn [count_of].
    + destruct (decide (key = k)) as [->|Hk].
      * rewrite bool_decide_eq_true_2 by done. lia.
      * rewrite bool_decide_eq_false_2 by done. lia.
    + destruct (decide (k0 = k)) as [->|Hk]; [|done].
      rewrite bool_decide_eq_false_2 by congruence. lia.
Qed.

Lemma total_increment (key : str) (counts : list (str * Z)) :
  total (List.map snd (UserProfiler.increment key counts))
  = (total (List.map snd counts) + 1)%Z.
Proof.
  unfold total. induction counts as [|[k n] counts IH]; cbn [UserProfiler.increment]; [done|].
  destruct (decide (k = key)); cbn [List.map snd foldr] in *; lia.
Qed.

Lemma count_of_NoDup (counts : list (str * Z)) (k : str) (n : Z) :
  NoDup (List.map fst counts) -> In (k, n) counts -> count_of k counts = n.
Proof.
  induction counts as [|[k0 n0] counts IH]; [done|].
  cbn [List.map fst count_of]. intros [Hk0 Hnd]%NoDup_cons [[= -> ->]|Hin].
  - by destruct (decide (k = k)).
  - destruct (decide (k0 = k)) as [->|Hk]; [|by apply IH].
    exfalso. apply Hk0, list_elem_of_In, in_map_iff. by exists (k, n).
Qed.

(** What the loop of [UserProfiler.run] has collected after [messages]. *)
Lemma profiler_loop (messages : list ChatMessage) :
  let st := foldl UserProfiler.run_step ([], ∅) messages in
  List.map fst (fst st) = first_occurrences (List.map sender_id messages)
  /\ (forall k, count_of k (fst st) = Z.of_nat (length (messages_of k messages)))
  /\ total (List.map snd (fst st)) = Z.of_nat (length messages)
  /\ (forall k, snd st !! k = sender_name <$> head (messages_of k messages)).
Proof.
  induction messages as [|msg messages IH] using rev_ind; cbn zeta.
  { cbn. by repeat split. }
  cbn zeta in IH. rewrite foldl_app. cbn [foldl].
  destruct (foldl UserProfiler.run_step ([], ∅) messages) as [counts name_map].
  cbn [fst snd] in IH. destruct IH as (Hkeys & Hcount & Htotal & Hnames).
  assert (Hstep : UserProfiler.run_step (counts, name_map) msg
            = (UserProfiler.increment (sender_id msg) counts,
               match name_map !! sender_id msg with
               | None => <[sender_id msg := sender_name msg]> name_map
               | Some _ => name_map
               end)).
  { unfold UserProfiler.run_step. by destruct (name_map !! sender_id msg). }
  rewrite Hstep. cbn [fst snd]. clear Hstep.
  split; [|split; [|split]].
  - rewrite increment_keys, Hkeys, List.map_app. cbn [List.map].
    rewrite first_occurrences_snoc.
    destruct (bool_decide_reflect (sender_id msg ∈ List.map sender_id messages)) as [Hin|Hin].
    + rewrite bool_decide_eq_true_2; [done|].
      by apply list_elem_of_In, first_occurrences_In, list_elem_of_In.
    + rewrite bool_decide_eq_false_2; [done|].
      intros Hin'. apply Hin. apply list_elem_of_In, first_occurrences_In, list_elem_of_In.
      exact Hin'.
  - intros k. rewrite count_of_increment, Hcount. unfold messages_of.
    rewrite List.filter_app, length_app. cbn [List.filter].
    destruct (bool_decide (sender_id msg = k)); cbn [length]; lia.
  - rewrite total_increment, Htotal, length_app. cbn [length]. lia.
  - intros k. unfold messages_of in *. rewrite List.filter_app. cbn [List.filter].
    specialize (Hnames k).
    destruct (decide (sender_id msg = k)) as [<-|Hk].
    + rewrite bool_decide_eq_true_2 by done. rewrite Hnames.
      destruct (List.filter _ messages) as [|first others]; cbn.
      * apply lookup_insert_eq.
      * done.
    + rewrite bool_decide_eq_false_2 by done. rewrite app_nil_r, <- Hnames.
      destruct (name_map !! sender_id msg); [done|]. by rewrite lookup_insert_ne.
Qed.

Lemma messages_of_sender (messages : list ChatMessage) (k : str) :
  In k (List.map sender_id messages) ->
  exists msg rest, messages_of k messages = msg :: rest.
Proof.
  intros (msg & Hk & Hin)%in_map_iff.
  assert (Hm : In msg (messages_of k messages)).
  { apply filter_In. split; [done|]. by apply bool_decide_eq_true_2. }
  destruct (messages_of k messages) as [|first others]; [done|]. by eexists _, _.
Qed.

(** The profiles are the entries of [counts], read with [name_map]. *)
Lemma profiler_run_entries (messages : list ChatMessage) (analyses : list LinkAnalysis)
    (p : UserProfile) :
  In p (UserProfiler.run messages analyses) ->
  let st := foldl UserProfiler.run_step ([], ∅) messages in
  In (user_id p, msg_count p) (fst st)
  /\ user_name p = default (user_id p) (snd st !! user_id p)
  /\ high_value_links p
     = Z.of_nat (length (List.filter (fun item => (80 <=? score item)%Z) analyses))
  /\ keyword_bias p = [].
Proof.
  unfold UserProfiler.run. cbn zeta.
  destruct (foldl UserProfiler.run_step ([], ∅) messages) as [counts name_map].
  intros ([k n] & <- & Hin)%in_map_iff. by cbn.
Qed.

Lemma profiler_run_fields (messages : list ChatMessage) (analyses : list LinkAnalysis) :
  List.map user_id (UserProfiler.run messages analyses)
    = List.map fst (fst (foldl UserProfiler.run_step ([], ∅) messages))
  /\ List.map msg_count (UserProfiler.run messages analyses)
    = List.map snd (fst (foldl UserProfiler.run_step ([], ∅) messages)).
Proof.
  unfold UserProfiler.run.
  destruct (foldl UserProfiler.run_step ([], ∅) messages) as [counts name_map].
  cbn [fst]. rewrite !List.map_map. split; apply map_ext; by intros [k n].
Qed.

(** X21: the profiler returns one profile per sender id, in the order in
    which the senders first appear; the message count of a profile is the
    number of messages of its sender, so it is at least one, and the counts
    of all profiles add up to the number of messages. *)
Theorem profiler_counts (messages : list ChatMessage) (analyses : list LinkAnalysis) :
  let profiles := UserProfiler.run messages analyses in
  List.map user_id profiles = first_occurrences (List.map sender_id messages)
  /\ Forall (fun p => msg_count p = Z.of_nat (length (messages_of (user_id p) messages))
                      /\ (1 <= msg_count p)%Z) profiles
  /\ total (List.map msg_count profiles) = Z.of_nat (length messages).
Proof.
  cbn zeta. destruct (profiler_loop messages) as (Hkeys & Hcount & Htotal & _).
  cbn zeta in Hkeys, Hcount, Htotal.
  destruct (profiler_run_fields messages analyses) as [Hids Hcounts].
  split; [by rewrite Hids|]. split; [|by rewrite Hcounts].
  apply List.Forall_forall. intros p Hp.
  destruct (profiler_run_entries messages analyses p Hp) as (Hin & _).
  cbn zeta in Hin.
  assert (Hn : msg_count p = Z.of_nat (length (messages_of (user_id p) messages))).
  { rewrite <- Hcount. symmetry. apply count_of_NoDup; [|done].
    rewrite Hkeys. apply first_occurrences_NoDup. }
  split; [done|]. rewrite Hn.
  destruct (messages_of_sender messages (user_id p)) as (msg & rest & ->); [|cbn; lia].
  apply first_occurrences_In. rewrite <- Hkeys.
  apply in_map_iff. by exists (user_id p, msg_count p).
Qed.

(** X22: the name of a profile is the sender name of the first message of
    its sender, so a later change of name is not seen and the fallback to the
    id is never taken; the number of high-value links is the same in every
    profile, the number of all analyses that score 80 or more, whoever
    shared the links; the keyword list is always empty. *)
Theorem profiler_names_links (messages : list ChatMessage) (analyses : list LinkAnalysis) :
  Forall (fun p =>
            (exists msg rest, messages_of (user_id p) messages = msg :: rest
                              /\ user_name p = sender_name msg)
            /\ high_value_links p
               = Z.of_nat (length (List.filter (fun item => (80 <=? score item)%Z) analyses))
            /\ keyword_bias p = [])
         (UserProfiler.run messages analyses).
Proof.
  destruct (profiler_loop messages) as (Hkeys & _ & _ & Hnames).
  cbn zeta in Hkeys, Hnames.
  apply List.Forall_forall. intros p Hp.
  destruct (profiler_run_entries messages analyses p Hp) as (Hin & Hname & Hlinks & Hbias).
  cbn zeta in Hin, Hname. split; [|done].
  destruct (messages_of_sender messages (user_id p)) as (msg & rest & Hfirst).
  { apply first_occurrences_In. rewrite <- Hkeys.
    apply in_map_iff. by exists (user_id p, msg_count p). }
  exists msg, rest. split; [done|].
  by rewrite Hname, Hnames, Hfirst.
Qed.

(** ** The error of the topic id *)




(** On these two messages [run] raises. *)
Example run_surrogate_id :
  run seed_forward failing_externals default_config surrogate_id_messages = None.
Proof. vm_compute. reflexivity. Qed.

(** * The adaptive window in double arithmetic *)

Section DoubleLemmas.

Local Open Scope Q_scope.

(** ** Powers of two and the exponent *)

Lemma pow2_pos (k : Z) : 0 < pow2 k.
Proof. apply Qpower_0_lt. reflexivity. Qed.

Lemma pow2_add (a b : Z) : pow2 (a + b) == pow2 a * pow2 b.
Proof. apply Qpower_plus. discriminate. Qed.

Lemma pow2_sub (a b : Z) : pow2 (a - b) == pow2 a / pow2 b.
Proof. apply Qpower_minus. discriminate. Qed.

Lemma pow2_inject (k : Z) : (0 <= k)%Z -> pow2 k == inject_Z (2 ^ k).
Proof. intros Hk. symmetry. by apply Zpower_Qpower. Qed.

Lemma pow2_lt (a b : Z) : (a < b)%Z -> pow2 a < pow2 b.
Proof. intros Hab. apply Qpower_lt_compat_l; [done|reflexivity]. Qed.

Lemma pow2_le (a b : Z) : (a <= b)%Z -> pow2 a <= pow2 b.
Proof. intros Hab. apply Qpower_le_compat_l; [done|discriminate]. Qed.

Lemma pow2_lt_inv (a b : Z) : pow2 a < pow2 b -> (a < b)%Z.
Proof. intros Hab. eapply Qpower_lt_compat_l_inv; [exact Hab|reflexivity]. Qed.

Lemma inject_Z_pos (z : Z) : (0 < z)%Z -> 0 < inject_Z z.
Proof. intros Hz. change 0 with (inject_Z 0). by rewrite <- Zlt_Qlt. Qed.

Lemma exponent_spec (q : Q) : 0 < q -> pow2 (exponent q) <= q /\ q < pow2 (exponent q + 1).
Proof.
  intros Hq. unfold exponent.
  set (a := Qnum q). set (b := Z.pos (Qden q)).
  assert (Ha : (0 < a)%Z) by (subst a; destruct q as [[|n|n] d]; done).
  assert (Hb : (0 < b)%Z) by done.
  destruct (Z.log2_spec a Ha) as [Ha1 Ha2]. destruct (Z.log2_spec b Hb) as [Hb1 Hb2].
  pose proof (Z.log2_nonneg a) as Hla. pose proof (Z.log2_nonneg b) as Hlb.
  set (la := Z.log2 a) in *. set (lb := Z.log2 b) in *.
  assert (Hqab : q == inject_Z a / inject_Z b) by (destruct q; apply Qmake_Qdiv).
  assert (Hbq : 0 < inject_Z b) by (by apply inject_Z_pos).
  assert (Hupper : q < pow2 (la - lb + 1)).
  { replace (la - lb + 1)%Z with ((la + 1) - lb)%Z by lia.
    rewrite pow2_sub, (pow2_inject (la + 1)), (pow2_inject lb), Hqab by lia.
    apply Qlt_shift_div_l; [apply inject_Z_pos; lia|].
    unfold Qdiv. rewrite <- Qmult_assoc, (Qmult_comm (/ _)), Qmult_assoc.
    apply Qlt_shift_div_r; [done|].
    rewrite <- !inject_Z_mult, <- Zlt_Qlt.
    replace (Z.succ la) with (la + 1)%Z in Ha2 by lia. nia. }
  assert (Hlower : pow2 (la - lb - 1) < q).
  { replace (la - lb - 1)%Z with (la - (lb + 1))%Z by lia.
    rewrite pow2_sub, (pow2_inject la), (pow2_inject (lb + 1)), Hqab by lia.
    apply Qlt_shift_div_r; [apply inject_Z_pos; lia|].
    unfold Qdiv. rewrite <- Qmult_assoc, (Qmult_comm (/ _)), Qmult_assoc.
    apply Qlt_shift_div_l; [done|].
    rewrite <- !inject_Z_mult, <- Zlt_Qlt.
    replace (Z.succ lb) with (lb + 1)%Z in Hb2 by lia. nia. }
  destruct (Qlt_bool q (pow2 (la - lb))) eqn:Hlt.
  - apply Qlt_bool_iff in Hlt. split; [by apply Qlt_le_weak|].
    by replace (la - lb - 1 + 1)%Z with (la - lb)%Z by lia.
  - split; [|done]. apply Qnot_lt_le. intros Hlt'. apply Qlt_bool_iff in Hlt'. congruence.
Qed.

Lemma round_half_even_error (q : Q) :
  inject_Z (round_half_even q) - (1 # 2) <= q <= inject_Z (round_half_even q) + (1 # 2).
Proof.
  unfold round_half_even.
  pose proof (Qfloor_le q) as Hlo. pose proof (Qlt_floor q) as Hhi.
  rewrite inject_Z_plus in Hhi. change (inject_Z 1) with 1 in Hhi.
  destruct (Qcompare_spec (q - inject_Z (Qfloor q)) (1 # 2)) as [Heq|Hlt|Hgt].
  - destruct (Z.even (Qfloor q)); rewrite ?inject_Z_plus; change (inject_Z 1) with 1;
      split; lra.
  - split; lra.
  - rewrite inject_Z_plus. change (inject_Z 1) with 1. split; lra.
Qed.

Lemma round_half_even_nonneg (q : Q) : 0 <= q -> (0 <= round_half_even q)%Z.
Proof.
  intros Hq. pose proof (round_half_even_error q) as [_ Hhi].
  destruct (Z.le_gt_cases 0 (round_half_even q)) as [|Hneg]; [done|].
  assert (inject_Z (round_half_even q) <= inject_Z (-1)) by (rewrite <- Zle_Qle; lia).
  change (inject_Z (-1)) with (-1) in *. lra.
Qed.

Lemma round_half_even_int (q : Q) (z : Z) : q == inject_Z z -> round_half_even q = z.
Proof.
  intros Hq. unfold round_half_even. rewrite (Qfloor_comp _ _ Hq), Qfloor_Z.
  assert (Hlt : q - inject_Z z < 1 # 2) by (rewrite Hq; lra).
  destruct (Qcompare_spec (q - inject_Z z) (1 # 2)); [lra|done|lra].
Qed.

Lemma exponent_normal (q : Q) : pow2 (-1022) <= q -> (-1022 <= exponent q)%Z.
Proof.
  intros Hq. assert (Hpos : 0 < q) by (pose proof (pow2_pos (-1022)); lra).
  destruct (exponent_spec q Hpos) as [_ Hhi].
  assert (Hlt : pow2 (-1022) < pow2 (exponent q + 1)) by lra.
  apply pow2_lt_inv in Hlt. lia.
Qed.

Lemma round_positive_nonneg (q : Q) : 0 < q -> 0 <= round_positive q.
Proof.
  intros Hq. unfold round_positive.
  set (u := pow2 _). assert (Hu : 0 < u) by apply pow2_pos.
  apply Qmult_le_0_compat; [|lra].
  change 0 with (inject_Z 0). rewrite <- Zle_Qle. apply round_half_even_nonneg.
  apply Qle_shift_div_l; [done|]. lra.
Qed.

Lemma round_positive_error (q : Q) :
  pow2 (-1022) <= q ->
  q - q * pow2 (-53) <= round_positive q <= q + q * pow2 (-53).
Proof.
  intros Hq. assert (Hpos : 0 < q) by (pose proof (pow2_pos (-1022)); lra).
  pose proof (exponent_normal q Hq) as He.
  destruct (exponent_spec q Hpos) as [Hlo _].
  unfold round_positive. rewrite Z.max_l by done.
  set (u := pow2 (exponent q - 52)). assert (Hu : 0 < u) by apply pow2_pos.
  pose proof (round_half_even_error (q / u)) as [Hm1 Hm2].
  set (m := inject_Z (round_half_even (q / u))) in *.
  assert (Hqu : q / u * u == q) by (field; lra).
  apply (Qmult_le_compat_r _ _ u) in Hm1; [|lra].
  apply (Qmult_le_compat_r _ _ u) in Hm2; [|lra].
  rewrite Hqu in Hm1, Hm2.
  assert (Hu52 : u == pow2 (exponent q) * pow2 (-52)).
  { subst u. replace (exponent q - 52)%Z with (exponent q + -52)%Z by lia. apply pow2_add. }
  assert (H53 : pow2 (-52) == 2 * pow2 (-53)) by reflexivity.
  assert (Hule : u <= q * pow2 (-52)).
  { rewrite Hu52. apply Qmult_le_compat_r; [done|]. apply Qlt_le_weak, pow2_pos. }
  rewrite H53 in Hule.
  set (p := pow2 (-53)) in *.
  assert (Hmu1 : (m - (1 # 2)) * u == m * u - (1 # 2) * u) by ring.
  assert (Hmu2 : (m + (1 # 2)) * u == m * u + (1 # 2) * u) by ring.
  rewrite Hmu1 in Hm1. rewrite Hmu2 in Hm2.
  assert (Hqp : q * (2 * p) == 2 * (q * p)) by ring.
  rewrite Hqp in Hule.
  set (mu := m * u) in *. set (qp := q * p) in *. split; lra.
Qed.

Lemma round_positive_exact (q : Q) (z : Z) :
  pow2 (-1022) <= q -> q / pow2 (exponent q - 52) == inject_Z z -> round_positive q == q.
Proof.
  intros Hq Hz. pose proof (exponent_normal q Hq) as He.
  unfold round_positive. rewrite Z.max_l by done.
  rewrite (round_half_even_int _ z Hz), <- Hz.
  pose proof (pow2_pos (exponent q - 52)). field. lra.
Qed.

(** A number with at most 53 significant bits is a double. *)
Lemma round_positive_dyadic (q : Q) (k j : Z) :
  (0 < k < 2 ^ 53)%Z -> (0 <= j <= 1022)%Z -> q == inject_Z k * pow2 (- j) ->
  round_positive q == q.
Proof.
  intros Hk Hj Hq.
  assert (Hk1 : 1 <= inject_Z k) by (change 1 with (inject_Z 1); rewrite <- Zle_Qle; lia).
  assert (Hk2 : inject_Z k < pow2 53).
  { rewrite (pow2_inject 53) by lia. rewrite <- Zlt_Qlt. lia. }
  pose proof (pow2_pos (- j)) as Hpj.
  assert (Hnormal : pow2 (-1022) <= q).
  { rewrite Hq. apply Qle_trans with (pow2 (- j)); [apply pow2_le; lia|].
    rewrite <- (Qmult_1_l (pow2 (- j))) at 1. apply Qmult_le_compat_r; lra. }
  assert (Hpos : 0 < q) by (pose proof (pow2_pos (-1022)); lra).
  destruct (exponent_spec q Hpos) as [Hlo _].
  assert (He : (exponent q < 53 - j)%Z).
  { apply pow2_lt_inv. apply Qle_lt_trans with q; [done|].
    rewrite Hq. replace (53 - j)%Z with (53 + - j)%Z by lia. rewrite pow2_add.
    apply Qmult_lt_compat_r; lra. }
  apply (round_positive_exact q (k * 2 ^ (52 - exponent q - j))); [done|].
  set (e := exponent q) in *.
  rewrite inject_Z_mult, <- (pow2_inject (52 - e - j)) by lia.
  replace (52 - e - j)%Z with (- j + - (e - 52))%Z by lia.
  rewrite pow2_add, Hq.
  replace (- (e - 52))%Z with (0 - (e - 52))%Z by lia.
  rewrite (pow2_sub 0). change (pow2 0) with 1.
  pose proof (pow2_pos (e - 52)). field. lra.
Qed.

Lemma round_zero (q : Q) : q == 0 -> round q = finite 0.
Proof.
  intros Hq. unfold round. pose proof (Qred_correct q) as Hr.
  destruct (Qcompare_spec (Qred q) 0); [done|lra|lra].
Qed.

Lemma round_of_positive (q : Q) :
  0 < q ->
  round q = if Qle_bool (pow2 1024) (round_positive (Qred q)) then infinity false
            else finite (Qred (round_positive (Qred q))).
Proof.
  intros Hq. unfold round. pose proof (Qred_correct q) as Hr.
  destruct (Qcompare_spec (Qred q) 0); [lra|lra|done].
Qed.

Lemma round_of_negative (q : Q) :
  q < 0 ->
  round q = if Qle_bool (pow2 1024) (round_positive (- Qred q)) then infinity true
            else finite (Qred (- round_positive (- Qred q))).
Proof.
  intros Hq. unfold round. pose proof (Qred_correct q) as Hr.
  destruct (Qcompare_spec (Qred q) 0); [lra|done|lra].
Qed.

Lemma Qle_bool_false (a b : Q) : b < a -> Qle_bool a b = false.
Proof.
  intros Hlt. destruct (Qle_bool a b) eqn:Hle; [|done].
  apply Qle_bool_iff in Hle. lra.
Qed.

(** Rounding a number in the range of the normal doubles: the relative
    error is at most [2^-53]. *)
Lemma round_error (q : Q) :
  pow2 (-1022) <= q -> q + q * pow2 (-53) < pow2 1024 ->
  exists r, round q = finite r /\ q - q * pow2 (-53) <= r <= q + q * pow2 (-53).
Proof.
  intros Hlo Hhi. pose proof (pow2_pos (-1022)).
  rewrite round_of_positive by lra. pose proof (Qred_correct q) as Hr.
  assert (Hlo' : pow2 (-1022) <= Qred q) by lra.
  pose proof (round_positive_error (Qred q) Hlo') as [He1 He2].
  set (r := round_positive (Qred q)) in *.
  assert (Hqp : Qred q * pow2 (-53) == q * pow2 (-53)) by (by rewrite Hr).
  rewrite Hqp, Hr in He1, He2.
  rewrite Qle_bool_false by lra.
  exists (Qred r). split; [done|]. pose proof (Qred_correct r). lra.
Qed.

Lemma round_error_negative (q : Q) :
  q <= - pow2 (-1022) -> - q - q * pow2 (-53) < pow2 1024 ->
  exists r, round q = finite r /\ r <= 0.
Proof.
  intros Hlo Hhi. pose proof (pow2_pos (-1022)). pose proof (pow2_pos (-53)) as Hp.
  rewrite round_of_negative by lra. pose proof (Qred_correct q) as Hr.
  assert (Hlo' : pow2 (-1022) <= - Qred q) by lra.
  pose proof (round_positive_error (- Qred q) Hlo') as [He1 He2].
  assert (Hnn : 0 <= round_positive (- Qred q)) by (apply round_positive_nonneg; lra).
  set (r := round_positive (- Qred q)) in *.
  assert (Hqp : - Qred q * pow2 (-53) == - (q * pow2 (-53))) by (rewrite Hr; ring).
  rewrite Hqp, Hr in He2.
  rewrite Qle_bool_false by lra.
  exists (Qred (- r)). split; [done|]. pose proof (Qred_correct (- r)). lra.
Qed.

Lemma round_nonpositive (q : Q) :
  q < 0 -> match round q with finite r => r <= 0 | infinity negative => negative = true end.
Proof.
  intros Hq. rewrite round_of_negative by done. pose proof (Qred_correct q) as Hr.
  assert (Hnn : 0 <= round_positive (- Qred q)) by (apply round_positive_nonneg; lra).
  destruct (Qle_bool _ _); [done|].
  pose proof (Qred_correct (- round_positive (- Qred q))). lra.
Qed.

(** Rounding a number with at most 53 significant bits changes nothing. *)
Lemma round_dyadic (q : Q) (k j : Z) :
  (Z.abs k < 2 ^ 53)%Z -> (0 <= j <= 1022)%Z -> q == inject_Z k * pow2 (- j) ->
  exists r, round q = finite r /\ r == q.
Proof.
  intros Hk Hj Hq. pose proof (Qred_correct q) as Hr.
  pose proof (pow2_pos (- j)) as Hpj.
  assert (Hp1 : pow2 (- j) <= 1) by (change 1 with (pow2 0); apply pow2_le; lia).
  assert (Hbig : pow2 53 < pow2 1024) by (apply pow2_lt; lia).
  destruct (Z.lt_trichotomy k 0) as [Hneg|[->|Hpos]].
  - assert (Hk' : 0 < inject_Z (- k)) by (apply inject_Z_pos; lia).
    assert (Hk2 : inject_Z (- k) < pow2 53).
    { rewrite (pow2_inject 53) by lia. rewrite <- Zlt_Qlt. lia. }
    assert (Hq' : - Qred q == inject_Z (- k) * pow2 (- j)).
    { rewrite Hr, Hq, inject_Z_opp. ring. }
    assert (Hq0 : q < 0).
    { assert (0 < - q); [|lra]. rewrite <- Hr, Hq'. by apply Qmult_lt_0_compat. }
    rewrite round_of_negative by done.
    pose proof (round_positive_dyadic (- Qred q) (- k) j ltac:(lia) Hj Hq') as Hexact.
    set (r := round_positive (- Qred q)) in *.
    assert (Hsmall : r < pow2 1024).
    { rewrite Hexact, Hq'. apply Qle_lt_trans with (inject_Z (- k) * 1); [|lra].
      apply Qmult_le_l; lra. }
    rewrite Qle_bool_false by done.
    exists (Qred (- r)). split; [done|]. rewrite Qred_correct, Hexact. lra.
  - exists 0. split; [apply round_zero|]; rewrite Hq; change (inject_Z 0) with 0; ring.
  - assert (Hk' : 0 < inject_Z k) by (by apply inject_Z_pos).
    assert (Hk2 : inject_Z k < pow2 53).
    { rewrite (pow2_inject 53) by lia. rewrite <- Zlt_Qlt. lia. }
    assert (Hq' : Qred q == inject_Z k * pow2 (- j)) by (by rewrite Hr).
    assert (Hq0 : 0 < q) by (rewrite Hq; by apply Qmult_lt_0_compat).
    rewrite round_of_positive by done.
    pose proof (round_positive_dyadic (Qred q) k j ltac:(lia) Hj Hq') as Hexact.
    set (r := round_positive (Qred q)) in *.
    assert (Hsmall : r < pow2 1024).
    { rewrite Hexact, Hq'. apply Qle_lt_trans with (inject_Z k * 1); [|lra].
      apply Qmult_le_l; lra. }
    rewrite Qle_bool_false by done.
    exists (Qred r). split; [done|]. rewrite Qred_correct, Hexact. lra.
Qed.

Lemma round_proper (q q' : Q) : q == q' -> round q = round q'.
Proof. intros Hq. unfold round. by rewrite (Qred_complete _ _ Hq). Qed.

Lemma quotient_bounds (n s : Z) :
  (2 <= n < 2 ^ 63)%Z -> (0 < s < 2 ^ 48)%Z ->
  (1 # 2 ^ 47) <= inject_Z n / inject_Z s <= inject_Z (2 ^ 63).
Proof.
  intros Hn Hs. assert (Hs' : 0 < inject_Z s) by (apply inject_Z_pos; lia). split.
  - apply Qle_shift_div_l; [done|].
    unfold Qle. cbn [Qnum Qden Qmult inject_Z]. lia.
  - apply Qle_shift_div_r; [done|].
    rewrite <- inject_Z_mult, <- Zle_Qle. nia.
Qed.

Lemma quotient_above (c n s : Z) :
  (0 < s < 2 ^ 48)%Z -> (s < c * n)%Z ->
  1 + (1 # 2 ^ 48) <= inject_Z c * (inject_Z n / inject_Z s).
Proof.
  intros Hs Hc. assert (Hs' : 0 < inject_Z s) by (apply inject_Z_pos; lia).
  unfold Qdiv. rewrite Qmult_assoc, <- inject_Z_mult.
  apply Qle_shift_div_l; [done|]. set (cn := (c * n)%Z) in *.
  unfold Qle. cbn [Qnum Qden Qmult Qplus inject_Z]. lia.
Qed.

Lemma quotient_below (c n s : Z) :
  (0 < s < 2 ^ 48)%Z -> (c * n < s)%Z ->
  inject_Z c * (inject_Z n / inject_Z s) <= 1 - (1 # 2 ^ 48).
Proof.
  intros Hs Hc. assert (Hs' : 0 < inject_Z s) by (apply inject_Z_pos; lia).
  unfold Qdiv. rewrite Qmult_assoc, <- inject_Z_mult.
  apply Qle_shift_div_r; [done|]. set (cn := (c * n)%Z) in *.
  unfold Qle. cbn [Qnum Qden Qmult Qplus Qminus Qopp inject_Z]. lia.
Qed.

Lemma quotient_equal (c n s : Z) :
  (0 < c)%Z -> (0 < s)%Z -> (c * n = s)%Z -> inject_Z n / inject_Z s == 1 # Z.to_pos c.
Proof.
  intros Hc Hs <-. destruct c as [|c|c]; [lia| |lia]. cbn [Z.to_pos].
  assert (Hn : (0 < n)%Z) by nia.
  rewrite inject_Z_mult. assert (0 < inject_Z n) by (by apply inject_Z_pos).
  assert (0 < inject_Z (Z.pos c)) by (by apply inject_Z_pos).
  rewrite (Qmake_Qdiv 1 c). field. split; lra.
Qed.

(** Powers of two written with [^] are evaluated before linear arithmetic. *)
Ltac eval_powers :=
  repeat match goal with
  | |- context [Pos.pow ?b ?c] =>
      let v := eval vm_compute in (Pos.pow b c) in change (Pos.pow b c) with v
  | H : context [Pos.pow ?b ?c] |- _ =>
      let v := eval vm_compute in (Pos.pow b c) in change (Pos.pow b c) with v in H
  | |- context [inject_Z (Z.pow ?b ?c)] =>
      let v := eval vm_compute in (Z.pow b c) in
      change (inject_Z (Z.pow b c)) with (v # 1)
  | H : context [inject_Z (Z.pow ?b ?c)] |- _ =>
      let v := eval vm_compute in (Z.pow b c) in
      change (inject_Z (Z.pow b c)) with (v # 1) in H
  end.

Lemma pow2_53 : pow2 (-53) == 1 # 2 ^ 53.
Proof. reflexivity. Qed.

Lemma pow2_tiny : pow2 (-1022) <= 1 # 2 ^ 60.
Proof. change (1 # 2 ^ 60) with (pow2 (-60)). apply pow2_le. lia. Qed.

Lemma pow2_huge : inject_Z (2 ^ 80) <= pow2 1024.
Proof. rewrite <- (pow2_inject 80) by lia. apply pow2_le. lia. Qed.

(** The quotient of a length by a positive span is rounded with a relative
    error of at most [2^-53]. *)
Lemma int_true_div_error (n s : Z) :
  (2 <= n < 2 ^ 63)%Z -> (0 < s < 2 ^ 48)%Z ->
  exists x, int_true_div n s = Some x
            /\ inject_Z n / inject_Z s - inject_Z n / inject_Z s * (1 # 2 ^ 53) <= x
            /\ x <= inject_Z n / inject_Z s + inject_Z n / inject_Z s * (1 # 2 ^ 53).
Proof.
  intros Hn Hs. destruct (quotient_bounds n s Hn Hs) as [Hlo Hhi].
  set (q := inject_Z n / inject_Z s) in *.
  pose proof pow2_tiny. pose proof pow2_huge.
  destruct (round_error q) as (x & Hx & Hx1 & Hx2).
  - eval_powers. lra.
  - rewrite pow2_53. eval_powers. lra.
  - unfold int_true_div. fold q. rewrite Hx. exists x. split; [done|].
    rewrite pow2_53 in Hx1, Hx2. split; lra.
Qed.

(** The rounded product with 60 of a rounded quotient. *)
Lemma density_error (q x : Q) :
  (1 # 2 ^ 47) <= q <= inject_Z (2 ^ 63) ->
  q - q * (1 # 2 ^ 53) <= x <= q + q * (1 # 2 ^ 53) ->
  exists y, float_mul x 60 = finite y
            /\ x * 60 - x * 60 * (1 # 2 ^ 53) <= y <= x * 60 + x * 60 * (1 # 2 ^ 53).
Proof.
  intros [Hlo Hhi] [Hx1 Hx2]. pose proof pow2_tiny. pose proof pow2_huge.
  eval_powers.
  destruct (round_error (x * 60)) as (y & Hy & Hy1 & Hy2).
  - lra.
  - rewrite pow2_53. eval_powers. lra.
  - exists y. split; [done|]. rewrite pow2_53 in Hy1, Hy2. eval_powers. split; lra.
Qed.

(** The comparison of the density with [t = 60 / c] gives, in doubles, the
    result that it gives for the exact density. *)
Lemma density_side (n s c : Z) (t boundary : Q) :
  (2 <= n < 2 ^ 63)%Z -> (0 < s < 2 ^ 48)%Z -> (0 < c)%Z ->
  0 < t -> t * inject_Z c == 60 ->
  round (1 # Z.to_pos c) = finite boundary -> float_mul boundary 60 = finite t ->
  forall x, int_true_div n s = Some x ->
  float_gt (float_mul x 60) t = Qlt_bool t (inject_Z n / inject_Z s * 60).
Proof.
  intros Hn Hs Hc Ht Htc Hb1 Hb2 x Hx.
  destruct (int_true_div_error n s Hn Hs) as (x' & Hx' & Hx1 & Hx2).
  assert (x' = x) as -> by congruence.
  pose proof (quotient_bounds n s Hn Hs) as Hq.
  destruct (Z.lt_trichotomy (c * n) s) as [Hlt|[Heq|Hgt]].
  all: eval_powers.
  - pose proof (quotient_below c n s Hs Hlt) as Hside. eval_powers.
    set (q := inject_Z n / inject_Z s) in *.
    destruct (density_error q x Hq (conj Hx1 Hx2)) as (y & -> & Hy1 & Hy2).
    assert (Hd : t * (inject_Z c * q) <= t * (1 - (1 # 2 ^ 48))).
    { apply Qmult_le_l; [done|done]. }
    rewrite Qmult_assoc, Htc in Hd. eval_powers.
    cbn [float_gt]. transitivity false.
    + apply negb_false_iff, Qle_bool_iff. lra.
    + symmetry. apply negb_false_iff, Qle_bool_iff. lra.
  - pose proof (quotient_equal c n s Hc ltac:(lia) Heq) as Hq1.
    unfold int_true_div in Hx. rewrite (round_proper _ _ Hq1), Hb1 in Hx.
    injection Hx as <-. rewrite Hb2. cbn [float_gt].
    assert (Hd : inject_Z n / inject_Z s * 60 == t).
    { rewrite <- Htc, Hq1, (Qmake_Qdiv 1 (Z.to_pos c)), Z2Pos.id by done.
      assert (0 < inject_Z c) by (by apply inject_Z_pos). field. lra. }
    transitivity false.
    + apply negb_false_iff, Qle_bool_iff. lra.
    + symmetry. apply negb_false_iff, Qle_bool_iff. lra.
  - pose proof (quotient_above c n s Hs ltac:(lia)) as Hside. eval_powers.
    set (q := inject_Z n / inject_Z s) in *.
    destruct (density_error q x Hq (conj Hx1 Hx2)) as (y & -> & Hy1 & Hy2).
    assert (Hd : t * (1 + (1 # 2 ^ 48)) <= t * (inject_Z c * q)).
    { apply Qmult_le_l; [done|done]. }
    rewrite Qmult_assoc, Htc in Hd. eval_powers.
    cbn [float_gt]. transitivity true.
    + apply Qlt_bool_iff. lra.
    + symmetry. apply Qlt_bool_iff. lra.
Qed.


(** A negative span gives a negative density, below every threshold. *)
Lemma density_negative (n s : Z) (t : Q) :
  (2 <= n < 2 ^ 63)%Z -> (- 2 ^ 48 < s < 0)%Z -> 0 < t ->
  exists x, int_true_div n s = Some x
            /\ float_gt (float_mul x 60) t = false
            /\ Qlt_bool t (inject_Z n / inject_Z s * 60) = false.
Proof.
  intros Hn Hs Ht.
  destruct (quotient_bounds n (- s) Hn ltac:(lia)) as [Hlo Hhi].
  assert (Hq : inject_Z n / inject_Z s == - (inject_Z n / inject_Z (- s))).
  { rewrite inject_Z_opp. assert (inject_Z s < 0).
    { change 0 with (inject_Z 0). rewrite <- Zlt_Qlt. lia. }
    field. lra. }
  set (q := inject_Z n / inject_Z s) in *. set (q' := inject_Z n / inject_Z (- s)) in *.
  pose proof pow2_tiny. pose proof pow2_huge. eval_powers.
  destruct (round_error_negative q) as (x & Hx & Hx0).
  { lra. }
  { rewrite pow2_53. eval_powers. lra. }
  exists x. unfold int_true_div. fold q. rewrite Hx. split; [done|]. split.
  - unfold float_mul. destruct (Qlt_le_dec (x * 60) 0) as [Hneg|Hnn].
    + pose proof (round_nonpositive (x * 60) Hneg) as Hr.
      destruct (round (x * 60)) as [r|negative]; cbn [float_gt].
      * apply negb_false_iff, Qle_bool_iff. lra.
      * by rewrite Hr.
    + rewrite round_zero by lra. cbn [float_gt]. apply negb_false_iff, Qle_bool_iff. lra.
  - apply negb_false_iff, Qle_bool_iff. lra.
Qed.

Lemma py_int_proper (q q' : Q) : q == q' -> py_int q = py_int q'.
Proof.
  destruct q as [a b], q' as [c d]. unfold Qeq, py_int. cbn [Qnum Qden]. intros Heq.
  rewrite <- (Z.quot_mul_cancel_r a (Z.pos b) (Z.pos d)) by done.
  rewrite Heq, (Z.mul_comm (Z.pos b) (Z.pos d)).
  by rewrite Z.quot_mul_cancel_r by done.
Qed.

(** For a window below 2^51 the conversion and the product with 0.5 or 1.5
    are exact. *)
Lemma tier_product (tw k : Z) :
  (Z.abs tw < 2 ^ 51)%Z -> (k = 1 \/ k = 3)%Z ->
  exists x, float_of_int tw = Some x
            /\ int_of_float (float_mul x (k # 2))
               = Some (py_int (inject_Z tw * (k # 2))).
Proof.
  intros Htw Hk.
  destruct (round_dyadic (inject_Z tw) tw 0) as (x & Hx & Hxq); [lia|lia| |].
  { assert (Hone : pow2 (- 0) == 1) by reflexivity. rewrite Hone. ring. }
  exists x. unfold float_of_int. rewrite Hx. split; [done|].
  destruct (round_dyadic (x * (k # 2)) (tw * k) 1) as (r & Hr & Hrq); [lia|lia| |].
  { assert (Hhalf : pow2 (- (1)) == 1 # 2) by reflexivity.
    rewrite Hxq, Hhalf. unfold Qeq. cbn [Qnum Qden Qmult inject_Z]. lia. }
  unfold float_mul. rewrite Hr. cbn [int_of_float]. f_equal.
  apply py_int_proper. by rewrite Hrq, Hxq.
Qed.

(** ** The two embeddings of [_get_adaptive_window] *)

(** The three boundaries: the doubles nearest to 1/30, 1/60 and 1/120 give
    exactly 2, 1 and 0.5 when they are multiplied by 60. *)
Lemma boundary_doubles :
  (exists b, round (1 # 30) = finite b /\ float_mul b 60 = finite 2)
  /\ (exists b, round (1 # 60) = finite b /\ float_mul b 60 = finite 1)
  /\ (exists b, round (1 # 120) = finite b /\ float_mul b 60 = finite (1 # 2)).
Proof. repeat split; eexists; (split; [vm_compute; reflexivity|]); vm_compute; reflexivity. Qed.

Lemma tiers_agree (tw : Z) (density : float) (d : Q) :
  (Z.abs tw < 2 ^ 51)%Z ->
  float_gt density 2 = Qlt_bool (inject_Z 2) d ->
  float_gt density 1 = Qlt_bool (inject_Z 1) d ->
  float_gt density (1 # 2) = Qlt_bool (1 # 2) d ->
  (if float_gt density 2 then
     window ← float_of_int tw; int_of_float (float_mul window (1 # 2))
   else if float_gt density 1 then Some tw
   else if float_gt density (1 # 2) then
     window ← float_of_int tw; int_of_float (float_mul window (3 # 2))
   else Some (tw * 2)%Z)
  = Some (if Qlt_bool (inject_Z 2) d then py_int (inject_Z tw * (1 # 2))
          else if Qlt_bool (inject_Z 1) d then tw
          else if Qlt_bool (1 # 2) d then py_int (inject_Z tw * (3 # 2))
          else py_int (inject_Z tw * inject_Z 2)).
Proof.
  intros Htw -> -> ->.
  destruct (tier_product tw 1 Htw (or_introl eq_refl)) as (x & Hx & Hhalf).
  destruct (tier_product tw 3 Htw (or_intror eq_refl)) as (x' & Hx' & Hthree).
  assert (x' = x) as -> by congruence.
  destruct (Qlt_bool (inject_Z 2) d).
  { rewrite Hx. cbn [mbind option_bind]. exact Hhalf. }
  destruct (Qlt_bool (inject_Z 1) d); [done|].
  destruct (Qlt_bool (1 # 2) d).
  { rewrite Hx. cbn [mbind option_bind]. exact Hthree. }
  f_equal. unfold py_int. cbn [Qnum Qden Qmult inject_Z]. by rewrite Z.quot_1_r.
Qed.

(** X24: for a base window below 2^51 seconds, a current group that spans
    less than 2^48 seconds and has fewer than 2^63 messages (the bound of a
    Python list), the window computed with the double arithmetic of the code
    is the window computed with exact rationals: no operation overflows, the
    products with the window are exact, and the rounded density falls on the
    same side of 2, 1 and 0.5 as the exact density. *)
Theorem adaptive_window_double_agrees (cfg : Config) (g : group) :
  exact_window cfg -> exact_density g -> (Z.of_nat (length g) < 2 ^ 63)%Z ->
  _get_adaptive_window_double cfg g = Some (_get_adaptive_window cfg g).
Proof.
  intros Hw Hd Hlen. unfold _get_adaptive_window_double, _get_adaptive_window.
  destruct (negb (enable_adaptive_window cfg) || (length g <? 2)%nat) eqn:Hguard; [done|].
  apply orb_false_iff in Hguard as [_ Hlen2]. apply Nat.ltb_ge in Hlen2.
  destruct (head g) as [first|] eqn:Hh; [|done].
  destruct (last g) as [final|] eqn:Hl; [|done].
  specialize (Hd first final Hh Hl). cbv zeta.
  set (n := Z.of_nat (length g)) in *. set (s := (timestamp final - timestamp first)%Z) in *.
  assert (Hn : (2 <= n < 2 ^ 63)%Z) by lia.
  destruct boundary_doubles as ((b2 & Hb2 & Hb2') & (b1 & Hb1 & Hb1') & (bh & Hbh & Hbh')).
  destruct (Z.eqb_spec s 0) as [Hz|Hnz].
  { cbn [mbind option_bind]. by apply tiers_agree. }
  destruct (Z.lt_trichotomy s 0) as [Hneg|[Hzero|Hpos]]; [|done|].
  - destruct (density_negative n s 2 Hn ltac:(lia) ltac:(reflexivity)) as (x & Hx & H2 & H2').
    destruct (density_negative n s 1 Hn ltac:(lia) ltac:(reflexivity)) as (x1 & Hx1 & H1 & H1').
    destruct (density_negative n s (1 # 2) Hn ltac:(lia) ltac:(reflexivity))
      as (xh & Hxh & Hh' & Hh'').
    assert (x1 = x) as -> by congruence. assert (xh = x) as -> by congruence.
    rewrite Hx. cbn [mbind option_bind].
    apply tiers_agree; [done|..]; etransitivity; try eassumption; symmetry; eassumption.
  - destruct (int_true_div_error n s Hn ltac:(lia)) as (x & Hx & _).
    rewrite Hx. cbn [mbind option_bind]. apply tiers_agree; [done|..].
    + apply (density_side n s 30 2 b2); [done|lia|done|reflexivity|reflexivity|done..].
    + apply (density_side n s 60 1 b1); [done|lia|done|reflexivity|reflexivity|done..].
    + apply (density_side n s 120 (1 # 2) bh);
        [done|lia|done|reflexivity|reflexivity|done..].
Qed.

(** Ten seconds between two messages, and the default window. *)
Lemma adaptive_window_double_agrees_witness :
  _get_adaptive_window_double default_config [message_A; message_A2]
  = Some (_get_adaptive_window default_config [message_A; message_A2]).
Proof.
  apply (adaptive_window_double_agrees default_config [message_A; message_A2]).
  - reflexivity.
  - intros first final [= <-] [= <-]. reflexivity.
  - reflexivity.
Defined.

(** Outside that range the two differ: at a window of [2^53 + 1] the code
    returns 13510798882111488 where the rational product is
    13510798882111489, and at [2^55 + 3] it returns [2^54], which is less
    than [time_window // 2]. *)
Example adaptive_window_double_differs :
  let g := [plain "a" 0; plain "b" 150] in
  _get_adaptive_window_double (with_time_window (2 ^ 53 + 1)) g = Some 13510798882111488%Z
  /\ _get_adaptive_window (with_time_window (2 ^ 53 + 1)) g = 13510798882111489%Z
  /\ (let h := [plain "a" 0; plain "b" 1] in
      _get_adaptive_window_double (with_time_window (2 ^ 55 + 3)) h
      = Some (2 ^ 54)%Z
      /\ _get_adaptive_window (with_time_window (2 ^ 55 + 3)) h = (2 ^ 54 + 1)%Z).
Proof. repeat split; vm_compute; reflexivity. Qed.

End DoubleLemmas.
